(** * scribe: the page segmentation pipeline of [scribe/doc_reader.py]

    A shallow embedding of the layout flattener, the bold-run header
    detector, the block slicer, the contact extractor and the loop of
    [main] over the pages, with the properties of the specification that
    were checked against them and further properties of the code.

    Python values are modelled as follows.
    - [str] is a list of 8-bit characters, read as the code points
      U+0000 to U+00FF; text outside that range is outside the model.
    - [int] is [Z]; an index produced by [enumerate] is a [nat].
    - A [set] of strings is a [gset]; a list is a [list].
    - A lookup that raises [IndexError] returns [None].
    - The [re] module is modelled by a small backtracking matcher over a
      regular-expression syntax tree; each compiled pattern of the source
      is written as such a tree. *)

From Stdlib Require Import Ascii String ZArith Lia Bool.
From stdpp Require Import base decidable option list sorting gmap.

Set Warnings "-clear-no-such-hyp".

Open Scope Z_scope.
Open Scope nat_scope.
Open Scope list_scope.

Abbreviation str := (list ascii).

(** [py "abc"] is the Python string literal ['abc']. *)
Definition py (s : string) : str := list_ascii_of_string s.

Definition LF : ascii := ascii_of_nat 10.
Definition CR : ascii := ascii_of_nat 13.

(** ** Characters *)

Module Char.

Definition code (c : ascii) : nat := nat_of_ascii c.

Definition between (lo hi : nat) (c : ascii) : bool :=
  (lo <=? code c) && (code c <=? hi).

(** [str.isspace], which is also the class [\s] of a [str] pattern. *)
Definition is_space (c : ascii) : bool :=
  between 9 13 c || between 28 32 c || (code c =? 133) || (code c =? 160).

(** The class [\d]. *)
Definition is_digit (c : ascii) : bool := between 48 57 c.

Definition is_upper (c : ascii) : bool := between 65 90 c.
Definition is_lower (c : ascii) : bool := between 97 122 c.
Definition is_ascii_alpha (c : ascii) : bool := is_upper c || is_lower c.
Definition is_ascii_alnum (c : ascii) : bool := is_ascii_alpha c || is_digit c.

(** [str.isalnum] on the code points above 127. *)
Definition is_latin_alnum (c : ascii) : bool :=
  (code c =? 170) || between 178 179 c || (code c =? 181)
  || between 185 186 c || between 188 190 c
  || between 192 214 c || between 216 246 c || between 248 255 c.

(** The class [\w], which decides the word boundary [\b]. *)
Definition is_word (c : ascii) : bool :=
  is_ascii_alnum c || (code c =? 95) || is_latin_alnum c.

(** One character of [str.lower]. *)
Definition lower (c : ascii) : ascii :=
  if is_upper c || between 192 214 c || between 216 222 c
  then ascii_of_nat (code c + 32) else c.

Definition eqb_ci (a b : ascii) : bool := Ascii.eqb (lower a) (lower b).

End Char.

(** ** String methods *)

Definition lower (s : str) : str := map Char.lower s.

Fixpoint lstrip (s : str) : str :=
  match s with
  | c :: t => if Char.is_space c then lstrip t else s
  | [] => []
  end.

Definition rstrip (s : str) : str := rev (lstrip (rev s)).

(** [s.strip()] *)
Definition strip (s : str) : str := rstrip (lstrip s).

(** [s.startswith(p)] *)
Fixpoint startswith (p s : str) : bool :=
  match p, s with
  | [], _ => true
  | a :: p', b :: s' => Ascii.eqb a b && startswith p' s'
  | _ :: _, [] => false
  end.

(** [s.startswith(ps)] for a tuple [ps] *)
Definition startswith_any (ps : list str) (s : str) : bool :=
  existsb (fun p => startswith p s) ps.

(** [p in s] *)
Fixpoint contains (p s : str) : bool :=
  startswith p s ||
  match s with
  | [] => false
  | _ :: t => contains p t
  end.

(** [sep.join(l)] *)
Fixpoint join (sep : str) (l : list str) : str :=
  match l with
  | [] => []
  | [x] => x
  | x :: t => x ++ sep ++ join sep t
  end.

(** [s[i:j]] for [0 <= i <= j] *)
Definition substr (s : str) (i j : nat) : str := take (j - i) (drop i s).

(** ** Regular expressions *)

Module Re.

Inductive regex : Type :=
| Empty                                  (* the empty pattern *)
| Class (p : ascii -> bool)              (* one character of a class *)
| Seq (r1 r2 : regex)                    (* r1 r2 *)
| Alt (r1 r2 : regex)                    (* r1|r2, r1 is tried first *)
| Star (r : regex)                       (* r*, greedy *)
| Group (g : nat) (r : regex)            (* capturing group number g *)
| WordB.                                 (* \b *)

Definition Opt (r : regex) : regex := Alt r Empty.        (* r? *)
Definition Plus (r : regex) : regex := Seq r (Star r).    (* r+ *)

(** r{n} *)
Fixpoint Times (n : nat) (r : regex) : regex :=
  match n with
  | 0 => Empty
  | S n' => Seq r (Times n' r)
  end.

(** r{0,n} *)
Fixpoint UpTo (n : nat) (r : regex) : regex :=
  match n with
  | 0 => Empty
  | S n' => Opt (Seq r (UpTo n' r))
  end.

(** r{lo,hi} *)
Definition Range (lo hi : nat) (r : regex) : regex :=
  Seq (Times lo r) (UpTo (hi - lo) r).

(** r{n,} *)
Definition AtLeast (n : nat) (r : regex) : regex := Seq (Times n r) (Star r).

Definition Chr (c : ascii) : regex := Class (Ascii.eqb c).
Definition ChrI (c : ascii) : regex := Class (Char.eqb_ci c).

Fixpoint Seqs (rs : list regex) : regex :=
  match rs with
  | [] => Empty
  | [r] => r
  | r :: rs' => Seq r (Seqs rs')
  end.

(** A literal, and a literal under [re.IGNORECASE]. *)
Definition Lit (s : string) : regex := Seqs (map Chr (py s)).
Definition LitI (s : string) : regex := Seqs (map ChrI (py s)).

(** The spans of the capturing groups that took part in a match. *)
Abbreviation caps := (gmap nat (nat * nat)).

(** A match object: start, end and groups. *)
Record match_obj : Type := Match { m_start : nat; m_end : nat; m_caps : caps }.

Section Matcher.
Variable s : str.

Definition word_at (i : nat) : bool :=
  match s !! i with
  | Some c => Char.is_word c
  | None => false
  end.

Definition word_before (i : nat) : bool :=
  match i with
  | 0 => false
  | S j => word_at j
  end.

Definition at_boundary (i : nat) : bool := xorb (word_before i) (word_at i).

(** The rounds of a greedy starred pattern whose one round is [body]:
    try one more round, which must consume input, before leaving the
    loop; [n] bounds the rounds that are left. *)
Fixpoint star_loop {R : Type}
    (body : (nat -> caps -> option R) -> nat -> caps -> option R)
    (k : nat -> caps -> option R) (n : nat) (i : nat) (c : caps) : option R :=
  match n with
  | 0 => k i c
  | S n' =>
      match body (fun j c' => if i <? j then star_loop body k n' j c' else None) i c with
      | Some x => Some x
      | None => k i c
      end
  end.

(** [run r k i c]: match [r] at position [i], then continue with [k];
    the first success in priority order is the answer, which is how a
    backtracking matcher explores alternatives. As a round of a starred
    pattern consumes input, [len(s) - i] rounds are always enough. *)
Fixpoint run {R : Type} (r : regex) (k : nat -> caps -> option R)
    (i : nat) (c : caps) {struct r} : option R :=
  match r with
  | Empty => k i c
  | Class p =>
      match s !! i with
      | Some a => if p a then k (S i) c else None
      | None => None
      end
  | Seq r1 r2 => run r1 (run r2 k) i c
  | Alt r1 r2 =>
      match run r1 k i c with
      | Some x => Some x
      | None => run r2 k i c
      end
  | Star r' => star_loop (run r') k (length s - i) i c
  | Group g r' => run r' (fun j c' => k j (<[g := (i, j)]> c')) i c
  | WordB => if at_boundary i then k i c else None
  end.

(** [pattern.match(s, i)] *)
Definition match_at (r : regex) (i : nat) : option match_obj :=
  run r (fun j c => Some (Match i j c)) i ∅.

Fixpoint search_fuel (r : regex) (n : nat) (pos : nat) : option match_obj :=
  match n with
  | 0 => None
  | S n' =>
      match match_at r pos with
      | Some m => Some m
      | None => search_fuel r n' (S pos)
      end
  end.

(** [pattern.search(s)]: the leftmost match; the start positions are
    [0 .. len(s)]. *)
Definition search (r : regex) : option match_obj :=
  search_fuel r (S (length s)) 0.

Fixpoint finditer_fuel (r : regex) (n : nat) (pos : nat) : list match_obj :=
  match n with
  | 0 => []
  | S n' =>
      match match_at r pos with
      | Some m =>
          m :: finditer_fuel r n' (if pos <? m_end m then m_end m else S pos)
      | None => finditer_fuel r n' (S pos)
      end
  end.

(** [pattern.finditer(s)]: the non-overlapping matches, left to right. *)
Definition finditer (r : regex) : list match_obj :=
  finditer_fuel r (S (length s)) 0.

(** [m.group(0)] and [m.group(g)] *)
Definition group0 (m : match_obj) : str := substr s (m_start m) (m_end m).

Definition group (g : nat) (m : match_obj) : option str :=
  match m_caps m !! g with
  | Some (i, j) => Some (substr s i j)
  | None => None
  end.

Fixpoint rebuild (repl : str) (pos : nat) (ms : list match_obj) : str :=
  match ms with
  | [] => drop pos s
  | m :: ms' => substr s pos (m_start m) ++ repl ++ rebuild repl (m_end m) ms'
  end.

(** [pattern.sub(repl, s)] for a replacement without group references *)
Definition sub (r : regex) (repl : str) : str := rebuild repl 0 (finditer r).

End Matcher.

End Re.

Import Re.

(** ** The compiled patterns of the module *)

(** [r"\b(?:SDN BHD|BHD|BERHAD)\b"], IGNORECASE *)
Definition CO_TAIL_RE : regex :=
  Seqs [WordB; Alt (LitI "SDN BHD") (Alt (LitI "BHD") (LitI "BERHAD")); WordB].

(** The class [[A-Z0-9\-]] under IGNORECASE *)
Definition co_no_char (c : ascii) : bool :=
  Char.is_ascii_alnum c || Ascii.eqb c "-".

(** [r"\(Co\. ?No\. ?: ?([A-Z0-9\-]+)\)"], IGNORECASE *)
Definition CO_NO_RE : regex :=
  Seqs [Chr "("; LitI "Co"; Chr "."; Opt (Chr " "); LitI "No"; Chr ".";
        Opt (Chr " "); Chr ":"; Opt (Chr " ");
        Group 1 (Plus (Class co_no_char)); Chr ")"].

Definition REJECT_BOLD_PREFIXES : list str :=
  [py "directory of"; py "business activities"; py "email"; py "web site";
   py "tel.no"; py "fax.no"; py "authorised capital"; py "paid up capital";
   py "incorporation date"; py "no of employees"; py "management"].

Definition not_newline (c : ascii) : bool :=
  negb (Ascii.eqb c LF || Ascii.eqb c CR).

(** [r"Tel\.?\s*No\.?\s*:\s*([^\n\r]+)"], IGNORECASE *)
Definition TEL_LABEL_RE : regex :=
  Seqs [LitI "Tel"; Opt (Chr "."); Star (Class Char.is_space);
        LitI "No"; Opt (Chr "."); Star (Class Char.is_space);
        Chr ":"; Star (Class Char.is_space);
        Group 1 (Plus (Class not_newline))].

(** [r"\b(?:\+?6?0)?\d{2,3}-?\d{5,8}\b"] *)
Definition PHONE_RE : regex :=
  Seqs [WordB; Opt (Seqs [Opt (Chr "+"); Opt (Chr "6"); Chr "0"]);
        Range 2 3 (Class Char.is_digit); Opt (Chr "-");
        Range 5 8 (Class Char.is_digit); WordB].

Definition email_local_char (c : ascii) : bool :=
  Char.is_ascii_alnum c || existsb (Ascii.eqb c) (py "._%+-").

Definition email_domain_char (c : ascii) : bool :=
  Char.is_ascii_alnum c || existsb (Ascii.eqb c) (py ".-").

(** [(?:\s+|\n)?] *)
Definition broken_ws : regex := Opt (Alt (Plus (Class Char.is_space)) (Chr LF)).

(** The VERBOSE pattern of the source: local part, a possibly broken [@],
    domain, a possibly broken dot, top-level domain, and an optional second
    top-level part. *)
Definition EMAIL_BREAK_RE : regex :=
  Seqs [Group 1 (Plus (Class email_local_char));
        broken_ws; Chr "@"; broken_ws;
        Group 2 (Plus (Class email_domain_char));
        broken_ws; Chr "."; broken_ws;
        Group 3 (AtLeast 2 (Class Char.is_ascii_alpha));
        Opt (Seqs [Chr "."; broken_ws;
                   Group 4 (AtLeast 2 (Class Char.is_ascii_alpha))])].

(** ** Order-preserving deduplication *)

(** The loop shared by [dedup_preserve_order] and the last loop of
    [extract_headers_from_bold]: keep [x] unless its key is in [seen]. *)
Definition dedup_step {A : Type} (key : A -> str)
    (acc : gset str * list A) (x : A) : gset str * list A :=
  let '(seen, out) := acc in
  if decide (key x ∈ seen) then (seen, out) else ({[key x]} ∪ seen, out ++ [x]).

Definition dedup_on {A : Type} (key : A -> str) (items : list A) : list A :=
  snd (foldl (dedup_step key) (∅, []) items).

Definition dedup_preserve_order (items : list str) : list str :=
  dedup_on id items.

(** ** Contact extraction *)

Definition normalize_emails (text : str) : list str :=
  let email_of (m : match_obj) : str :=
    let part g := default [] (group text g m) in
    let email := part 1 ++ py "@" ++ part 2 ++ py "." ++ part 3 in
    let email :=
      match group text 4 m with
      | Some tld2 => if bool_decide (tld2 = []) then email else email ++ py "." ++ tld2
      | None => email
      end in
    lower email in
  dedup_preserve_order (map email_of (finditer text EMAIL_BREAK_RE)).

Definition extract_contacts_from_block (block_text : str) : list str * list str :=
  let phones :=
    flat_map (fun m =>
                let tail := default [] (group block_text 1 m) in
                map (group0 tail) (finditer tail PHONE_RE))
             (finditer block_text TEL_LABEL_RE) in
  let phones := dedup_preserve_order phones in
  let emails := normalize_emails block_text in
  (phones, emails).

Definition sample_block : str :=
  py "Tel No.: 03-12345678, 019-8765432" ++ [LF] ++ py "some.person @ example . com".


(** ** Layout flattening *)

(** The layout dictionary of the page provider; a key that may be absent
    is an [option]. *)
Record raw_span : Type :=
  RawSpan { rs_text : option str; rs_font : option str; rs_weight : option Z }.

Record raw_line : Type := RawLine { rl_spans : option (list raw_span) }.

Record raw_block : Type :=
  RawBlock { rb_type : option Z; rb_lines : option (list raw_line) }.

Record page_dict : Type := PageDict { pd_blocks : option (list raw_block) }.

Record span : Type := Span { text : str; is_bold : bool; line_no : Z }.

Definition is_bold_span (s : raw_span) : bool :=
  let font := lower (default [] (rs_font s)) in
  let weight := default 0%Z (rs_weight s) in
  contains (py "bold") font || (negb (weight =? 0)%Z && (700 <=? weight)%Z).

(** [re.sub(r"\s+", " ", t).strip()] *)
Definition collapse_ws (t : str) : str :=
  strip (sub t (Plus (Class Char.is_space)) (py " ")).

Definition flatten_span (line_no : Z) (acc : list span * list str) (s : raw_span)
    : list span * list str :=
  let '(spans, acc_line) := acc in
  let t := collapse_ws (default [] (rs_text s)) in
  if bool_decide (t = []) then (spans, acc_line)
  else (spans ++ [Span t (is_bold_span s) line_no], acc_line ++ [t]).

Definition flatten_line (st : list span * list str * Z) (l : raw_line)
    : list span * list str * Z :=
  let '(spans, lines, line_no) := st in
  let line_no := (line_no + 1)%Z in
  let '(spans, acc_line) :=
    foldl (flatten_span line_no) (spans, []) (default [] (rl_spans l)) in
  (spans, lines ++ [strip (join (py " ") acc_line)], line_no).

Definition flatten_block (st : list span * list str * Z) (b : raw_block)
    : list span * list str * Z :=
  if bool_decide (rb_type b = Some 0%Z)
  then foldl flatten_line st (default [] (rb_lines b))
  else st.

Definition get_flat_spans_with_lines (page : page_dict) : list span * list str :=
  let '(spans, lines, _) :=
    foldl flatten_block ([], [], (-1)%Z) (default [] (pd_blocks page)) in
  (spans, lines).

(** ** Header detection *)

Abbreviation header := (str * option nat)%type.

Record hstate : Type :=
  HState { results : list header; buf : list str; last_idx : option nat }.

(** The state of the header detector before the first span. *)
Definition init_state : hstate := HState [] [] None.

Definition rejected (t : str) : bool :=
  startswith_any REJECT_BOLD_PREFIXES (lower t).

Definition co_tail_found (t : str) : bool :=
  bool_decide (is_Some (search t CO_TAIL_RE)).

(** The name kept for a company: the registration annotation removed, the
    ends stripped, and runs of two or more spaces made one space. *)
Definition clean_name (joined : str) : str :=
  let clean := strip (sub joined CO_NO_RE []) in
  sub clean (AtLeast 2 (Class Char.is_space)) (py " ").

Definition flush_if_company (st : hstate) : hstate :=
  match buf st with
  | [] => st
  | _ :: _ =>
      let joined := strip (join (py " ") (buf st)) in
      if rejected joined then HState (results st) [] None
      else
        let results' :=
          if co_tail_found joined || contains (py "(Co. No.") joined then
            let clean := clean_name joined in
            if negb (bool_decide (clean = [])) && (length clean <=? 120)
            then results st ++ [(clean, last_idx st)]
            else results st
          else results st in
        HState results' [] None
  end.

(** The body of the loop over [enumerate(spans)]. *)
Definition scan_step (i : nat) (sp : span) (st : hstate) : hstate :=
  let txt := text sp in
  if is_bold sp then
    if rejected txt then flush_if_company st
    else
      let st' := HState (results st) (buf st ++ [txt]) (Some i) in
      if co_tail_found (join (py " ") (buf st')) || contains (py "(Co. No.") txt
      then flush_if_company st'
      else st'
  else flush_if_company st.

Fixpoint scan (i : nat) (spans : list span) (st : hstate) : hstate :=
  match spans with
  | [] => st
  | sp :: rest => scan (S i) rest (scan_step i sp st)
  end.

(** The header candidates, before the names are made unique. *)
Definition header_candidates (spans : list span) : list header :=
  results (flush_if_company (scan 0 spans init_state)).

Definition extract_headers_from_bold (spans : list span) : list header :=
  dedup_on fst (header_candidates spans).

(** ** Block slicing *)

(** [l[lo:hi]] for any integers [lo] and [hi] *)
Definition py_slice {A : Type} (l : list A) (lo hi : Z) : list A :=
  let n := Z.of_nat (length l) in
  let clip (i : Z) : Z := if (i <? 0)%Z then Z.max (i + n) 0 else Z.min i n in
  take (Z.to_nat (clip hi - clip lo)) (drop (Z.to_nat (clip lo)) l).

(** [spans[idx]["line_no"]]; [None] stands for the exception raised when
    [idx] is [None] or out of range. *)
Definition line_of (spans : list span) (idx : option nat) : option Z :=
  e ← idx; sp ← spans !! e; Some (line_no sp).

(** [start_line] and [stop_line] of the block of header [i]. *)
Definition block_bounds (headers : list header) (spans : list span)
    (lines : list str) (i : nat) (end_idx : option nat) : option (Z * Z) :=
  start_line ←
    match end_idx with
    | Some _ => l ← line_of spans end_idx; Some (l + 1)%Z
    | None => Some 0%Z
    end;
  stop_line ←
    (if decide (i + 1 < length headers)
     then h ← headers !! (i + 1); l ← line_of spans (h.2); Some (l - 1)%Z
     else Some (Z.of_nat (length lines) - 1)%Z);
  let stop_line := if (stop_line <? start_line)%Z then start_line else stop_line in
  Some (start_line, stop_line).

Definition slice_block (headers : list header) (spans : list span)
    (lines : list str) (i : nat) (h : header) : option (str * str) :=
  '(start_line, stop_line) ← block_bounds headers spans lines i (h.2);
  let block_lines :=
    filter (λ ln : str, ln ≠ []) (py_slice lines start_line (stop_line + 1)) in
  Some (h.1, join [LF] block_lines).

Definition slice_company_blocks (headers : list header) (spans : list span)
    (lines : list str) : option (list (str * str)) :=
  mapM (λ ih : nat * header, slice_block headers spans lines (ih.1) (ih.2))
       (imap pair headers).

(** ** Block slicing on any integer index

    The header detector gives natural numbers as terminating indices, and
    the slicer above is written for them. Python takes any integer as an
    index, a negative one counting from the end: this is the slicer for
    headers whose index is any integer or [None]. *)

Module AnyIndex.

(** [l[e]] for an integer [e]; [None] stands for the [IndexError] raised
    when [e] is out of range. *)
Definition getitem {A : Type} (l : list A) (e : Z) : option A :=
  let n := Z.of_nat (length l) in
  if (e <? 0)%Z
  then (if (e + n <? 0)%Z then None else l !! Z.to_nat (e + n))
  else l !! Z.to_nat e.

(** [spans[idx]["line_no"]]; [None] stands for the exception raised when
    [idx] is [None] or out of range. *)
Definition line_of (spans : list span) (idx : option Z) : option Z :=
  e ← idx; sp ← getitem spans e; Some (line_no sp).

Definition block_bounds (headers : list (str * option Z)) (spans : list span)
    (lines : list str) (i : nat) (end_idx : option Z) : option (Z * Z) :=
  start_line ←
    match end_idx with
    | Some _ => l ← line_of spans end_idx; Some (l + 1)%Z
    | None => Some 0%Z
    end;
  stop_line ←
    (if decide (i + 1 < length headers)
     then h ← headers !! (i + 1); l ← line_of spans (h.2); Some (l - 1)%Z
     else Some (Z.of_nat (length lines) - 1)%Z);
  let stop_line := if (stop_line <? start_line)%Z then start_line else stop_line in
  Some (start_line, stop_line).

Definition slice_block (headers : list (str * option Z)) (spans : list span)
    (lines : list str) (i : nat) (h : str * option Z) : option (str * str) :=
  '(start_line, stop_line) ← block_bounds headers spans lines i (h.2);
  let block_lines :=
    filter (λ ln : str, ln ≠ []) (py_slice lines start_line (stop_line + 1)) in
  Some (h.1, join [LF] block_lines).

Definition slice_company_blocks (headers : list (str * option Z))
    (spans : list span) (lines : list str) : option (list (str * str)) :=
  mapM (λ ih : nat * (str * option Z),
          slice_block headers spans lines (ih.1) (ih.2))
       (imap pair headers).

End AnyIndex.

(** A header of the detector as a header with an integer index. *)
Definition int_header (h : header) : str * option Z := (h.1, Z.of_nat <$> h.2).

(** ** Specification-level notions

    What the deduplication loop keeps, as a recursive function of the keys
    seen so far. *)
Fixpoint keep_first {A : Type} (key : A -> str) (seen : gset str) (l : list A) : list A :=
  match l with
  | [] => []
  | x :: t =>
      if decide (key x ∈ seen) then keep_first key seen t
      else x :: keep_first key ({[key x]} ∪ seen) t
  end.

Module ReSpec.

(** [Matches s r i j]: the pattern [r] matches [s[i:j]] in the context of
    [s] (the context decides the word boundaries). *)
Inductive Matches (s : str) : regex -> nat -> nat -> Prop :=
| M_Empty i : Matches s Empty i i
| M_Class p i a : s !! i = Some a -> p a = true -> Matches s (Class p) i (S i)
| M_Seq r1 r2 i j k :
    Matches s r1 i j -> Matches s r2 j k -> Matches s (Seq r1 r2) i k
| M_AltL r1 r2 i j : Matches s r1 i j -> Matches s (Alt r1 r2) i j
| M_AltR r1 r2 i j : Matches s r2 i j -> Matches s (Alt r1 r2) i j
| M_StarNil r i : Matches s (Star r) i i
| M_StarCons r i j k :
    Matches s r i j -> Matches s (Star r) j k -> Matches s (Star r) i k
| M_Group g r i j : Matches s r i j -> Matches s (Group g r) i j
| M_WordB i : at_boundary s i = true -> Matches s WordB i i.

(** The pattern occurs somewhere in the text. *)
Definition occurs (r : regex) (s : str) : Prop := exists i j, Matches s r i j.

End ReSpec.

Import ReSpec.

(** The text searched for phones: the first group of each label match. *)
Definition label_tails (block_text : str) : list str :=
  map (fun m => default [] (group block_text 1 m)) (finditer block_text TEL_LABEL_RE).

(** The visual text lines of a page: the lines of its text blocks, in
    document order. *)
Definition text_lines (page : page_dict) : list raw_line :=
  flat_map (fun b => if bool_decide (rb_type b = Some 0%Z)
                     then default [] (rb_lines b) else [])
           (default [] (pd_blocks page)).

(** A fragment with its text collapsed, when that text is not empty. *)
Definition fragment (s : raw_span) : option (str * bool) :=
  let t := collapse_ws (default [] (rs_text s)) in
  if bool_decide (t = []) then None else Some (t, is_bold_span s).

Definition fragments (l : raw_line) : list (str * bool) :=
  omap fragment (default [] (rl_spans l)).

Definition line_spans (n : Z) (l : raw_line) : list span :=
  (fun f => Span (f.1) (f.2) n) <$> fragments l.

Definition line_text (l : raw_line) : str :=
  strip (join (py " ") ((fragments l).*1)).

(** The spans of consecutive lines, numbered from [start]. *)
Fixpoint page_spans (start : Z) (ls : list raw_line) : list span :=
  match ls with
  | [] => []
  | l :: t => line_spans start l ++ page_spans (start + 1) t
  end.

Definition line_le (a b : span) : Prop := (line_no a <= line_no b)%Z.

(** The candidates found when the scan starts at index [i] with an empty
    buffer. *)
Definition candidates_from (i : nat) (spans : list span) : list header :=
  results (flush_if_company (scan i spans init_state)).

(** What a flush of the buffer [b], whose last span has index [idx], adds
    to the results. *)
Definition flush_output (b : list str) (idx : option nat) : list header :=
  let joined := strip (join (py " ") b) in
  let clean := clean_name joined in
  if rejected joined then []
  else if (co_tail_found joined || contains (py "(Co. No.") joined)
          && (negb (bool_decide (clean = [])) && (length clean <=? 120))
       then [(clean, idx)]
       else [].

(** A span that the detector adds to its buffer. *)
Definition accumulates (sp : span) : bool := is_bold sp && negb (rejected (text sp)).

(** The terminating indices of [rs] increase strictly, starting at [lo] or
    above. *)
Fixpoint incr_from (lo : nat) (rs : list header) : Prop :=
  match rs with
  | [] => True
  | h :: t =>
      match h.2 with
      | Some j => lo <= j /\ incr_from (S j) t
      | None => False
      end
  end.

(** The header [h] ends at an accumulated span of [spans] below [m]. *)
Definition idx_ok (spans : list span) (m : nat) (h : header) : Prop :=
  exists j sp, h.2 = Some j /\ j < m /\ spans !! j = Some sp /\ accumulates sp = true.

(** The invariant of the scan before the span of index [n]. *)
Definition scan_inv (spans : list span) (n : nat) (st : hstate) : Prop :=
  incr_from 0 (results st)
  /\ exists m, m <= n /\ Forall (idx_ok spans m) (results st)
     /\ (buf st <> [] ->
         exists l sp, last_idx st = Some l /\ m <= l /\ l < n
                      /\ spans !! l = Some sp /\ accumulates sp = true).

(** The line range of the block of the header at position [i]. *)
Definition block_range (headers : list header) (spans : list span)
    (lines : list str) (i : nat) : option (Z * Z) :=
  h ← headers !! i; block_bounds headers spans lines i (h.2).

(** The line of the terminating span of each header; [None] when a lookup
    fails. *)
Definition header_lines (spans : list span) (headers : list header) : option (list Z) :=
  mapM (fun h : header => line_of spans (h.2)) headers.

Fixpoint strictly_increasing (ls : list Z) : bool :=
  match ls with
  | a :: (b :: _) as t => (a <? b)%Z && strictly_increasing t
  | _ => true
  end.

(** No line belongs to the ranges of two blocks. *)
Definition ranges_disjoint (headers : list header) (spans : list span)
    (lines : list str) : Prop :=
  forall i j a b c d, i < j ->
    block_range headers spans lines i = Some (a, b) ->
    block_range headers spans lines j = Some (c, d) ->
    (b < c)%Z.

(** The body text made of the lines [a .. b]. *)
Definition body_of (lines : list str) (a b : Z) : str :=
  join [LF] (filter (λ ln : str, ln ≠ []) (py_slice lines a (b + 1))).

(** ** Example data *)

Definition bold (t : string) (l : Z) : span := Span (py t) true l.
Definition plain (t : string) (l : Z) : span := Span (py t) false l.

Definition raw_bold (t : string) : raw_span :=
  RawSpan (Some (py t)) (Some (py "Helvetica-Bold")) None.
Definition raw_plain (t : string) : raw_span :=
  RawSpan (Some (py t)) (Some (py "Helvetica")) None.

Definition page_of (ls : list (list raw_span)) : page_dict :=
  PageDict (Some [RawBlock (Some 0%Z) (Some ((fun l => RawLine (Some l)) <$> ls))]).

(** Two company names set in bold on one line, and one line of text. *)
Definition page_two_names_on_a_line : page_dict :=
  page_of [[raw_bold "A BHD"; raw_bold "B BHD"]; [raw_plain "x"]].

(** Two company names, each followed by a line of text. *)
Definition page_two_companies : page_dict :=
  page_of [[raw_bold "A BHD"]; [raw_plain "x"]; [raw_bold "B BHD"]; [raw_plain "y"]].

(** A company met twice with another company in between, and a company
    met twice in a row. *)
Definition page_name_repeated_later : page_dict :=
  page_of [[raw_bold "A BHD"]; [raw_plain "x"]; [raw_bold "B BHD"];
           [raw_plain "y"]; [raw_bold "A BHD"]; [raw_plain "z"]].

Definition page_name_repeated : page_dict :=
  page_of [[raw_bold "A BHD"]; [raw_plain "x"]; [raw_bold "A BHD"];
           [raw_plain "y"]; [raw_plain "z"]].

(** The range of the block at position [p] starts after the line of span
    [i] and covers every line strictly between the lines of the spans [i]
    and [j]. *)
Definition block_covers_between (headers : list header) (spans : list span)
    (lines : list str) (p i j : nat) : Prop :=
  exists li lj a b,
    line_of spans (Some i) = Some li
    /\ line_of spans (Some j) = Some lj
    /\ block_range headers spans lines p = Some (a, b)
    /\ a = (li + 1)%Z
    /\ forall l, (li < l < lj)%Z -> (a <= l <= b)%Z.

(** The flush test made after a span was added to the buffer [b]: a company
    suffix in the joined buffer, or a registration mark in the last text. *)
Definition trigger (b : list str) : bool :=
  co_tail_found (join (py " ") b) || contains (py "(Co. No.") (default [] (last b)).

(** The spans [j .. i] of [spans], both ends included. *)
Definition spans_between (spans : list span) (j i : nat) : list span :=
  take (S i - j) (drop j spans).

(** The header [h] was recorded by the flush of the bold run [j .. i]: the
    buffer is empty when span [j] is met; the spans [j .. i] are all added
    to it, and it does not pass the flush test before span [i] is added;
    the flush follows span [i] at once, because the buffer passes the flush
    test, or because the next span is not added, or because span [i] is the
    last one; and [h] is what that flush records, with the index [i] of the
    last span added. *)
Definition recorded_from_run (spans : list span) (h : header) (j i : nat) : Prop :=
  j <= i < length spans
  /\ buf (scan 0 (take j spans) init_state) = []
  /\ Forall (fun sp => accumulates sp = true) (spans_between spans j i)
  /\ (forall m, j <= m < i -> trigger (text <$> spans_between spans j m) = false)
  /\ (trigger (text <$> spans_between spans j i) = true
      \/ match spans !! (S i) with
         | Some sp => accumulates sp = false
         | None => True
         end)
  /\ flush_output (text <$> spans_between spans j i) (Some i) = [h].

(** Every header is recorded from a run. *)
Definition all_recorded (spans : list span) (hs : list header) : Prop :=
  Forall (fun h : header => exists j i, h.2 = Some i /\ recorded_from_run spans h j i) hs.

(** The state of the detector before the span of index [n]: its results
    are recorded from runs, and its buffer holds the texts of the spans
    [j .. n - 1], the run that is open. *)
Definition run_inv (spans : list span) (n : nat) (st : hstate) : Prop :=
  all_recorded spans (results st)
  /\ exists j, j <= n
       /\ buf st = text <$> take (n - j) (drop j spans)
       /\ buf (scan 0 (take j spans) init_state) = []
       /\ Forall (fun sp => accumulates sp = true) (take (n - j) (drop j spans))
       /\ (forall m, j <= m < n -> trigger (text <$> spans_between spans j m) = false)
       /\ (j < n -> last_idx st = Some (n - 1)).

(** The texts [ts], added one by one to the buffer [b], pass the flush test
    when the last one is added and not before. *)
Fixpoint flushes_at_end (b : list str) (ts : list str) : bool :=
  match ts with
  | [] => false
  | [t] => trigger (b ++ [t])
  | t :: rest => negb (trigger (b ++ [t])) && flushes_at_end (b ++ [t]) rest
  end.

(** A text as the flattener leaves it: not empty, no space at either end. *)
Definition trimmed (t : str) : bool :=
  match t, rev t with
  | c :: _, d :: _ => negb (Char.is_space c) && negb (Char.is_space d)
  | _, _ => false
  end.

(** A bold run as the detector accumulates it: bold spans that are not
    rejected, with trimmed texts, flushed when the last one is added. *)
Definition is_bold_run (run : list span) : bool :=
  forallb (fun sp => accumulates sp && trimmed (text sp)) run
  && flushes_at_end [] (text <$> run).

Definition run_text (run : list span) : str := join (py " ") (text <$> run).




(** Two states of the detector that differ by results found earlier. *)
Definition same_but (R : list header) (st st' : hstate) : Prop :=
  results st = R ++ results st' /\ buf st = buf st'
  /\ (buf st <> [] -> last_idx st = last_idx st').

(** A bold run that begins like a section label and ends in a company
    suffix. *)
Definition run_with_label_prefix : list span :=
  [bold "directory" 0; bold "of ACME SDN BHD" 0].


(** The first steps of [main] on one page. *)
Definition page_spans_of (page : page_dict) : list span :=
  (get_flat_spans_with_lines page).1.

Definition page_lines_of (page : page_dict) : list str :=
  (get_flat_spans_with_lines page).2.

Definition page_headers (page : page_dict) : list header :=
  extract_headers_from_bold (page_spans_of page).

Definition page_blocks (page : page_dict) : option (list (str * str)) :=
  slice_company_blocks (page_headers page) (page_spans_of page) (page_lines_of page).

(** A page whose second line holds only spaces. *)
Definition page_with_blank_line : page_dict :=
  page_of [[raw_bold "A BHD"]; [raw_plain "   "]; [raw_plain "x"]].

(** A header name as a flush records it: not empty, 120 characters at
    most. *)
Definition name_ok (h : header) : Prop := h.1 <> [] /\ length (h.1) <= 120.

(** The span [sp] moved down by [n] lines. *)
Definition shift_line (n : nat) (sp : span) : span :=
  Span (text sp) (is_bold sp) (line_no sp + Z.of_nat n).

(** The layout of a page made of the given blocks. *)
Definition page_with (bs : list raw_block) : page_dict := PageDict (Some bs).

Definition is_text_block (b : raw_block) : bool := bool_decide (rb_type b = Some 0%Z).

(** The spans of [spans] that lie on line [n]. *)
Definition spans_on_line (n : nat) (spans : list span) : list span :=
  List.filter (fun sp => (line_no sp =? Z.of_nat n)%Z) spans.

(** ** Records and the loop over pages of [main] *)

Record record : Type :=
  Rec { company : str; emails : list str; phones : list str; management : list str }.

(** Returns [[]], whatever it is given. *)
Definition extract_management_stub : list str := [].

(** The records of one page; [None] if the slicer raised. *)
Definition record_of (b : str * str) : record :=
  let '(phones, emails) := extract_contacts_from_block (b.2) in
  Rec (b.1) emails phones extract_management_stub.

Definition page_records (page : page_dict) : option (list record) :=
  match page_blocks page with
  | Some blocks => Some (record_of <$> blocks)
  | None => None
  end.

(** What is printed for a page: the companies and the three roll-ups. *)
Record page_report : Type :=
  Report { r_companies : list str; r_emails : list str;
           r_phones : list str; r_management : list str }.

Definition report_of (records : list record) : page_report :=
  Report (company <$> records)
         (dedup_preserve_order (concat (emails <$> records)))
         (dedup_preserve_order (concat (phones <$> records)))
         (dedup_preserve_order (concat (management <$> records))).

(** The output for one requested page: a warning, or a report. *)
Inductive page_output : Type :=
| Skipped (p : Z)
| Printed (p : Z) (r : page_report).

(** [args.pages if args.pages else [3]] *)
Definition pages_to_check (pages : option (list Z)) : list Z :=
  match pages with
  | Some (p :: ps) => p :: ps
  | _ => [3%Z]
  end.

(** The loop of [main] over the requested pages of a document, a list of
    page layouts; [None] if a page raised. *)
Definition main_pages (doc : list page_dict) (pages : option (list Z))
    : option (list page_output) :=
  mapM (fun p : Z =>
          if (p <? 0)%Z || (Z.of_nat (length doc) <=? p)%Z then Some (Skipped p)
          else
            page ← doc !! Z.to_nat p;
            records ← page_records page;
            Some (Printed p (report_of records)))
       (pages_to_check pages).

(** The page number [p] passes the range test of the loop. *)
Definition in_range (doc : list page_dict) (p : Z) : bool :=
  negb ((p <? 0)%Z || (Z.of_nat (length doc) <=? p)%Z).

(** ** What a pattern can match *)

(** The characters that a match of the pattern may hold. *)
Fixpoint any_class (r : regex) (a : ascii) : bool :=
  match r with
  | Empty | WordB => false
  | Class p => p a
  | Seq r1 r2 | Alt r1 r2 => any_class r1 a || any_class r2 a
  | Star r' | Group _ r' => any_class r' a
  end.

(** The least length of a match, and the greatest when there is one. *)
Fixpoint min_len (r : regex) : nat :=
  match r with
  | Empty | WordB | Star _ => 0
  | Class _ => 1
  | Seq r1 r2 => min_len r1 + min_len r2
  | Alt r1 r2 => min_len r1 `min` min_len r2
  | Group _ r' => min_len r'
  end.

Fixpoint max_len (r : regex) : option nat :=
  match r with
  | Empty | WordB => Some 0
  | Class _ => Some 1
  | Seq r1 r2 =>
      match max_len r1, max_len r2 with
      | Some a, Some b => Some (a + b)
      | _, _ => None
      end
  | Alt r1 r2 =>
      match max_len r1, max_len r2 with
      | Some a, Some b => Some (a `max` b)
      | _, _ => None
      end
  | Star _ => None
  | Group _ r' => max_len r'
  end.

(** The capturing groups of a pattern, with what they enclose. *)
Fixpoint groups_of (r : regex) : list (nat * regex) :=
  match r with
  | Empty | WordB | Class _ => []
  | Seq r1 r2 | Alt r1 r2 => groups_of r1 ++ groups_of r2
  | Star r' => groups_of r'
  | Group g r' => (g, r') :: groups_of r'
  end.

(** The group [g] takes part in every match of the pattern. *)
Fixpoint sets_group (g : nat) (r : regex) : bool :=
  match r with
  | Empty | WordB | Class _ | Star _ => false
  | Seq r1 r2 => sets_group g r1 || sets_group g r2
  | Alt r1 r2 => sets_group g r1 && sets_group g r2
  | Group g' r' => (g =? g') || sets_group g r'
  end.

(** Every recorded group span satisfies [Q]. *)
Definition caps_all (Q : nat -> nat -> nat -> Prop) (c : caps) : Prop :=
  forall g i j, c !! g = Some (i, j) -> Q g i j.

(** The span [i .. j] of [s] is a match of what group [g] of [r] encloses. *)
Definition group_matches (s : str) (r : regex) (g i j : nat) : Prop :=
  exists rg, (g, rg) ∈ groups_of r /\ Matches s rg i j.

Definition phone_char (c : ascii) : bool :=
  Char.is_digit c || Ascii.eqb c "+" || Ascii.eqb c "-".

(** What a continuation-passing run of [r] on [s] owes its continuation
    [k] when it answers [x]: a match, and group spans that are still good
    and not fewer, with those of the groups in [must]. *)
Definition hands_over {R : Type} (s : str) (Q : nat -> nat -> nat -> Prop)
    (r : regex) (must : nat -> bool)
    (k : nat -> caps -> option R) (i : nat) (c : caps) (x : R) : Prop :=
  exists j c', Matches s r i j /\ k j c' = Some x
               /\ (caps_all Q c -> caps_all Q c')
               /\ (forall g, must g = true \/ is_Some (c !! g) -> is_Some (c' !! g)).

(** A character of a rebuilt e-mail address: a lower-case letter, a digit,
    or one of [. _ % + - @]. *)
Definition email_out_char (c : ascii) : bool :=
  (email_local_char c || Ascii.eqb c "@") && negb (Char.is_upper c).

(** ** Squeezing runs of a class of characters *)

(** The length of the run of characters of the class [p] that [s] starts
    with. *)
Fixpoint runlen (p : ascii -> bool) (s : str) : nat :=
  match s with
  | c :: t => if p c then S (runlen p t) else 0
  | [] => 0
  end.

(** [s] with every run of [m] or more characters of the class [p] replaced
    by [repl]; [skipping] says that the head of [s] continues a run that was
    replaced. *)
Fixpoint squeeze (p : ascii -> bool) (m : nat) (repl : str) (skipping : bool)
    (s : str) : str :=
  match s with
  | [] => []
  | c :: t =>
      if skipping && p c then squeeze p m repl true t
      else if p c && (m <=? S (runlen p t)) then repl ++ squeeze p m repl true t
      else c :: squeeze p m repl false t
  end.

(** The match of a pattern for runs of [m] or more characters of the class
    [p], tried at position [i]. *)
Definition run_match (p : ascii -> bool) (m : nat) (s : str) (i : nat)
    : option match_obj :=
  if m <=? runlen p (drop i s)
  then Some (Match i (i + runlen p (drop i s)) ∅) else None.

(** No two white-space characters side by side. *)
Fixpoint no_adjacent_space (u : str) : bool :=
  match u with
  | a :: (b :: _) as t =>
      negb (Char.is_space a && Char.is_space b) && no_adjacent_space t
  | _ => true
  end.

(** No white space but the plain space. *)
Definition only_plain_space (u : str) : bool :=
  forallb (fun c => negb (Char.is_space c) || Ascii.eqb c " ") u.

Definition starts_with_space (u : str) : bool :=
  match u with
  | c :: _ => Char.is_space c
  | [] => false
  end.

(** ** The registration annotation, read directly

    The annotation that the cleaning of a name removes, as a pass over the
    text that uses no pattern: [(Co.], [No.] and [:], each followed by an
    optional space, the letters in any case; then the number, one or more
    letters, digits or hyphens; then [)]. *)

(** [t] starts with one character of each of the classes [ps]. *)
Fixpoint has_chars (ps : list (ascii -> bool)) (t : str) : bool :=
  match ps, t with
  | [], _ => true
  | p :: ps', a :: t' => p a && has_chars ps' t'
  | _ :: _, [] => false
  end.

(** The length of the optional space that [t] starts with. *)
Definition space_len (t : str) : nat :=
  match t with
  | c :: _ => if Ascii.eqb " " c then 1 else 0
  | [] => 0
  end.

Definition co_open : list (ascii -> bool) :=
  [Ascii.eqb "("; Char.eqb_ci "C"; Char.eqb_ci "o"; Ascii.eqb "."].

Definition no_dot : list (ascii -> bool) :=
  [Char.eqb_ci "N"; Char.eqb_ci "o"; Ascii.eqb "."].

(** When [t] starts with an annotation: where its number starts in [t],
    and the length of the number. The annotation ends one character after
    the number. *)
Definition annotation_number (t : str) : option (nat * nat) :=
  if has_chars co_open t then
    let o1 := 4 + space_len (drop 4 t) in
    if has_chars no_dot (drop o1 t) then
      let o2 := o1 + 3 + space_len (drop (o1 + 3) t) in
      if has_chars [Ascii.eqb ":"] (drop o2 t) then
        let o3 := o2 + 1 + space_len (drop (o2 + 1) t) in
        let n := runlen co_no_char (drop o3 t) in
        if (1 <=? n) && has_chars [Ascii.eqb ")"] (drop (o3 + n) t)
        then Some (o3, n) else None
      else None
    else None
  else None.

(** [t] without its annotations, read from left to right; [skip] is the
    number of characters of [t] that belong to an annotation met before. *)
Fixpoint without_annotation (skip : nat) (t : str) : str :=
  match t with
  | [] => []
  | c :: t' =>
      match skip with
      | S k => without_annotation k t'
      | 0 =>
          match annotation_number (c :: t') with
          | Some (o, n) => without_annotation (o + n) t'
          | None => c :: without_annotation 0 t'
          end
      end
  end.

(** The cleaned name in the words of the specification: the registration
    annotation removed, the ends stripped, and every run of two or more
    white-space characters made one space. *)
Definition cleaned (joined : str) : str :=
  squeeze Char.is_space 2 (py " ") false (strip (without_annotation 0 joined)).

(** The name that the specification gives to a bold run. *)
Definition run_name (run : list span) : str := cleaned (run_text run).

(** The run gives a header named by its cleaned text, when that name is
    not empty and has at most 120 characters. *)
Definition run_yields_header (pre run post : list span) : Prop :=
  run_name run <> [] -> length (run_name run) <= 120 ->
  run_name run ∈ (extract_headers_from_bold (pre ++ run ++ post)).*1.

(** No opening parenthesis in [t]. *)
Definition no_paren (t : str) : bool :=
  forallb (fun c => negb (Ascii.eqb "(" c)) t.

(** The annotation as the specification writes it, with the number [num]. *)
Definition annotation_of (num : str) : str := py "(Co. No.: " ++ num ++ py ")".
(** * Properties *)

(** ** The matcher is sound for the declarative reading of the patterns *)

Section Soundness.
Variable s : str.
Context {R : Type}.

Lemma star_loop_sound (r : regex)
    (body : (nat -> caps -> option R) -> nat -> caps -> option R) :
  (forall k i c x, body k i c = Some x ->
                   exists j c', Matches s r i j /\ k j c' = Some x) ->
  forall n k i c x,
    star_loop body k n i c = Some x ->
    exists j c', Matches s (Star r) i j /\ k j c' = Some x.
Proof.
  intros Hbody n. induction n as [|n IH]; intros k i c x H; simpl in H.
  - exists i, c. split; [constructor | exact H].
  - destruct (body _ i c) as [y|] eqn:E.
    + injection H as ->.
      apply Hbody in E as (j & c' & Hm & Hk).
      destruct (i <? j); [|discriminate].
      apply IH in Hk as (j' & c'' & Hm' & Hk').
      exists j', c''. split; [econstructor; eassumption | exact Hk'].
    + exists i, c. split; [constructor | exact H].
Qed.

Lemma run_sound (r : regex) :
  forall (k : nat -> caps -> option R) i c x,
    run s r k i c = Some x ->
    exists j c', Matches s r i j /\ k j c' = Some x.
Proof.
  induction r as [|p|r1 IH1 r2 IH2|r1 IH1 r2 IH2|r IH|g r IH|];
    intros k i c x H; simpl in H.
  - exists i, c. split; [constructor | exact H].
  - destruct (s !! i) as [a|] eqn:Ea; [|discriminate].
    destruct (p a) eqn:Ep; [|discriminate].
    exists (S i), c. split; [econstructor; eassumption | exact H].
  - apply IH1 in H as (j & c1 & Hm1 & H).
    apply IH2 in H as (j' & c2 & Hm2 & H).
    exists j', c2. split; [econstructor; eassumption | exact H].
  - destruct (run s r1 k i c) as [y|] eqn:E.
    + injection H as ->. apply IH1 in E as (j & c' & Hm & Hk).
      exists j, c'. split; [apply M_AltL; exact Hm | exact Hk].
    + apply IH2 in H as (j & c' & Hm & Hk).
      exists j, c'. split; [apply M_AltR; exact Hm | exact Hk].
  - eapply star_loop_sound; [|exact H]. intros; eauto.
  - apply IH in H as (j & c' & Hm & Hk).
    exists j, (<[g := (i, j)]> c'). split; [constructor; exact Hm | exact Hk].
  - destruct (at_boundary s i) eqn:E; [|discriminate].
    exists i, c. split; [constructor; exact E | exact H].
Qed.
End Soundness.

Lemma match_at_sound s r i m :
  match_at s r i = Some m -> m_start m = i /\ Matches s r i (m_end m).
Proof.
  unfold match_at. intros H. apply run_sound in H as (j & c & Hm & Hk).
  injection Hk as <-. simpl. auto.
Qed.

Lemma finditer_fuel_sound s r n pos m :
  m ∈ finditer_fuel s r n pos -> Matches s r (m_start m) (m_end m).
Proof.
  revert pos. induction n as [|n IH]; intros pos H; simpl in H.
  - by apply elem_of_nil in H.
  - destruct (match_at s r pos) as [m'|] eqn:E.
    + apply elem_of_cons in H as [->|H].
      * apply match_at_sound in E as [-> E]. exact E.
      * eapply IH, H.
    + eapply IH, H.
Qed.

Lemma finditer_sound s r m :
  m ∈ finditer s r -> Matches s r (m_start m) (m_end m).
Proof. apply finditer_fuel_sound. Qed.

Lemma finditer_none s r : ¬ occurs r s -> finditer s r = [].
Proof.
  intros H. destruct (finditer s r) as [|m ms] eqn:E; [done|].
  exfalso. apply H. exists (m_start m), (m_end m).
  apply finditer_sound. rewrite E. left.
Qed.


(** ** Deduplication *)

Section Dedup.
Context {A : Type} (key : A -> str).

Lemma foldl_dedup_step l : forall seen out,
  (foldl (dedup_step key) (seen, out) l).2 = out ++ keep_first key seen l.
Proof.
  induction l as [|x t IH]; intros seen out; simpl.
  - by rewrite app_nil_r.
  - destruct (decide (key x ∈ seen)); [apply IH|].
    rewrite IH. by rewrite <- app_assoc.
Qed.

Lemma dedup_on_keep_first l : dedup_on key l = keep_first key ∅ l.
Proof. unfold dedup_on. by rewrite foldl_dedup_step. Qed.

Lemma keep_first_fresh l : forall seen x,
  x ∈ keep_first key seen l -> x ∈ l /\ key x ∉ seen.
Proof.
  induction l as [|y t IH]; intros seen x H; simpl in H.
  - by apply elem_of_nil in H.
  - destruct (decide (key y ∈ seen)).
    + apply IH in H as [? ?]. split; [by right | done].
    + apply elem_of_cons in H as [->|H]; [split; [by left | done]|].
      apply IH in H as [? ?]. split; [by right | set_solver].
Qed.

Lemma keep_first_NoDup l : forall seen, NoDup (key <$> keep_first key seen l).
Proof.
  induction l as [|y t IH]; intros seen; simpl; [constructor|].
  destruct (decide (key y ∈ seen)); [apply IH|].
  rewrite fmap_cons. constructor; [|apply IH].
  intros H. apply list_elem_of_fmap in H as (x & Hx & Hin).
  apply keep_first_fresh in Hin as [_ Hin]. set_solver.
Qed.

Lemma keep_first_id l : forall seen,
  NoDup (key <$> l) -> (forall x, x ∈ l -> key x ∉ seen) ->
  keep_first key seen l = l.
Proof.
  induction l as [|y t IH]; intros seen Hnd Hfresh; simpl; [done|].
  rewrite fmap_cons in Hnd. apply NoDup_cons in Hnd as [Hy Hnd].
  destruct (decide (key y ∈ seen)) as [Hin|_].
  - exfalso. eapply Hfresh; [by left | exact Hin].
  - f_equal. apply IH; [exact Hnd|].
    intros x Hx Hin. apply elem_of_union in Hin as [Hin|Hin].
    + apply elem_of_singleton in Hin. apply Hy. rewrite <- Hin.
      apply list_elem_of_fmap. by exists x.
    + eapply Hfresh; [by right | exact Hin].
Qed.

Lemma keep_first_idem l seen :
  keep_first key seen (keep_first key seen l) = keep_first key seen l.
Proof.
  apply keep_first_id; [apply keep_first_NoDup|].
  intros x Hx. by apply keep_first_fresh in Hx as [_ ?].
Qed.

(** A later element whose key was met before changes nothing. *)
Lemma keep_first_drop_dup l1 x l2 : forall seen,
  key x ∈ seen \/ key x ∈ (key <$> l1) ->
  keep_first key seen (l1 ++ x :: l2) = keep_first key seen (l1 ++ l2).
Proof.
  induction l1 as [|y t IH]; intros seen H; simpl.
  - destruct H as [H|H]; [|by apply elem_of_nil in H].
    by destruct (decide (key x ∈ seen)).
  - destruct (decide (key y ∈ seen)).
    + apply IH. destruct H as [H|H]; [by left|].
      rewrite fmap_cons in H. apply elem_of_cons in H as [H|H]; [|by right].
      left. by rewrite H.
    + f_equal. apply IH. destruct H as [H|H]; [left; set_solver|].
      rewrite fmap_cons in H. apply elem_of_cons in H as [H|H]; [|by right].
      left. set_solver.
Qed.

Lemma keep_first_app l1 l2 seen :
  keep_first key seen (l1 ++ l2)
  = keep_first key seen l1 ++ keep_first key (list_to_set (key <$> l1) ∪ seen) l2.
Proof.
  revert seen. induction l1 as [|y t IH]; intros seen; simpl.
  - f_equal. set_solver.
  - destruct (decide (key y ∈ seen)) as [Hin|Hin].
    + rewrite IH. do 2 f_equal. set_solver.
    + simpl. f_equal. rewrite IH. do 2 f_equal. set_solver.
Qed.

End Dedup.

(** C9. Order-preserving deduplication is idempotent: for every list of
    strings, deduplicating the output of [dedup_preserve_order] returns
    that output unchanged. *)
Theorem dedup_preserve_order_idempotent (items : list str) :
  dedup_preserve_order (dedup_preserve_order items) = dedup_preserve_order items.
Proof.
  unfold dedup_preserve_order. rewrite !dedup_on_keep_first.
  apply keep_first_idem.
Qed.

(** The output has no duplicates and keeps the elements of the input. *)
Lemma dedup_preserve_order_NoDup (items : list str) :
  NoDup (dedup_preserve_order items).
Proof.
  unfold dedup_preserve_order. rewrite dedup_on_keep_first.
  rewrite <- (list_fmap_id (keep_first id ∅ items)). apply keep_first_NoDup.
Qed.

(** ** Contact extraction *)

(** C5. On the block text of the specification, a telephone label followed
    by two numbers and, after a line break, an e-mail address broken around
    its at-sign and dot, the contact extractor returns the two phones in
    their order and the rebuilt, lower-cased e-mail; the only text searched
    for phones is what follows the label up to the line break. *)
Theorem sample_block_contacts :
  extract_contacts_from_block sample_block
  = ([py "03-12345678"; py "019-8765432"], [py "some.person@example.com"])
  /\ map (group sample_block 1) (finditer sample_block TEL_LABEL_RE)
     = [Some (py "03-12345678, 019-8765432")].
Proof. split; vm_compute; reflexivity. Qed.

Lemma Matches_Chr s c i j :
  Matches s (Chr c) i j -> s !! i = Some c /\ j = S i.
Proof.
  unfold Chr. intros H. inversion H as [|p i' a Ha Hp| | | | | | |]; subst.
  apply Ascii.eqb_eq in Hp. by subst.
Qed.

(** A telephone label begins with a letter T, in either case. *)
Lemma tel_label_first s i j :
  Matches s TEL_LABEL_RE i j ->
  exists a, s !! i = Some a /\ Char.eqb_ci "T" a = true.
Proof.
  unfold TEL_LABEL_RE, LitI. cbn. intros H.
  inversion H as [| |r1 r2 i1 j1 k1 H1 _| | | | | |]; subst.
  inversion H1 as [| |r1 r2 i1 j2 k1 H2 _| | | | | |]; subst.
  inversion H2 as [|p i' a Ha Hp| | | | | | |]; subst. eauto.
Qed.

Lemma no_t_no_tel_label s :
  forallb (fun a => negb (Char.eqb_ci "T" a)) s = true -> ¬ occurs TEL_LABEL_RE s.
Proof.
  intros Hall (i & j & H). apply tel_label_first in H as (a & Ha & Hci).
  rewrite forallb_forall in Hall.
  assert (In a s) as Hin by (apply list_elem_of_In; eapply list_elem_of_lookup_2, Ha).
  apply Hall in Hin. by rewrite Hci in Hin.
Qed.

(** An e-mail match contains an at-sign. *)
Lemma email_has_at s i j :
  Matches s EMAIL_BREAK_RE i j -> exists p, s !! p = Some "@"%char.
Proof.
  unfold EMAIL_BREAK_RE. cbn. intros H.
  inversion H as [| |r1 r2 i1 j1 k1 _ H1| | | | | |]; subst.
  inversion H1 as [| |r1 r2 i1 j2 k1 _ H2| | | | | |]; subst.
  inversion H2 as [| |r1 r2 i1 j3 k1 H3 _| | | | | |]; subst.
  apply Matches_Chr in H3 as [H3 _]. eauto.
Qed.

Lemma no_at_no_email s :
  forallb (fun a => negb (Ascii.eqb "@" a)) s = true -> ¬ occurs EMAIL_BREAK_RE s.
Proof.
  intros Hall (i & j & H). apply email_has_at in H as (p & Hp).
  rewrite forallb_forall in Hall.
  assert (In "@"%char s) as Hin by (apply list_elem_of_In; eapply list_elem_of_lookup_2, Hp).
  apply Hall in Hin. discriminate.
Qed.

Lemma dedup_preserve_order_nil : dedup_preserve_order [] = [].
Proof. reflexivity. Qed.

Lemma flat_map_all_nil {A B : Type} (f : A -> list B) (l : list A) :
  (forall x, x ∈ l -> f x = []) -> flat_map f l = [].
Proof.
  induction l as [|x t IH]; intros H; simpl; [done|].
  rewrite (H x) by (by left). apply IH. intros y Hy. apply H. by right.
Qed.

(** C6. For every block text in which the telephone-label pattern does not
    occur, phone extraction returns the empty list, whatever phone-shaped
    text the block holds; the same holds when no text after a label has the
    shape of a phone, and the e-mail list is empty when the e-mail pattern
    does not occur. The extractor is a total function: no case fails. *)
Theorem no_match_no_contact (block_text : str) :
  (¬ occurs TEL_LABEL_RE block_text ->
   (extract_contacts_from_block block_text).1 = [])
  /\ ((forall tail, tail ∈ label_tails block_text -> ¬ occurs PHONE_RE tail) ->
      (extract_contacts_from_block block_text).1 = [])
  /\ (¬ occurs EMAIL_BREAK_RE block_text ->
      (extract_contacts_from_block block_text).2 = []).
Proof.
  unfold extract_contacts_from_block, normalize_emails. cbv zeta. simpl.
  repeat split.
  - intros H. by rewrite (finditer_none _ _ H).
  - intros H. rewrite flat_map_all_nil; [done|].
    intros m Hm. rewrite finditer_none; [done|].
    apply H. unfold label_tails. apply list_elem_of_fmap. by exists m.
  - intros H. by rewrite (finditer_none _ _ H).
Qed.

Lemma no_match_no_contact_witness :
  extract_contacts_from_block (py "Reg 03-12345678 / 019-8765432") = ([], []).
Proof.
  pose proof (no_match_no_contact (py "Reg 03-12345678 / 019-8765432"))
    as (Hphones & _ & Hemails).
  rewrite (surjective_pairing (extract_contacts_from_block _)).
  rewrite Hphones, Hemails; [reflexivity | |].
  - apply no_at_no_email. reflexivity.
  - apply no_t_no_tel_label. reflexivity.
Defined.

(** ** Layout flattening *)

Lemma flatten_span_fragment n spans acc s :
  flatten_span n (spans, acc) s
  = match fragment s with
    | Some f => (spans ++ [Span (f.1) (f.2) n], acc ++ [f.1])
    | None => (spans, acc)
    end.
Proof. unfold flatten_span, fragment. by destruct (bool_decide _). Qed.

Lemma foldl_flatten_span n rs : forall spans acc,
  foldl (flatten_span n) (spans, acc) rs
  = (spans ++ ((fun f => Span (f.1) (f.2) n) <$> omap fragment rs),
     acc ++ (omap fragment rs).*1).
Proof.
  induction rs as [|s rs IH]; intros spans acc.
  - simpl. by rewrite !app_nil_r.
  - cbn [foldl]. rewrite flatten_span_fragment.
    change (omap fragment (s :: rs))
      with (match fragment s with
            | Some y => y :: omap fragment rs
            | None => omap fragment rs
            end).
    destruct (fragment s) as [f|]; [|apply IH].
    rewrite IH. simpl. by rewrite <- !app_assoc.
Qed.

Lemma flatten_line_spec spans lines n l :
  flatten_line (spans, lines, n) l
  = (spans ++ line_spans (n + 1) l, lines ++ [line_text l], (n + 1)%Z).
Proof.
  unfold flatten_line. rewrite foldl_flatten_span. reflexivity.
Qed.

Lemma foldl_flatten_line ls : forall spans lines n,
  foldl flatten_line (spans, lines, n) ls
  = (spans ++ page_spans (n + 1) ls, lines ++ (line_text <$> ls),
     (n + Z.of_nat (length ls))%Z).
Proof.
  induction ls as [|l ls IH]; intros spans lines n.
  - simpl. rewrite !app_nil_r. do 2 f_equal. lia.
  - cbn [foldl]. rewrite flatten_line_spec, IH. rewrite <- !app_assoc. simpl.
    f_equal. lia.
Qed.

Lemma page_spans_app ls1 : forall ls2 n,
  page_spans n (ls1 ++ ls2)
  = page_spans n ls1 ++ page_spans (n + Z.of_nat (length ls1)) ls2.
Proof.
  induction ls1 as [|l ls1 IH]; intros ls2 n; simpl.
  - f_equal. lia.
  - rewrite IH, <- app_assoc. do 3 f_equal. lia.
Qed.

Lemma foldl_flatten_block bs : forall spans lines n,
  let ls := text_lines (PageDict (Some bs)) in
  foldl flatten_block (spans, lines, n) bs
  = (spans ++ page_spans (n + 1) ls, lines ++ (line_text <$> ls),
     (n + Z.of_nat (length ls))%Z).
Proof.
  unfold text_lines. simpl.
  induction bs as [|b bs IH]; intros spans lines n.
  - simpl. rewrite !app_nil_r. f_equal. lia.
  - cbn [foldl flat_map]. unfold flatten_block at 2. destruct (bool_decide _).
    + rewrite foldl_flatten_line, IH.
      rewrite page_spans_app, fmap_app, length_app, <- !app_assoc.
      rewrite Nat2Z.inj_add, Z.add_assoc.
      by replace (n + Z.of_nat (length (default [] (rb_lines b))) + 1)%Z
        with (n + 1 + Z.of_nat (length (default [] (rb_lines b))))%Z by lia.
    + apply IH.
Qed.

(** The flattener returns the spans of the text lines numbered from 0, and
    one line text for each text line. *)
Lemma get_flat_spans_with_lines_spec page :
  get_flat_spans_with_lines page
  = (page_spans 0 (text_lines page), line_text <$> text_lines page).
Proof.
  unfold get_flat_spans_with_lines. destruct page as [[bs|]]; simpl.
  - rewrite foldl_flatten_block. reflexivity.
  - reflexivity.
Qed.

Lemma page_spans_elem ls : forall n sp,
  sp ∈ page_spans n ls ->
  exists k l, ls !! k = Some l /\ line_no sp = (n + Z.of_nat k)%Z
              /\ sp ∈ line_spans (n + Z.of_nat k) l.
Proof.
  induction ls as [|l ls IH]; intros n sp H; simpl in H.
  - by apply elem_of_nil in H.
  - apply elem_of_app in H as [H|H].
    + exists 0, l. rewrite Z.add_0_r. repeat split; [|exact H].
      unfold line_spans in H. apply list_elem_of_fmap in H as (f & -> & _).
      reflexivity.
    + apply IH in H as (k & l' & Hk & Hn & Hin).
      exists (S k), l'. replace (n + Z.of_nat (S k))%Z with (n + 1 + Z.of_nat k)%Z by lia.
      auto.
Qed.

Lemma page_spans_sorted ls : forall n, StronglySorted line_le (page_spans n ls).
Proof.
  induction ls as [|l ls IH]; intros n; simpl; [constructor|].
  apply StronglySorted_app_2; [| |apply IH].
  - intros a b Ha Hb. unfold line_spans in Ha.
    apply list_elem_of_fmap in Ha as (f & -> & _).
    apply page_spans_elem in Hb as (k & l' & _ & Hn & _).
    unfold line_le. simpl. lia.
  - unfold line_spans. induction (fragments l) as [|f fs IHf]; simpl; [constructor|].
    constructor; [exact IHf|]. apply Forall_forall. intros b Hb.
    apply list_elem_of_fmap in Hb as (g & -> & _). unfold line_le. simpl. lia.
Qed.

Lemma StronglySorted_lookup {A : Type} (R : relation A) (l : list A) :
  StronglySorted R l ->
  forall i j a b, i < j -> l !! i = Some a -> l !! j = Some b -> R a b.
Proof.
  induction 1 as [|x l Hs IH Hall]; intros i j a b Hij Hi Hj.
  - by rewrite lookup_nil in Hi.
  - destruct j as [|j]; [lia|]. simpl in Hj. destruct i as [|i]; simpl in Hi.
    + injection Hi as <-. rewrite Forall_forall in Hall.
      apply Hall. eapply list_elem_of_lookup_2, Hj.
    + eapply IH; [|exact Hi|exact Hj]. lia.
Qed.

(** C7. For every page layout, the spans of the flattener have non-decreasing
    line numbers in sequence order; there is exactly one line for each
    visual text line of the page, in order, a line whose fragments are all
    empty after whitespace collapse giving an empty text; and the line
    number of a span is the position in the lines of the line it lies on. *)
Theorem flattener_lines_and_spans (page : page_dict) (spans : list span)
    (lines : list str) :
  get_flat_spans_with_lines page = (spans, lines) ->
  (forall i j si sj, i <= j -> spans !! i = Some si -> spans !! j = Some sj ->
                     (line_no si <= line_no sj)%Z)
  /\ lines = line_text <$> text_lines page
  /\ (forall n l, text_lines page !! n = Some l ->
                  Forall (fun s => collapse_ws (default [] (rs_text s)) = [])
                         (default [] (rl_spans l)) ->
                  lines !! n = Some [])
  /\ (forall sp, sp ∈ spans ->
        exists n l, line_no sp = Z.of_nat n /\ text_lines page !! n = Some l
                    /\ lines !! n = Some (line_text l)
                    /\ (text sp, is_bold sp) ∈ fragments l).
Proof.
  rewrite get_flat_spans_with_lines_spec. intros [= <- <-]. repeat split.
  - intros i j si sj Hij Hi Hj.
    destruct (decide (i = j)) as [->|Hne].
    + rewrite Hi in Hj. injection Hj as ->. lia.
    + eapply (StronglySorted_lookup line_le); [apply page_spans_sorted| |exact Hi|exact Hj].
      lia.
  - intros n l Hn Hall. rewrite list_lookup_fmap, Hn. simpl. f_equal.
    unfold line_text, fragments.
    assert (omap fragment (default [] (rl_spans l)) = []) as ->; [|reflexivity].
    induction Hall as [|s ss Hs _ IH]; [reflexivity|].
    simpl. unfold fragment at 1. rewrite Hs. simpl. exact IH.
  - intros sp Hsp. apply page_spans_elem in Hsp as (k & l & Hk & Hn & Hin).
    exists k, l. rewrite Z.add_0_l in Hn, Hin. repeat split; [exact Hn|exact Hk| |].
    + by rewrite list_lookup_fmap, Hk.
    + unfold line_spans in Hin. apply list_elem_of_fmap in Hin as ([t b] & -> & Hf).
      exact Hf.
Qed.

Lemma flattener_lines_and_spans_witness :
  page_lines_of page_with_blank_line = [py "A BHD"; []; py "x"]
  /\ page_lines_of page_with_blank_line !! 1 = Some [].
Proof.
  destruct (flattener_lines_and_spans page_with_blank_line
              (page_spans_of page_with_blank_line)
              (page_lines_of page_with_blank_line))
    as (_ & H2 & H3 & _); [reflexivity|].
  split; [rewrite H2; vm_compute; reflexivity|].
  apply (H3 1 (RawLine (Some [raw_plain "   "]))); [reflexivity|].
  repeat constructor.
Defined.

(** ** Header detection: the flush and the invariant of the scan *)

Lemma flush_spec st :
  buf st <> [] ->
  flush_if_company st
  = HState (results st ++ flush_output (buf st) (last_idx st)) [] None.
Proof.
  intros Hb. unfold flush_if_company, flush_output.
  destruct (buf st) as [|t b] eqn:E; [done|]. cbv zeta.
  destruct (rejected _); [by rewrite app_nil_r|].
  destruct (co_tail_found _ || contains _ _); simpl; [|by rewrite app_nil_r].
  destruct (negb _ && _); [done|by rewrite app_nil_r].
Qed.

Lemma flush_empty st : buf st = [] -> flush_if_company st = st.
Proof. intros E. unfold flush_if_company. by rewrite E. Qed.

Lemma flush_buf st : buf (flush_if_company st) = [].
Proof.
  destruct (decide (buf st = [])) as [E|E].
  - by rewrite flush_empty.
  - by rewrite flush_spec.
Qed.

Lemma flush_output_cases b idx :
  flush_output b idx = []
  \/ flush_output b idx = [(clean_name (strip (join (py " ") b)), idx)].
Proof.
  unfold flush_output. cbv zeta. destruct (rejected _); [by left|].
  destruct (_ && _); [by right|by left].
Qed.

Lemma incr_from_weaken rs lo lo' : lo' <= lo -> incr_from lo rs -> incr_from lo' rs.
Proof.
  destruct rs as [|[n [j|]] t]; simpl; [done| |done].
  intros ? [? ?]. split; [lia|done].
Qed.

Lemma idx_ok_mono spans m m' h : m <= m' -> idx_ok spans m h -> idx_ok spans m' h.
Proof. intros ? (j & sp & ? & ? & ? & ?). exists j, sp. repeat split; [done|lia|done|done]. Qed.

Lemma incr_from_snoc spans rs : forall lo name j,
  incr_from lo rs -> Forall (idx_ok spans j) rs -> lo <= j ->
  incr_from lo (rs ++ [(name, Some j)]).
Proof.
  induction rs as [|[n [k|]] t IH]; intros lo name j Hi Hall Hlo; simpl in *.
  - split; [done|exact I].
  - destruct Hi as [? Hi]. apply Forall_cons in Hall as [(k' & sp & Hk & Hlt & _) Hall].
    simpl in Hk. injection Hk as <-.
    split; [done|]. apply IH; [done|done|lia].
  - done.
Qed.

(** In a strictly increasing list, what follows an element has larger
    indices. *)
Lemma incr_from_later rs : forall lo h,
  incr_from lo rs -> h ∈ rs -> exists k, h.2 = Some k /\ lo <= k.
Proof.
  induction rs as [|[n [j|]] t IH]; intros lo h Hi Hin; simpl in *.
  - by apply elem_of_nil in Hin.
  - destruct Hi as [? Hi]. apply elem_of_cons in Hin as [->|Hin]; [by exists j|].
    destruct (IH _ _ Hi Hin) as (k & ? & ?). exists k. split; [done|lia].
  - done.
Qed.

Lemma incr_from_app l1 : forall lo h l2,
  incr_from lo (l1 ++ h :: l2) -> exists j, h.2 = Some j /\ incr_from (S j) l2.
Proof.
  induction l1 as [|[n [k|]] t IH]; intros lo h l2 Hi; simpl in *.
  - destruct (h.2) as [j|]; [|done]. destruct Hi as [_ Hi]. by exists j.
  - destruct Hi as [_ Hi]. eapply IH, Hi.
  - done.
Qed.

Lemma flush_inv spans n st : scan_inv spans n st -> scan_inv spans n (flush_if_company st).
Proof.
  intros (Hinc & m & Hm & Hall & Hbuf).
  destruct (decide (buf st = [])) as [E|E].
  { rewrite flush_empty by done. split; [done|]. exists m. by repeat split. }
  rewrite flush_spec by done.
  destruct (Hbuf E) as (l & sp & Hl & Hml & Hln & Hsp & Hacc).
  destruct (flush_output_cases (buf st) (last_idx st)) as [->| ->].
  - rewrite app_nil_r. split; [done|]. exists m. by repeat split.
  - rewrite Hl. split; simpl.
    + eapply incr_from_snoc; [done| |lia].
      eapply Forall_impl; [exact Hall|]. intros h. by apply idx_ok_mono.
    + exists (S l). repeat split; [lia| |done].
      apply Forall_app. split.
      * eapply Forall_impl; [exact Hall|]. intros h. apply idx_ok_mono. lia.
      * apply Forall_singleton. exists l, sp. repeat split; [lia|done|done].
Qed.

Lemma scan_step_inv spans n sp st :
  spans !! n = Some sp ->
  scan_inv spans n st -> scan_inv spans (S n) (scan_step n sp st).
Proof.
  intros Hsp Hinv.
  assert (forall st', scan_inv spans n st' -> scan_inv spans (S n) st') as Hup.
  { intros st' (Hinc & m & Hm & Hall & Hbuf). split; [done|].
    exists m. repeat split; [lia|done|].
    intros E. destruct (Hbuf E) as (l & sp' & ? & ? & ? & ? & ?).
    exists l, sp'. repeat split; [done|done|lia|done|done]. }
  unfold scan_step.
  destruct (is_bold sp) eqn:Eb; [|by apply Hup, flush_inv].
  destruct (rejected (text sp)) eqn:Er; [by apply Hup, flush_inv|].
  assert (scan_inv spans (S n)
            (HState (results st) (buf st ++ [text sp]) (Some n))) as Hnew.
  { destruct Hinv as (Hinc & m & Hm & Hall & Hbuf). split; [done|].
    exists m. repeat split; [lia|done|]. simpl. intros _.
    exists n, sp. repeat split; [lia|lia|done|].
    unfold accumulates. by rewrite Eb, Er. }
  destruct (_ || _); [by apply flush_inv|done].
Qed.

Lemma scan_inv_all rest : forall pre st,
  scan_inv (pre ++ rest) (length pre) st ->
  scan_inv (pre ++ rest) (length (pre ++ rest)) (scan (length pre) rest st).
Proof.
  induction rest as [|sp rest IH]; intros pre st Hinv; simpl.
  - by rewrite app_nil_r in *.
  - specialize (IH (pre ++ [sp]) (scan_step (length pre) sp st)).
    rewrite <- app_assoc, length_app in IH. simpl in IH.
    rewrite Nat.add_1_r in IH. apply IH.
    apply scan_step_inv; [|done].
    by rewrite lookup_app_r, Nat.sub_diag.
Qed.

Lemma init_inv spans : scan_inv spans 0 init_state.
Proof. split; [exact I|]. exists 0. repeat split; [done|constructor|done]. Qed.

(** The candidates end at accumulated spans, with increasing indices. *)
Lemma header_candidates_inv spans :
  incr_from 0 (header_candidates spans)
  /\ Forall (idx_ok spans (length spans)) (header_candidates spans).
Proof.
  pose proof (scan_inv_all spans [] init_state (init_inv _)) as H.
  simpl in H. apply flush_inv in H as (Hinc & m & Hm & Hall & _).
  split; [exact Hinc|].
  eapply Forall_impl; [exact Hall|]. intros h. by apply idx_ok_mono.
Qed.

Lemma extract_headers_subset spans h :
  h ∈ extract_headers_from_bold spans -> h ∈ header_candidates spans.
Proof.
  unfold extract_headers_from_bold. rewrite dedup_on_keep_first.
  intros H. by apply keep_first_fresh in H as [? _].
Qed.

Lemma extract_headers_idx_ok spans :
  Forall (idx_ok spans (length spans)) (extract_headers_from_bold spans).
Proof.
  apply Forall_forall. intros h Hh. apply extract_headers_subset in Hh.
  destruct (header_candidates_inv spans) as [_ Hall].
  rewrite Forall_forall in Hall. by apply Hall.
Qed.

(** ** Header detection: the run behind each header *)

Lemma scan_snoc l sp : forall i st,
  scan i (l ++ [sp]) st = scan_step (i + length l) sp (scan i l st).
Proof.
  induction l as [|x l IH]; intros i st; simpl; [by rewrite Nat.add_0_r|].
  rewrite IH. f_equal. lia.
Qed.

Lemma scan_step_skips i sp st :
  accumulates sp = false -> scan_step i sp st = flush_if_company st.
Proof.
  unfold accumulates, scan_step. destruct (is_bold sp); [|done]. simpl.
  intros H. apply negb_false_iff in H. by rewrite H.
Qed.

Lemma scan_step_adds i sp st :
  accumulates sp = true ->
  scan_step i sp st
  = if trigger (buf st ++ [text sp])
    then flush_if_company (HState (results st) (buf st ++ [text sp]) (Some i))
    else HState (results st) (buf st ++ [text sp]) (Some i).
Proof.
  unfold accumulates, scan_step, trigger. intros H.
  apply andb_true_iff in H as [-> H]. apply negb_true_iff in H. rewrite H.
  cbn [buf]. by rewrite last_snoc.
Qed.

Lemma flush_recorded spans n j st :
  j <= n <= length spans ->
  all_recorded spans (results st) ->
  buf st = text <$> take (n - j) (drop j spans) ->
  buf (scan 0 (take j spans) init_state) = [] ->
  Forall (fun sp => accumulates sp = true) (take (n - j) (drop j spans)) ->
  (forall m, j <= m -> S m < n -> trigger (text <$> spans_between spans j m) = false) ->
  (j < n -> last_idx st = Some (n - 1)) ->
  (trigger (buf st) = true
   \/ match spans !! n with
      | Some sp => accumulates sp = false
      | None => True
      end) ->
  all_recorded spans (results (flush_if_company st)).
Proof.
  intros Hn Hres Hbuf Hempty Hacc Hno Hlast Hwhy.
  destruct (decide (buf st = [])) as [E|E]; [by rewrite flush_empty|].
  assert (j < n) as Hjn.
  { destruct (decide (j < n)) as [?|Hge]; [done|]. exfalso. apply E.
    rewrite Hbuf. by replace (n - j) with 0 by lia. }
  rewrite flush_spec by exact E. cbn [results]. apply Forall_app. split; [exact Hres|].
  apply Forall_forall. intros h Hh. exists j, (n - 1).
  assert (flush_output (buf st) (last_idx st) = [h]) as Hout.
  { destruct (flush_output_cases (buf st) (last_idx st)) as [E0|E0];
      rewrite E0 in Hh |- *.
    - by apply elem_of_nil in Hh.
    - by apply list_elem_of_singleton in Hh as ->. }
  rewrite (Hlast Hjn) in Hout.
  assert (spans_between spans j (n - 1) = take (n - j) (drop j spans)) as Hrun.
  { unfold spans_between. f_equal. lia. }
  split.
  { destruct (flush_output_cases (buf st) (Some (n - 1))) as [E0|E0];
      rewrite E0 in Hout; [done|]. by injection Hout as <-. }
  unfold recorded_from_run. rewrite Hrun, <- Hbuf.
  split; [lia|]. split; [exact Hempty|]. split; [exact Hacc|].
  split; [intros m Hm; apply Hno; lia|]. split; [|exact Hout].
  by replace (S (n - 1)) with n by lia.
Qed.

Lemma run_inv_prefix spans n :
  n <= length spans -> run_inv spans n (scan 0 (take n spans) init_state).
Proof.
  induction n as [|n IH]; intros Hn.
  { rewrite take_0. cbn [scan]. split; [constructor|]. exists 0.
    split; [done|]. split; [done|]. split; [done|]. split; [constructor|].
    split; [intros m Hm; lia|intros Hm; lia]. }
  destruct (lookup_lt_is_Some_2 spans n) as [sp Hsp]; [lia|].
  assert (scan 0 (take (S n) spans) init_state
          = scan_step n sp (scan 0 (take n spans) init_state)) as Hstep.
  { rewrite (take_S_r _ _ _ Hsp), scan_snoc. f_equal. rewrite length_take. lia. }
  destruct IH as (Hres & j & Hj & Hbuf & Hempty & Hacc & Hno & Hlast); [lia|].
  set (st := scan 0 (take n spans) init_state) in *.
  assert (forall st', scan 0 (take (S n) spans) init_state = st' ->
            all_recorded spans (results st') -> buf st' = [] ->
            run_inv spans (S n) st') as Hnew.
  { intros st' Hst' Hr Hb. split; [exact Hr|]. exists (S n).
    split; [done|]. split; [by rewrite Nat.sub_diag, take_0|].
    split; [by rewrite Hst'|]. rewrite Nat.sub_diag, take_0.
    split; [constructor|]. split; [intros m Hm; lia|intros Hm; lia]. }
  rewrite Hstep. destruct (accumulates sp) eqn:Ea.
  - assert (take (S n - j) (drop j spans) = take (n - j) (drop j spans) ++ [sp]) as Hext.
    { replace (S n - j) with (S (n - j)) by lia. apply take_S_r.
      rewrite lookup_drop. by replace (j + (n - j)) with n by lia. }
    assert (buf st ++ [text sp] = text <$> take (S n - j) (drop j spans)) as Hbuf'.
    { by rewrite Hext, fmap_app, Hbuf. }
    assert (Forall (fun sp0 => accumulates sp0 = true) (take (S n - j) (drop j spans)))
      as Hacc'.
    { rewrite Hext. apply Forall_app. split; [exact Hacc|]. by apply Forall_singleton. }
    rewrite (scan_step_adds _ _ _ Ea).
    destruct (trigger (buf st ++ [text sp])) eqn:Et.
    + apply Hnew; [by rewrite Hstep, (scan_step_adds _ _ _ Ea), Et| |apply flush_buf].
      apply (flush_recorded spans (S n) j); cbn [results buf last_idx];
        [lia|exact Hres|exact Hbuf'|exact Hempty|exact Hacc'| | |by left].
      * intros m Hm1 Hm2. apply Hno. lia.
      * intros _. f_equal. lia.
    + split; [exact Hres|]. exists j. cbn [buf last_idx].
      split; [lia|]. split; [exact Hbuf'|]. split; [exact Hempty|].
      split; [exact Hacc'|]. split; [|intros _; f_equal; lia].
      intros m Hm. destruct (decide (m = n)) as [->|Hne]; [|apply Hno; lia].
      unfold spans_between. by rewrite <- Hbuf'.
  - rewrite (scan_step_skips _ _ _ Ea).
    apply Hnew; [by rewrite Hstep, (scan_step_skips _ _ _ Ea)| |apply flush_buf].
    apply (flush_recorded spans n j);
      [lia|exact Hres|exact Hbuf|exact Hempty|exact Hacc| |exact Hlast|].
    + intros m Hm1 Hm2. apply Hno. lia.
    + right. by rewrite Hsp.
Qed.

(** Every candidate is recorded by the flush of a run that ends at its
    index. *)
Lemma header_candidates_recorded spans : all_recorded spans (header_candidates spans).
Proof.
  destruct (run_inv_prefix spans (length spans) (Nat.le_refl _))
    as (Hres & j & Hj & Hbuf & Hempty & Hacc & Hno & Hlast).
  rewrite firstn_all in Hres, Hbuf, Hlast. unfold header_candidates.
  apply (flush_recorded spans (length spans) j);
    [lia|exact Hres|exact Hbuf|exact Hempty|exact Hacc| |exact Hlast|].
  - intros m Hm1 Hm2. apply Hno. lia.
  - right. by rewrite lookup_ge_None_2.
Qed.

(** C8. Every header of the detector carries a terminating span index that
    is not null and is a valid index into the spans it was given, the index
    of a bold span that was accumulated. It is the index of the last span
    accumulated before the flush that recorded the header: the header is
    what the flush makes of a run of accumulated spans that begins with an
    empty buffer, ends at that index, and is flushed right after it. So the
    lookups of the block slicer succeed on the headers of the detector,
    whatever the lines. *)
Theorem header_index_valid (spans : list span) :
  Forall (fun h : header =>
            exists i sp, h.2 = Some i /\ spans !! i = Some sp
                         /\ is_bold sp = true /\ rejected (text sp) = false)
         (extract_headers_from_bold spans)
  /\ Forall (fun h : header =>
               exists j i, h.2 = Some i /\ recorded_from_run spans h j i)
            (extract_headers_from_bold spans)
  /\ forall lines,
       is_Some (slice_company_blocks (extract_headers_from_bold spans) spans lines).
Proof.
  pose proof (extract_headers_idx_ok spans) as Hok. split; [|split].
  - eapply Forall_impl; [exact Hok|].
    intros h (i & sp & Hi & _ & Hsp & Hacc). exists i, sp.
    unfold accumulates in Hacc. apply andb_true_iff in Hacc as [? Hr].
    apply negb_true_iff in Hr. done.
  - apply Forall_forall. intros h Hh. apply extract_headers_subset in Hh.
    pose proof (header_candidates_recorded spans) as Hall.
    unfold all_recorded in Hall. rewrite Forall_forall in Hall. by apply Hall.
  - intros lines. unfold slice_company_blocks. apply mapM_is_Some.
    apply Forall_forall. intros [i h] Hih.
    apply list_elem_of_lookup in Hih as (k & Hk).
    apply list_lookup_imap_Some in Hk as (h' & Hh & Heq).
    injection Heq as -> ->. rename k into i.
    assert (forall h0, h0 ∈ extract_headers_from_bold spans ->
                       exists l, line_of spans (h0.2) = Some l /\ exists e, h0.2 = Some e)
      as Hline.
    { intros h0 Hin. rewrite Forall_forall in Hok.
      destruct (Hok h0 Hin) as (j & sp & Hj & _ & Hsp & _).
      exists (line_no sp). split; [|by exists j].
      unfold line_of. rewrite Hj. simpl. by rewrite Hsp. }
    simpl. unfold slice_block, block_bounds.
    destruct (Hline h') as (l & Hl & e & He); [by eapply list_elem_of_lookup_2|].
    rewrite He in *. rewrite Hl. simpl.
    destruct (decide (i + 1 < length (extract_headers_from_bold spans))) as [Hlt|Hge].
    + destruct (lookup_lt_is_Some_2 _ _ Hlt) as [h2 Hh2]. rewrite Hh2. simpl.
      destruct (Hline h2) as (l2 & Hl2 & _); [by eapply list_elem_of_lookup_2|].
      rewrite Hl2. simpl. eauto.
    + simpl. eauto.
Qed.

(** ** Block slicing *)

Section Slicer.
Variables (headers : list header) (spans : list span) (lines : list str).
Variable ls : list Z.
Hypothesis Hls : header_lines spans headers = Some ls.

Lemma header_lines_Forall2 :
  Forall2 (fun (h : header) l => line_of spans (h.2) = Some l) headers ls.
Proof. by apply mapM_Some_1. Qed.

Lemma header_of_line i li :
  ls !! i = Some li ->
  exists name e, headers !! i = Some (name, Some e)
                 /\ line_of spans (Some e) = Some li.
Proof.
  intros Hi. destruct (Forall2_lookup_r _ _ _ _ _ header_lines_Forall2 Hi) as ([name idx] & Hh & Hl).
  simpl in Hl. destruct idx as [e|]; [|done]. by exists name, e.
Qed.

Lemma line_of_header i h :
  headers !! i = Some h ->
  exists li, ls !! i = Some li /\ line_of spans (h.2) = Some li.
Proof. intros Hi. apply (Forall2_lookup_l _ _ _ _ _ header_lines_Forall2 Hi). Qed.

(** The range of block [i]: from the line after its header to the line
    before the next header, or to the last line, and never inverted. *)
Lemma block_range_spec i li :
  ls !! i = Some li ->
  block_range headers spans lines i
  = Some ((li + 1)%Z,
          Z.max (li + 1)
                (match ls !! (i + 1)%nat with
                 | Some lj => lj - 1
                 | None => Z.of_nat (length lines) - 1
                 end)%Z).
Proof.
  intros Hi. destruct (header_of_line _ _ Hi) as (name & e & Hh & Hl).
  unfold block_range. rewrite Hh. simpl. unfold block_bounds. rewrite Hl. simpl.
  pose proof (Forall2_length _ _ _ header_lines_Forall2) as Hlen.
  assert (forall start stop : Z,
            (if (stop <? start)%Z then start else stop) = Z.max start stop) as Hmax.
  { intros start stop. destruct (Z.ltb_spec stop start); lia. }
  destruct (decide (i + 1 < length headers)) as [Hlt|Hge].
  - destruct (lookup_lt_is_Some_2 _ _ Hlt) as [h2 Hh2]. rewrite Hh2. simpl.
    destruct (line_of_header _ _ Hh2) as (lj & Hj & Hlj). rewrite Hlj, Hj. simpl.
    by rewrite Hmax.
  - rewrite (lookup_ge_None_2 ls (i + 1)) by lia. simpl. by rewrite Hmax.
Qed.

Lemma block_range_Some i a b :
  block_range headers spans lines i = Some (a, b) ->
  exists li, ls !! i = Some li /\ a = (li + 1)%Z /\ (a <= b)%Z.
Proof.
  intros H.
  destruct (headers !! i) as [h|] eqn:Hh;
    [|by unfold block_range in H; rewrite Hh in H].
  destruct (line_of_header _ _ Hh) as (li & Hi & _).
  rewrite (block_range_spec _ _ Hi) in H. injection H as <- <-.
  exists li. split; [done|]. split; lia.
Qed.

(** The slicer succeeds, with one block for each header: its name, and
    the text of the lines of its range. *)
Lemma slice_company_blocks_spec :
  exists blocks,
    slice_company_blocks headers spans lines = Some blocks
    /\ blocks.*1 = headers.*1
    /\ forall i h, headers !! i = Some h ->
         exists a b, block_range headers spans lines i = Some (a, b)
                     /\ blocks !! i = Some (h.1, body_of lines a b).
Proof.
  assert (forall i h, headers !! i = Some h ->
            exists a b, block_range headers spans lines i = Some (a, b)
                        /\ slice_block headers spans lines i h
                           = Some (h.1, body_of lines a b)) as Hone.
  { intros i h Hh. destruct (line_of_header _ _ Hh) as (li & Hi & _).
    pose proof (block_range_spec _ _ Hi) as Hr. eexists _, _. split; [exact Hr|].
    unfold block_range in Hr. rewrite Hh in Hr. simpl in Hr.
    unfold slice_block. rewrite Hr. reflexivity. }
  assert (is_Some (slice_company_blocks headers spans lines)) as [blocks Hb].
  { unfold slice_company_blocks. apply mapM_is_Some, Forall_forall.
    intros [i h] Hih. apply list_elem_of_lookup in Hih as (k & Hk).
    apply list_lookup_imap_Some in Hk as (h' & Hh & Heq). injection Heq as -> ->.
    destruct (Hone _ _ Hh) as (a & b & _ & Hs).
    unfold compose. simpl. rewrite Hs. eauto. }
  exists blocks. split; [done|].
  pose proof Hb as HF. unfold slice_company_blocks in HF. apply mapM_Some_1 in HF.
  assert (forall i h, headers !! i = Some h ->
            exists a b, block_range headers spans lines i = Some (a, b)
                        /\ blocks !! i = Some (h.1, body_of lines a b)) as Hlook.
  { intros i h Hh. destruct (Hone _ _ Hh) as (a & b & Hr & Hs).
    exists a, b. split; [done|].
    assert (imap pair headers !! i = Some (i, h)) as Hi
      by (rewrite list_lookup_imap, Hh; done).
    destruct (Forall2_lookup_l _ _ _ _ _ HF Hi) as (y & Hy & Hsy).
    simpl in Hsy. rewrite Hs in Hsy. by injection Hsy as <-. }
  split; [|exact Hlook].
  apply list_eq. intros i. rewrite !list_lookup_fmap.
  destruct (headers !! i) as [h|] eqn:Hh.
  - destruct (Hlook _ _ Hh) as (a & b & _ & ->). reflexivity.
  - apply Forall2_length in HF. rewrite length_imap in HF.
    apply lookup_ge_None_1 in Hh.
    rewrite (lookup_ge_None_2 blocks i) by lia. reflexivity.
Qed.

End Slicer.

Lemma strictly_increasing_lookup ls : forall i j a b,
  strictly_increasing ls = true -> i < j ->
  ls !! i = Some a -> ls !! j = Some b -> (a < b)%Z.
Proof.
  induction ls as [|x t IH]; intros i j a b Hs Hij Hi Hj; [by rewrite lookup_nil in Hi|].
  destruct t as [|y t]; simpl in Hs.
  - destruct j as [|[|j]]; [lia|done|done].
  - apply andb_true_iff in Hs as [Hxy Hs]. apply Z.ltb_lt in Hxy.
    destruct j as [|j]; [lia|]. simpl in Hj.
    destruct i as [|i]; simpl in Hi.
    + injection Hi as <-. destruct j as [|j].
      * simpl in Hj. injection Hj as <-. done.
      * pose proof (IH 0 (S j) y b Hs ltac:(lia) eq_refl Hj). lia.
    + eapply (IH i j); [done|lia|done|done].
Qed.

(** A slice that starts at the end of the list or beyond is empty. *)
Lemma py_slice_past_end {A : Type} (l : list A) (lo hi : Z) :
  (Z.of_nat (length l) <= lo)%Z -> py_slice l lo hi = [].
Proof.
  intros H. unfold py_slice. cbv zeta.
  destruct (Z.ltb_spec lo 0); [lia|].
  rewrite (Z.min_r lo) by lia.
  rewrite drop_ge; [apply take_nil|lia].
Qed.

(** C1, as amended. For headers with valid terminating spans the slicer
    returns exactly one block for each header, in header order, each with
    the non-blank lines of its range. The range of a block starts on the
    line after the line of its header and stops on the line before the line
    of the next header, or on the last line of the page for the last header;
    when that range would be empty it is clamped to the single line after
    the header. When the lines of the headers increase strictly, the ranges
    are pairwise disjoint, each covers every line strictly between the line
    of its header and the line of the next header, and the last one covers
    every line after its header; a block whose next header is on the very
    next line gets that single line. When two consecutive headers end on
    the same line, the line after them belongs to the ranges of both. *)
Theorem slicer_blocks_partition (headers : list header) (spans : list span)
    (lines : list str) (ls : list Z) :
  header_lines spans headers = Some ls ->
  (exists blocks,
      slice_company_blocks headers spans lines = Some blocks
      /\ blocks.*1 = headers.*1
      /\ forall i h, headers !! i = Some h ->
           exists a b, block_range headers spans lines i = Some (a, b)
                       /\ blocks !! i = Some (h.1, body_of lines a b))
  /\ (forall i li, ls !! i = Some li ->
        block_range headers spans lines i
        = Some ((li + 1)%Z,
                Z.max (li + 1)
                      (match ls !! (i + 1)%nat with
                       | Some lj => lj - 1
                       | None => Z.of_nat (length lines) - 1
                       end)%Z))
  /\ (strictly_increasing ls = true ->
      ranges_disjoint headers spans lines
      /\ (forall i li, ls !! i = Some li ->
            exists a b, block_range headers spans lines i = Some (a, b)
              /\ forall l, (li < l)%Z ->
                   (match ls !! (i + 1) with
                    | Some lj => (l < lj)%Z
                    | None => (l < Z.of_nat (length lines))%Z
                    end) ->
                   (a <= l <= b)%Z)
      /\ (forall i li, ls !! i = Some li -> ls !! (i + 1) = Some (li + 1)%Z ->
            block_range headers spans lines i = Some (li + 1, li + 1)%Z))
  /\ (forall i l, ls !! i = Some l -> ls !! (i + 1) = Some l ->
        block_range headers spans lines i = Some (l + 1, l + 1)%Z
        /\ exists d, block_range headers spans lines (i + 1) = Some ((l + 1)%Z, d)
                     /\ (l + 1 <= d)%Z).
Proof.
  intros Hls. split; [by eapply slice_company_blocks_spec|].
  split; [intros i li Hli; by eapply block_range_spec|]. split.
  - intros Hinc. split; [|split].
    + intros i j a b c d Hij Hi Hj.
      destruct (block_range_Some _ _ _ _ Hls _ _ _ Hi) as (li & Hli & _ & _).
      destruct (block_range_Some _ _ _ _ Hls _ _ _ Hj) as (lj & Hlj & -> & _).
      rewrite (block_range_spec _ _ _ _ Hls _ _ Hli) in Hi. injection Hi as <- <-.
      assert (is_Some (ls !! (i + 1))) as [lk Hlk].
      { apply lookup_lt_is_Some_2. apply lookup_lt_Some in Hlj. lia. }
      rewrite Hlk.
      assert (li < lk)%Z
        by (eapply (strictly_increasing_lookup ls i (i + 1)); [done|lia|done|done]).
      assert (lk <= lj)%Z.
      { destruct (decide (i + 1 = j)) as [<-|Hne];
          [rewrite Hlk in Hlj; injection Hlj; lia|].
        assert (lk < lj)%Z; [|lia].
        eapply (strictly_increasing_lookup ls (i + 1) j); [done|lia|done|done]. }
      lia.
    + intros i li Hli. eexists _, _. split; [by eapply block_range_spec|].
      intros l Hl Hnext. destruct (ls !! (i + 1)); lia.
    + intros i li Hli Hnext. rewrite (block_range_spec _ _ _ _ Hls _ _ Hli), Hnext.
      do 2 f_equal. lia.
  - intros i l Hi Hnext. split.
    + rewrite (block_range_spec _ _ _ _ Hls _ _ Hi), Hnext. do 2 f_equal. lia.
    + eexists. split; [by eapply block_range_spec|]. lia.
Qed.

Lemma slicer_blocks_partition_witness :
  page_headers page_two_companies = [(py "A BHD", Some 0); (py "B BHD", Some 2)]
  /\ block_range (page_headers page_two_companies)
                 (page_spans_of page_two_companies)
                 (page_lines_of page_two_companies) 0 = Some (1, 1)%Z
  /\ ranges_disjoint (page_headers page_two_companies)
                     (page_spans_of page_two_companies)
                     (page_lines_of page_two_companies).
Proof.
  split; [vm_compute; reflexivity|].
  destruct (slicer_blocks_partition (page_headers page_two_companies)
              (page_spans_of page_two_companies)
              (page_lines_of page_two_companies) [0; 2]%Z)
    as (_ & H2 & H3 & _); [vm_compute; reflexivity|].
  split; [exact (H2 0 0%Z eq_refl)|].
  apply H3. reflexivity.
Defined.

(** Two headers that end on the same line: the line after them belongs to
    the blocks of both. *)
Lemma same_line_headers_overlap :
  page_headers page_two_names_on_a_line
  = [(py "A BHD", Some 0); (py "B BHD", Some 1)]
  /\ page_blocks page_two_names_on_a_line
     = Some [(py "A BHD", py "x"); (py "B BHD", py "x")]
  /\ ¬ ranges_disjoint (page_headers page_two_names_on_a_line)
                       (page_spans_of page_two_names_on_a_line)
                       (page_lines_of page_two_names_on_a_line).
Proof.
  split; [vm_compute; reflexivity|]. split; [vm_compute; reflexivity|].
  intros H. specialize (H 0 1 1%Z 1%Z 1%Z 1%Z).
  assert (1 < 1)%Z; [|lia].
  apply H; [lia|vm_compute; reflexivity|vm_compute; reflexivity].
Qed.

(** C10. If the terminating span of a header lies on the last line of the
    page, so that its block starts past the last line, the slicer still
    returns a block for that header, with an empty body text: the slice of
    the lines is empty, and no lookup on the lines fails. *)
Theorem block_after_last_line_is_empty (headers : list header)
    (spans : list span) (lines : list str) (ls : list Z) (i : nat) (li : Z) :
  header_lines spans headers = Some ls ->
  ls !! i = Some li ->
  (Z.of_nat (length lines) - 1 <= li)%Z ->
  exists blocks name a b,
    slice_company_blocks headers spans lines = Some blocks
    /\ headers.*1 !! i = Some name
    /\ block_range headers spans lines i = Some (a, b)
    /\ (Z.of_nat (length lines) <= a <= b)%Z
    /\ blocks !! i = Some (name, []).
Proof.
  intros Hls Hli Hlast.
  destruct (slice_company_blocks_spec _ _ lines _ Hls) as (blocks & Hb & _ & Hlook).
  destruct (header_of_line _ _ _ Hls _ _ Hli) as (name & e & Hh & _).
  destruct (Hlook _ _ Hh) as (a & b & Hr & Hbi).
  destruct (block_range_Some _ _ _ _ Hls _ _ _ Hr) as (li' & Hli' & -> & Hab).
  rewrite Hli in Hli'. injection Hli' as <-.
  exists blocks, name, (li + 1)%Z, b. repeat split; [done| |done|lia|lia|].
  - by rewrite list_lookup_fmap, Hh.
  - rewrite Hbi. simpl. unfold body_of. rewrite py_slice_past_end by lia. reflexivity.
Qed.

Lemma block_after_last_line_is_empty_witness :
  exists blocks,
    slice_company_blocks [(py "A BHD", Some 1)]
                         [plain "x" 0; bold "A BHD" 1] [py "x"; py "A BHD"]
    = Some blocks
    /\ blocks !! 0 = Some (py "A BHD", []).
Proof.
  destruct (block_after_last_line_is_empty
              [(py "A BHD", Some 1)] [plain "x" 0; bold "A BHD" 1]
              [py "x"; py "A BHD"] [1%Z] 0 1%Z)
    as (blocks & name & a & b & Hb & Hn & _ & _ & Hi);
    [reflexivity|reflexivity|simpl; lia|].
  exists blocks. split; [exact Hb|].
  simpl in Hn. injection Hn as <-. exact Hi.
Defined.

(** ** Duplicate names *)

Lemma keep_first_skip {A : Type} (key : A -> str) (l1 l2 : list A) : forall seen,
  (forall x, x ∈ l1 -> key x ∈ seen) ->
  keep_first key seen (l1 ++ l2) = keep_first key seen l2.
Proof.
  induction l1 as [|x t IH]; intros seen H; simpl; [done|].
  destruct (decide (key x ∈ seen)) as [_|Hn].
  - apply IH. intros y Hy. apply H. by right.
  - exfalso. apply Hn, H. by left.
Qed.

Lemma keep_first_in_tail {A : Type} (key : A -> str) (l : list A) seen x :
  keep_first key seen l !! 0 = Some x -> x ∈ l.
Proof.
  intros H. apply list_elem_of_lookup_2 in H.
  by apply keep_first_fresh in H as [? _].
Qed.

(** The spans of a page lie on non-decreasing lines of that page. *)
Lemma flat_spans_facts page :
  StronglySorted line_le (page_spans_of page)
  /\ forall sp, sp ∈ page_spans_of page ->
                (0 <= line_no sp < Z.of_nat (length (page_lines_of page)))%Z.
Proof.
  unfold page_spans_of, page_lines_of.
  rewrite get_flat_spans_with_lines_spec. simpl. split; [apply page_spans_sorted|].
  intros sp Hsp. apply page_spans_elem in Hsp as (k & l & Hk & -> & _).
  apply lookup_lt_Some in Hk. rewrite length_fmap. lia.
Qed.

Lemma header_lines_ok spans m hs :
  Forall (idx_ok spans m) hs -> is_Some (header_lines spans hs).
Proof.
  intros H. apply mapM_is_Some. eapply Forall_impl; [exact H|].
  intros h (j & sp & Hj & _ & Hsp & _). unfold compose, line_of.
  rewrite Hj. simpl. rewrite Hsp. simpl. eauto.
Qed.

(** C4, as amended. When the spans of a page yield two header candidates
    with the same cleaned name, the second changes nothing: the headers, and
    so the blocks, are those of the candidates without it; the name is kept
    once, with the index of its first occurrence. When no other new name is
    met between the two, the block of the first covers every line between
    its header and the place of the second. When a new name is met between
    the two, the header of that name comes next and bounds the block of the
    first: its range starts on the line after its own header and stops on
    the line before the line of that header, or is clamped to the single
    line after its own header when that range would be empty. *)
Theorem duplicate_name_changes_nothing (page : page_dict)
    (c1 c2 c3 : list header) (n : str) (i j : nat) :
  header_candidates (page_spans_of page)
  = c1 ++ (n, Some i) :: c2 ++ (n, Some j) :: c3 ->
  n ∉ c1.*1 ->
  page_headers page = dedup_on fst (c1 ++ (n, Some i) :: c2 ++ c3)
  /\ NoDup ((page_headers page).*1)
  /\ ((n, Some i) ∈ page_headers page)
  /\ ((n, Some j) ∉ page_headers page)
  /\ ((forall h, h ∈ c2 -> h.1 ∈ n :: c1.*1) ->
      exists p, page_headers page !! p = Some (n, Some i)
                /\ block_covers_between (page_headers page) (page_spans_of page)
                                        (page_lines_of page) p i j)
  /\ (forall c2a c2b h,
        c2 = c2a ++ h :: c2b ->
        (forall h', h' ∈ c2a -> h'.1 ∈ n :: c1.*1) ->
        h.1 ∉ n :: c1.*1 ->
        exists p li lk,
          page_headers page !! p = Some (n, Some i)
          /\ page_headers page !! (S p) = Some h
          /\ line_of (page_spans_of page) (Some i) = Some li
          /\ line_of (page_spans_of page) (h.2) = Some lk
          /\ block_range (page_headers page) (page_spans_of page)
                         (page_lines_of page) p
             = Some (li + 1, Z.max (li + 1) (lk - 1))%Z).
Proof.
  unfold page_headers.
  set (spans := page_spans_of page). set (lines := page_lines_of page).
  set (headers := extract_headers_from_bold spans). intros Hc Hn.
  destruct (header_candidates_inv spans) as [Hinc Hok]. rewrite Hc in Hinc, Hok.
  assert (i < j) as Hij.
  { apply incr_from_app in Hinc as (i' & Hi' & Hinc).
    simpl in Hi'. injection Hi' as <-.
    destruct (incr_from_later _ _ (n, Some j) Hinc) as (k & Hk' & Hk);
      [apply elem_of_app; right; by left|].
    simpl in Hk'. injection Hk' as <-. lia. }
  assert (headers
          = keep_first fst ∅ c1
            ++ (n, Some i) :: keep_first fst ({[n]} ∪ (list_to_set (c1.*1) ∪ ∅))
                                (c2 ++ (n, Some j) :: c3)) as Hh.
  { unfold headers, extract_headers_from_bold.
    rewrite Hc, dedup_on_keep_first, keep_first_app. f_equal. simpl.
    destruct (decide (n ∈ list_to_set (c1.*1) ∪ ∅)) as [Hin|_]; [|done].
    exfalso. apply Hn. set_solver. }
  assert (headers = dedup_on fst (c1 ++ (n, Some i) :: c2 ++ c3)) as Hsame.
  { unfold headers, extract_headers_from_bold. rewrite Hc, !dedup_on_keep_first.
    replace (c1 ++ (n, Some i) :: c2 ++ (n, Some j) :: c3)
      with ((c1 ++ (n, Some i) :: c2) ++ (n, Some j) :: c3)
      by (by rewrite <- app_assoc).
    replace (c1 ++ (n, Some i) :: c2 ++ c3) with ((c1 ++ (n, Some i) :: c2) ++ c3)
      by (by rewrite <- app_assoc).
    apply (keep_first_drop_dup fst (c1 ++ (n, Some i) :: c2) (n, Some j) c3).
    right. rewrite fmap_app, fmap_cons. apply elem_of_app. right. by left. }
  assert (NoDup headers.*1) as Hnd.
  { unfold headers, extract_headers_from_bold. rewrite dedup_on_keep_first.
    apply keep_first_NoDup. }
  assert ((n, Some i) ∈ headers) as Hin.
  { rewrite Hh. apply elem_of_app. right. by left. }
  set (p := length (keep_first fst ∅ c1)).
  assert (headers !! p = Some (n, Some i)) as Hp.
  { rewrite Hh. rewrite lookup_app_r by (unfold p; lia).
    by replace (p - length (keep_first fst ∅ c1)) with 0 by (unfold p; lia). }
  destruct (header_lines_ok spans (length spans) headers) as [ls Hls];
    [apply extract_headers_idx_ok|].
  destruct (line_of_header _ _ _ Hls _ _ Hp) as (li & Hli & Hlinei).
  assert (forall x : str, x ∈ n :: c1.*1 ->
            x ∈ ({[n]} ∪ (list_to_set (c1.*1) ∪ ∅) : gset str)) as Hseen.
  { intros x Hx. apply elem_of_cons in Hx as [->|Hx]; set_solver. }
  split; [exact Hsame|]. split; [exact Hnd|]. split; [exact Hin|]. split.
  { intros Hj. apply list_elem_of_lookup in Hin as (p' & Hp'), Hj as (q & Hq).
    assert (p' = q) as ->.
    { eapply NoDup_lookup; [exact Hnd| |]; rewrite list_lookup_fmap.
      - by rewrite Hp'. - by rewrite Hq. }
    rewrite Hp' in Hq. injection Hq as ->. lia. }
  split.
  - intros Hc2.
    assert (keep_first fst ({[n]} ∪ (list_to_set (c1.*1) ∪ ∅)) (c2 ++ (n, Some j) :: c3)
            = keep_first fst ({[n]} ∪ (list_to_set (c1.*1) ∪ ∅)) c3) as Hrest.
    { rewrite keep_first_skip.
      - simpl. destruct (decide _) as [_|Hx]; [done|]. exfalso. apply Hx. set_solver.
      - intros h Hh2. by apply Hseen, Hc2. }
    rewrite Hrest in Hh. clear Hrest.
    destruct (flat_spans_facts page) as [Hsorted Hrange].
    fold spans lines in Hsorted, Hrange.
    assert (exists spj, spans !! j = Some spj) as [spj Hspj].
    { rewrite Forall_forall in Hok.
      destruct (Hok (n, Some j)) as (j' & sp & Hj' & _ & Hsp & _).
      - apply elem_of_app. right. right. apply elem_of_app. right. by left.
      - simpl in Hj'. injection Hj' as <-. by eauto. }
    exists p. split; [exact Hp|].
    exists li, (line_no spj), (li + 1)%Z.
    eexists. split; [exact Hlinei|].
    split; [by unfold line_of; simpl; rewrite Hspj|].
    split; [by eapply block_range_spec|]. split; [done|].
    intros l [Hl1 Hl2].
    assert (line_no spj - 1
            <= match ls !! (p + 1)%nat with
               | Some lk => lk - 1
               | None => Z.of_nat (length lines) - 1
               end)%Z; [|lia].
    destruct (ls !! (p + 1)) as [lk|] eqn:Hlk.
    + destruct (header_of_line _ _ _ Hls _ _ Hlk) as (name & e & He & Hle).
      rewrite Hh in He. rewrite lookup_app_r in He by (unfold p; lia).
      replace (p + 1 - length (keep_first fst ∅ c1)) with 1 in He by (unfold p; lia).
      simpl in He. apply keep_first_in_tail in He.
      replace (c1 ++ (n, Some i) :: c2 ++ (n, Some j) :: c3)
        with ((c1 ++ (n, Some i) :: c2) ++ (n, Some j) :: c3) in Hinc
        by (by rewrite <- app_assoc).
      apply incr_from_app in Hinc as (j' & Hj' & Hinc).
      simpl in Hj'. injection Hj' as <-.
      destruct (incr_from_later _ _ _ Hinc He) as (k & Hk' & Hk).
      simpl in Hk'. injection Hk' as <-.
      unfold line_of in Hle. simpl in Hle.
      destruct (spans !! e) as [spe|] eqn:Hspe; [|done]. injection Hle as <-.
      assert (line_le spj spe); [|unfold line_le in *; lia].
      eapply (StronglySorted_lookup line_le spans Hsorted j e); [lia|done|done].
    + assert (line_no spj < Z.of_nat (length lines))%Z; [|lia].
      apply Hrange. eapply list_elem_of_lookup_2, Hspj.
  - intros c2a c2b h -> Hc2a Hnew.
    assert (headers !! S p = Some h) as Hnext.
    { rewrite Hh. rewrite lookup_app_r by (unfold p; lia).
      replace (S p - length (keep_first fst ∅ c1)) with 1 by (unfold p; lia).
      cbn [lookup list_lookup]. rewrite <- app_assoc.
      rewrite keep_first_skip by (intros h' Hh'; by apply Hseen, Hc2a).
      rewrite <- app_comm_cons. cbn [keep_first].
      destruct (decide (h.1 ∈ {[n]} ∪ (list_to_set (c1.*1) ∪ ∅))) as [Hx|_]; [|done].
      exfalso. apply Hnew.
      apply elem_of_union in Hx as [Hx|Hx];
        [apply elem_of_singleton in Hx; rewrite Hx; by left|].
      right. apply elem_of_union in Hx as [Hx|Hx]; [|by apply not_elem_of_empty in Hx].
      by apply elem_of_list_to_set in Hx. }
    destruct (line_of_header _ _ _ Hls _ _ Hnext) as (lk & Hlk & Hlinek).
    exists p, li, lk. split; [exact Hp|]. split; [exact Hnext|].
    split; [exact Hlinei|]. split; [exact Hlinek|].
    rewrite (block_range_spec _ _ _ _ Hls _ _ Hli).
    by replace (p + 1) with (S p) by lia; rewrite Hlk.
Qed.

Lemma duplicate_name_changes_nothing_witness :
  page_headers page_name_repeated = dedup_on fst [(py "A BHD", Some 0)]
  /\ exists p,
       page_headers page_name_repeated !! p = Some (py "A BHD", Some 0)
       /\ block_covers_between (page_headers page_name_repeated)
                               (page_spans_of page_name_repeated)
                               (page_lines_of page_name_repeated) p 0 2.
Proof.
  destruct (duplicate_name_changes_nothing
              page_name_repeated [] [] [] (py "A BHD") 0 2)
    as (H1 & _ & _ & _ & H2 & _); [reflexivity|apply not_elem_of_nil|].
  split; [exact H1|]. apply H2. clear H1 H2.
  intros h Hh. apply elem_of_nil in Hh. destruct Hh.
Defined.

(** With another company between the two occurrences of a name, the block
    of the first occurrence stops before that company and does not reach
    the place of the second occurrence. *)
Lemma repeated_name_block_stops_early :
  header_candidates (page_spans_of page_name_repeated_later)
  = [(py "A BHD", Some 0); (py "B BHD", Some 2); (py "A BHD", Some 4)]
  /\ page_headers page_name_repeated_later
     = [(py "A BHD", Some 0); (py "B BHD", Some 2)]
  /\ page_blocks page_name_repeated_later
     = Some [(py "A BHD", py "x");
             (py "B BHD", py "y" ++ [LF] ++ py "A BHD" ++ [LF] ++ py "z")]
  /\ ¬ block_covers_between (page_headers page_name_repeated_later)
                            (page_spans_of page_name_repeated_later)
                            (page_lines_of page_name_repeated_later) 0 0 4.
Proof.
  split; [vm_compute; reflexivity|]. split; [vm_compute; reflexivity|].
  split; [vm_compute; reflexivity|].
  intros (li & lj & a & b & Hi & Hj & Hr & _ & Hcov).
  vm_compute in Hi, Hj, Hr. injection Hi as <-. injection Hj as <-.
  injection Hr as <- <-. specialize (Hcov 2%Z). lia.
Qed.

(** ** Strings: stripping, joining and searching *)

Lemma lstrip_id c t : Char.is_space c = false -> lstrip (c :: t) = c :: t.
Proof. intros H. simpl. by rewrite H. Qed.

Lemma trimmed_spec t :
  trimmed t = true
  <-> exists c t' d r, t = c :: t' /\ rev t = d :: r
                       /\ Char.is_space c = false /\ Char.is_space d = false.
Proof.
  unfold trimmed. split.
  - destruct t as [|c t']; [done|].
    destruct (rev (c :: t')) as [|d r] eqn:E; [done|]. intros H.
    apply andb_true_iff in H as [Hc Hd]. apply negb_true_iff in Hc, Hd.
    by exists c, t', d, r.
  - intros (c & t' & d & r & -> & E & Hc & Hd). rewrite E. by rewrite Hc, Hd.
Qed.

Lemma trimmed_strip t : trimmed t = true -> strip t = t.
Proof.
  intros H. apply trimmed_spec in H as (c & t' & d & r & -> & E & Hc & Hd).
  unfold strip, rstrip.
  rewrite (lstrip_id _ _ Hc), E, (lstrip_id _ _ Hd), <- E. apply rev_involutive.
Qed.

Lemma trimmed_app a b :
  trimmed a = true -> trimmed b = true -> forall m, trimmed (a ++ m ++ b) = true.
Proof.
  intros Ha Hb m.
  apply trimmed_spec in Ha as (c & a' & _ & _ & -> & _ & Hc & _).
  apply trimmed_spec in Hb as (_ & _ & d & r & _ & E & _ & Hd).
  apply trimmed_spec. exists c, (a' ++ m ++ b), d, ((r ++ rev m) ++ rev (c :: a')).
  repeat split; [|done|done].
  by rewrite !rev_app_distr, E.
Qed.

Lemma trimmed_join ts :
  ts <> [] -> forallb trimmed ts = true -> trimmed (join (py " ") ts) = true.
Proof.
  induction ts as [|t ts IH]; intros Hne Hall; [done|].
  simpl in Hall. apply andb_true_iff in Hall as [Ht Hall].
  destruct ts as [|t2 ts']; [exact Ht|].
  change (join (py " ") (t :: t2 :: ts')) with (t ++ py " " ++ join (py " ") (t2 :: ts')).
  apply trimmed_app; [exact Ht|]. by apply IH.
Qed.

Lemma contains_cons p c s :
  contains p (c :: s) = startswith p (c :: s) || contains p s.
Proof. reflexivity. Qed.

Lemma contains_app_l p a s : contains p s = true -> contains p (a ++ s) = true.
Proof.
  intros H. induction a as [|c a IH]; [done|].
  rewrite <- app_comm_cons, contains_cons, IH. apply orb_true_r.
Qed.

Lemma startswith_app p : forall s a,
  startswith p s = true -> startswith p (s ++ a) = true.
Proof.
  induction p as [|c p IH]; intros s a H; [done|].
  destruct s as [|d s]; [done|]. simpl in *.
  apply andb_true_iff in H as [-> H]. simpl. by apply IH.
Qed.

Lemma contains_app_r p s a : contains p s = true -> contains p (s ++ a) = true.
Proof.
  induction s as [|c s IH]; intros H.
  - simpl in H. rewrite orb_false_r in H. destruct p; [|done]. by destruct a.
  - rewrite <- app_comm_cons, contains_cons. rewrite contains_cons in H.
    apply orb_true_iff in H as [H|H].
    + rewrite app_comm_cons, (startswith_app p (c :: s) a H). done.
    + rewrite (IH H). apply orb_true_r.
Qed.

Lemma contains_join_last p sep ts :
  contains p (default [] (last ts)) = true -> ts <> [] ->
  contains p (join sep ts) = true.
Proof.
  induction ts as [|t ts IH]; intros H Hne; [done|].
  destruct ts as [|t2 ts']; [exact H|].
  change (join sep (t :: t2 :: ts')) with (t ++ sep ++ join sep (t2 :: ts')).
  apply contains_app_l, contains_app_l, IH; [|done].
  by rewrite last_cons_cons in H.
Qed.

(** ** Header detection: composing scans *)

Lemma scan_app a : forall b i st,
  scan i (a ++ b) st = scan (i + length a) b (scan i a st).
Proof.
  induction a as [|sp a IH]; intros b i st; simpl.
  - by rewrite Nat.add_0_r.
  - rewrite IH. f_equal. lia.
Qed.

Lemma flush_same_but R st st' :
  same_but R st st' -> same_but R (flush_if_company st) (flush_if_company st').
Proof.
  intros (Hr & Hb & Hl).
  destruct (decide (buf st = [])) as [E|E].
  - rewrite !flush_empty by congruence. by repeat split.
  - rewrite !flush_spec by congruence. rewrite <- Hb, <- (Hl E), Hr.
    split; [|by split]. simpl. by rewrite app_assoc.
Qed.

Lemma scan_step_same_but R i sp st st' :
  same_but R st st' -> same_but R (scan_step i sp st) (scan_step i sp st').
Proof.
  intros H. pose proof H as (Hr & Hb & Hl). unfold scan_step.
  destruct (is_bold sp); [|by apply flush_same_but].
  destruct (rejected (text sp)); [by apply flush_same_but|].
  assert (same_but R (HState (results st) (buf st ++ [text sp]) (Some i))
                     (HState (results st') (buf st' ++ [text sp]) (Some i))) as Hnew.
  { split; [exact Hr|]. split; [simpl; by rewrite Hb|reflexivity]. }
  simpl. rewrite <- Hb in Hnew |- *.
  destruct (_ || _); [by apply flush_same_but|exact Hnew].
Qed.

Lemma scan_same_but R l : forall i st st',
  same_but R st st' -> same_but R (scan i l st) (scan i l st').
Proof.
  induction l as [|sp l IH]; intros i st st' H; simpl; [done|].
  by apply IH, scan_step_same_but.
Qed.

(** After a state with an empty buffer, the rest of the spans give what
    they give on their own, numbered from their position. *)
Lemma candidates_after_flush st i rest :
  buf st = [] ->
  results (flush_if_company (scan i rest st)) = results st ++ candidates_from i rest.
Proof.
  intros Hb. unfold candidates_from.
  assert (same_but (results st) st init_state) as H.
  { split; [simpl; by rewrite app_nil_r|]. split; [exact Hb|]. intros E. by destruct E. }
  apply (scan_same_but _ rest i), flush_same_but in H. by destruct H as (-> & _).
Qed.

Lemma header_candidates_split pre rest :
  buf (scan 0 pre init_state) = [] ->
  header_candidates (pre ++ rest)
  = header_candidates pre ++ candidates_from (length pre) rest.
Proof.
  intros Hb. unfold header_candidates. rewrite scan_app. simpl.
  rewrite candidates_after_flush by done. by rewrite (flush_empty _ Hb).
Qed.

(** A run that passes the flush test at its end, and not before, is
    flushed as a whole when its last span is added. *)
Lemma scan_run run : forall b i st,
  buf st = b ->
  forallb accumulates run = true ->
  flushes_at_end b (text <$> run) = true ->
  scan i run st
  = flush_if_company
      (HState (results st) (b ++ (text <$> run)) (Some (i + length run - 1))).
Proof.
  induction run as [|sp run IH]; intros b i st Hb Hacc Hfl; [done|].
  simpl in Hacc. apply andb_true_iff in Hacc as [Hsp Hacc].
  unfold accumulates in Hsp. apply andb_true_iff in Hsp as [Hbold Hrej].
  apply negb_true_iff in Hrej.
  cbn [scan]. unfold scan_step. rewrite Hbold, Hrej. cbn [buf results].
  change (co_tail_found (join (py " ") (buf st ++ [text sp]))
          || contains (py "(Co. No.") (text sp))
    with (co_tail_found (join (py " ") (buf st ++ [text sp]))
          || contains (py "(Co. No.") (default [] (Some (text sp)))).
  rewrite <- (last_snoc (text sp) (buf st)). fold (trigger (buf st ++ [text sp])).
  rewrite Hb. destruct run as [|sp2 run'].
  - simpl in Hfl. rewrite Hfl. simpl. do 3 f_equal. lia.
  - change (flushes_at_end b (text <$> sp :: sp2 :: run'))
      with (negb (trigger (b ++ [text sp]))
            && flushes_at_end (b ++ [text sp]) (text <$> sp2 :: run')) in Hfl.
    apply andb_true_iff in Hfl as [Hno Hfl]. apply negb_true_iff in Hno.
    rewrite Hno. rewrite (IH (b ++ [text sp]) (S i)); [|done|done|done].
    cbn [results]. rewrite <- app_assoc. do 3 f_equal. simpl. lia.
Qed.

Lemma keep_first_keys {A : Type} (key : A -> str) (l : list A) : forall seen x,
  x ∈ l -> key x ∈ seen \/ key x ∈ key <$> keep_first key seen l.
Proof.
  induction l as [|y t IH]; intros seen x Hx; [by apply elem_of_nil in Hx|].
  simpl. apply elem_of_cons in Hx as [->|Hx].
  - destruct (decide (key y ∈ seen)); [by left|]. right. rewrite fmap_cons. by left.
  - destruct (decide (key y ∈ seen)); [by apply IH|].
    destruct (IH ({[key y]} ∪ seen) x Hx) as [H|H].
    + apply elem_of_union in H as [H|H]; [|by left].
      apply elem_of_singleton in H. right. rewrite fmap_cons, H. by left.
    + right. rewrite fmap_cons. by right.
Qed.

(** Every candidate name is the name of a header. *)
Lemma candidate_name_kept spans h :
  h ∈ header_candidates spans -> h.1 ∈ (extract_headers_from_bold spans).*1.
Proof.
  intros H. unfold extract_headers_from_bold. rewrite dedup_on_keep_first.
  destruct (keep_first_keys fst _ ∅ h H) as [Hin|Hin]; [|done].
  by apply not_elem_of_empty in Hin.
Qed.

(** What the flush of a trimmed run that passed the flush test adds. *)
Lemma flush_output_run ts idx :
  forallb trimmed ts = true -> ts <> [] -> trigger ts = true ->
  flush_output ts idx
  = let joined := join (py " ") ts in
    let clean := clean_name joined in
    if rejected joined then []
    else if negb (bool_decide (clean = [])) && (length clean <=? 120)
         then [(clean, idx)] else [].
Proof.
  intros Htr Hne Htg. unfold flush_output. cbv zeta.
  rewrite (trimmed_strip _ (trimmed_join _ Hne Htr)).
  destruct (rejected _); [done|].
  assert (co_tail_found (join (py " ") ts)
          || contains (py "(Co. No.") (join (py " ") ts) = true) as ->; [|done].
  unfold trigger in Htg. apply orb_true_iff in Htg as [H|H].
  - by rewrite H.
  - rewrite (contains_join_last _ _ _ H Hne). apply orb_true_r.
Qed.

Lemma flushes_at_end_trigger ts : forall b,
  flushes_at_end b ts = true -> ts <> [] /\ trigger (b ++ ts) = true.
Proof.
  induction ts as [|t ts IH]; intros b H; [done|]. split; [done|].
  destruct ts as [|t2 ts']; [exact H|].
  change (flushes_at_end b (t :: t2 :: ts'))
    with (negb (trigger (b ++ [t])) && flushes_at_end (b ++ [t]) (t2 :: ts')) in H.
  apply andb_true_iff in H as [_ H]. apply IH in H as [_ H].
  by rewrite <- app_assoc in H.
Qed.

Lemma forallb_run_split run :
  forallb (fun sp => accumulates sp && trimmed (text sp)) run = true ->
  forallb accumulates run = true /\ forallb trimmed (text <$> run) = true.
Proof.
  induction run as [|sp run IH]; [done|]. intros H.
  rewrite fmap_cons. cbn [forallb] in *.
  apply andb_true_iff in H as [Hsp H]. apply andb_true_iff in Hsp as [Ha Ht].
  destruct (IH H) as [IH1 IH2]. rewrite Ha, Ht, IH1, IH2. by split.
Qed.






(** ** The texts of the flattener are trimmed *)

Lemma lstrip_head s : lstrip s = [] \/ exists c t, lstrip s = c :: t /\ Char.is_space c = false.
Proof.
  induction s as [|c s IH]; [by left|]. simpl.
  destruct (Char.is_space c) eqn:E; [exact IH|]. right. by exists c, s.
Qed.

Lemma lstrip_snoc s c : Char.is_space c = false -> lstrip (s ++ [c]) = lstrip s ++ [c].
Proof.
  intros Hc. induction s as [|d s IH]; simpl; [by rewrite Hc|].
  by destruct (Char.is_space d).
Qed.

Lemma strip_trimmed s : strip s <> [] -> trimmed (strip s) = true.
Proof.
  unfold strip, rstrip. intros Hne.
  destruct (lstrip_head s) as [E|(c & t & E & Hc)]; rewrite E in *; [done|].
  change (rev (c :: t)) with (rev t ++ [c]) in *.
  rewrite (lstrip_snoc _ _ Hc), rev_app_distr in *.
  change (rev [c] ++ rev (lstrip (rev t))) with (c :: rev (lstrip (rev t))) in *.
  apply trimmed_spec.
  destruct (lstrip_head (rev t)) as [E'|(d & t' & E' & Hd)].
  - exists c, (rev (lstrip (rev t))), c, []. by rewrite E'.
  - exists c, (rev (lstrip (rev t))), d, (t' ++ [c]).
    split; [done|]. split; [|done].
    change (rev (c :: rev (lstrip (rev t)))) with (rev (rev (lstrip (rev t))) ++ [c]).
    by rewrite rev_involutive, E'.
Qed.

(** Every span of a page has a trimmed text, as the detection of bold runs
    assumes. *)
Lemma flat_spans_trimmed page sp :
  sp ∈ page_spans_of page -> trimmed (text sp) = true.
Proof.
  unfold page_spans_of. rewrite get_flat_spans_with_lines_spec. simpl.
  intros H. apply page_spans_elem in H as (k & l & _ & _ & Hin).
  unfold line_spans in Hin. apply list_elem_of_fmap in Hin as ([t b] & -> & Hf).
  simpl. unfold fragments in Hf. apply list_elem_of_omap in Hf as (rs & _ & Hf).
  unfold fragment in Hf. destruct (bool_decide _) eqn:E; [done|].
  injection Hf as <- _. apply bool_decide_eq_false in E.
  unfold collapse_ws in *. by apply strip_trimmed.
Qed.

(** * Further properties of the code *)

(** ** Deduplication keeps first occurrences *)

Lemma keep_first_sublist {A : Type} (key : A -> str) (l : list A) : forall seen,
  keep_first key seen l `sublist_of` l.
Proof.
  induction l as [|x t IH]; intros seen; simpl; [constructor|].
  destruct (decide (key x ∈ seen)); [apply sublist_cons|apply sublist_skip]; apply IH.
Qed.

Lemma keep_first_seen_ext {A : Type} (key : A -> str) (l : list A) s1 s2 :
  s1 = s2 -> keep_first key s1 l = keep_first key s2 l.
Proof. by intros ->. Qed.

Lemma union_absorb_elem (x : str) (s1 s2 : gset str) :
  x ∈ s1 -> s1 ∪ ({[x]} ∪ s2) = s1 ∪ s2.
Proof.
  intros Hx. apply set_eq. intros y.
  rewrite !elem_of_union, elem_of_singleton. split; [|tauto].
  intros [?|[->|?]]; tauto.
Qed.

Lemma union_move_elem (x : str) (s1 s2 : gset str) :
  ({[x]} ∪ s1) ∪ ({[x]} ∪ s2) = {[x]} ∪ (s1 ∪ s2).
Proof.
  apply set_eq. intros y. rewrite !elem_of_union, elem_of_singleton. tauto.
Qed.

Lemma keep_first_twice {A : Type} (key : A -> str) (l : list A) : forall s1 s2,
  keep_first key s1 (keep_first key s2 l) = keep_first key (s1 ∪ s2) l.
Proof.
  induction l as [|x t IH]; intros s1 s2; simpl; [done|].
  destruct (decide (key x ∈ s2)) as [H2|H2].
  - rewrite IH. destruct (decide (key x ∈ s1 ∪ s2)) as [_|Hn]; [done|].
    exfalso. apply Hn, elem_of_union. by right.
  - simpl. destruct (decide (key x ∈ s1)) as [H1|H1].
    + rewrite IH. destruct (decide (key x ∈ s1 ∪ s2)) as [_|Hn].
      * apply keep_first_seen_ext. by apply union_absorb_elem.
      * exfalso. apply Hn, elem_of_union. by left.
    + rewrite IH. destruct (decide (key x ∈ s1 ∪ s2)) as [Hin|_].
      * exfalso. apply elem_of_union in Hin. tauto.
      * f_equal. apply keep_first_seen_ext, union_move_elem.
Qed.

Lemma list_to_set_keep_first {A : Type} (key : A -> str) (l : list A) : forall seen,
  list_to_set (key <$> keep_first key seen l) ∪ seen
  =@{gset str} list_to_set (key <$> l) ∪ seen.
Proof.
  induction l as [|x t IH]; intros seen; [done|].
  cbn [keep_first]. destruct (decide (key x ∈ seen)) as [Hin|Hin].
  - rewrite IH, fmap_cons, list_to_set_cons. apply set_eq. intros y.
    rewrite !elem_of_union, elem_of_singleton. split; [tauto|].
    intros [[->|?]|?]; tauto.
  - rewrite !fmap_cons, !list_to_set_cons. specialize (IH ({[key x]} ∪ seen)).
    apply set_eq. intros y. pose proof (proj1 (set_eq _ _) IH y) as IHy.
    rewrite !elem_of_union, !elem_of_singleton in IHy.
    rewrite !elem_of_union, !elem_of_singleton. clear IH Hin.
    destruct IHy as [IH1 IH2]. split.
    + intros [[Hy|Hy]|Hy]; [by left; left| |by right].
      destruct IH1 as [?|[?|?]]; [by left|by left; right|by left; left|by right].
    + intros [[Hy|Hy]|Hy]; [by left; left| |by right].
      destruct IH2 as [?|[?|?]]; [by left|by left; right|by left; left|by right].
Qed.

Lemma dedup_preserve_order_elem (items : list str) x :
  x ∈ dedup_preserve_order items <-> x ∈ items.
Proof.
  unfold dedup_preserve_order. rewrite dedup_on_keep_first. split.
  - intros H. by apply keep_first_fresh in H as [? _].
  - intros H. destruct (keep_first_keys id items ∅ x H) as [Hin|Hin].
    + by apply not_elem_of_empty in Hin.
    + by rewrite list_fmap_id in Hin.
Qed.

Lemma keep_first_filter_seen (l : list str) : forall seen x,
  x ∈ seen ->
  filter (fun y => y <> x) (keep_first id seen l) = keep_first id seen l.
Proof.
  induction l as [|y t IH]; intros seen x Hx; [done|]. cbn [keep_first].
  destruct (decide (id y ∈ seen)) as [Hy|Hy]; [by apply IH|].
  rewrite filter_cons_True by (intros ->; done). f_equal.
  apply IH, elem_of_union. by right.
Qed.

Lemma keep_first_filter (l : list str) : forall seen x,
  keep_first id ({[x]} ∪ seen) l = filter (fun y => y <> x) (keep_first id seen l).
Proof.
  induction l as [|y t IH]; intros seen x; [done|]. cbn [keep_first].
  destruct (decide (id y ∈ seen)) as [Hy|Hy].
  - destruct (decide (id y ∈ {[x]} ∪ seen)) as [_|Hn]; [apply IH|].
    exfalso. apply Hn, elem_of_union. by right.
  - destruct (decide (y = x)) as [->|Hne].
    + destruct (decide (id x ∈ {[x]} ∪ seen)) as [_|Hn];
        [|exfalso; apply Hn, elem_of_union; left; by apply elem_of_singleton].
      rewrite filter_cons_False by (intros H; by apply H).
      symmetry. apply keep_first_filter_seen, elem_of_union. left.
      by apply elem_of_singleton.
    + destruct (decide (id y ∈ {[x]} ∪ seen)) as [Hin|_].
      * exfalso. apply elem_of_union in Hin as [Hin|Hin]; [|done].
        by apply elem_of_singleton in Hin.
      * rewrite filter_cons_True by done. f_equal. rewrite <- IH.
        apply keep_first_seen_ext. apply set_eq. intros z.
        rewrite !elem_of_union, !elem_of_singleton. tauto.
Qed.

(** X1. The output of the deduplication has no duplicates, has the
    elements of the input, and keeps them in the order of the input, each
    at its first occurrence: the head of the input stays at the head, and
    the rest is the deduplicated tail without the later copies of the
    head. *)
Theorem dedup_preserve_order_first_occurrences (items : list str) :
  NoDup (dedup_preserve_order items)
  /\ (forall x, x ∈ dedup_preserve_order items <-> x ∈ items)
  /\ dedup_preserve_order items `sublist_of` items
  /\ (forall x, dedup_preserve_order (x :: items)
                = x :: filter (fun y => y <> x) (dedup_preserve_order items)).
Proof.
  split; [apply dedup_preserve_order_NoDup|].
  split; [apply dedup_preserve_order_elem|].
  unfold dedup_preserve_order. rewrite dedup_on_keep_first. split.
  - apply keep_first_sublist.
  - intros x. rewrite dedup_on_keep_first. cbn [keep_first].
    destruct (decide (id x ∈ (∅ : gset str))) as [Hin|_];
      [by apply not_elem_of_empty in Hin|].
    f_equal. apply keep_first_filter.
Qed.

Lemma list_to_set_keep_first_empty {A : Type} (key : A -> str) (l : list A) :
  list_to_set (key <$> keep_first key ∅ l) =@{gset str} list_to_set (key <$> l).
Proof.
  pose proof (list_to_set_keep_first key l ∅) as H.
  by rewrite !(right_id_L ∅ (∪)) in H.
Qed.

Lemma keep_first_concat_deduped (ls : list (list str)) : forall seen,
  keep_first id seen (concat (keep_first id ∅ <$> ls))
  = keep_first id seen (concat ls).
Proof.
  induction ls as [|a ls IH]; intros seen; [done|].
  rewrite fmap_cons. cbn [concat]. rewrite !keep_first_app.
  rewrite keep_first_twice, (right_id_L ∅ (∪)), list_to_set_keep_first_empty.
  by rewrite IH.
Qed.

(** X2. Deduplicating lists that were each deduplicated, put end to end, gives
    what deduplicating the original lists put end to end gives: the roll-up
    of a page loses nothing by working on the lists of the records. *)
Theorem dedup_of_deduped_lists (ls : list (list str)) :
  dedup_preserve_order (concat (dedup_preserve_order <$> ls))
  = dedup_preserve_order (concat ls).
Proof.
  unfold dedup_preserve_order. rewrite !dedup_on_keep_first.
  rewrite <- (keep_first_concat_deduped ls ∅). do 2 f_equal.
  apply list_fmap_ext. intros i x _. apply dedup_on_keep_first.
Qed.

(** ** Headers: names, order, and what ends a run *)

Lemma flush_output_name_ok b idx h : h ∈ flush_output b idx -> name_ok h.
Proof.
  unfold flush_output. cbv zeta. destruct (rejected _); [by intros ?%elem_of_nil|].
  destruct (_ || _); [|by intros ?%elem_of_nil]. simpl.
  destruct (negb _ && _) eqn:E; [|by intros ?%elem_of_nil].
  intros ->%list_elem_of_singleton. apply andb_true_iff in E as [E1 E2].
  apply negb_true_iff, bool_decide_eq_false in E1. apply Nat.leb_le in E2.
  by split.
Qed.

Lemma flush_results_Forall (P : header -> Prop) st :
  (forall b idx h, h ∈ flush_output b idx -> P h) ->
  Forall P (results st) -> Forall P (results (flush_if_company st)).
Proof.
  intros HP Hst. destruct (decide (buf st = [])) as [E|E].
  - by rewrite flush_empty.
  - rewrite flush_spec by exact E. cbn [results]. apply Forall_app. split; [exact Hst|].
    apply Forall_forall. intros h. apply HP.
Qed.

Lemma scan_results_Forall (P : header -> Prop) spans : forall i st,
  (forall b idx h, h ∈ flush_output b idx -> P h) ->
  Forall P (results st) -> Forall P (results (scan i spans st)).
Proof.
  induction spans as [|sp spans IH]; intros i st HP Hst; [exact Hst|].
  cbn [scan]. apply IH; [exact HP|]. unfold scan_step.
  destruct (is_bold sp); [|by apply flush_results_Forall].
  destruct (rejected (text sp)); [by apply flush_results_Forall|].
  destruct (_ || _); [by apply flush_results_Forall|exact Hst].
Qed.

Lemma keep_first_incr {A : Type} (key : header -> str) (l : list header) :
  forall seen lo, incr_from lo l -> incr_from lo (keep_first key seen l).
Proof.
  induction l as [|[n [j|]] t IH]; intros seen lo H; simpl in *; [done| |done].
  destruct H as [Hlo H]. destruct (decide (key (n, Some j) ∈ seen)).
  - apply (incr_from_weaken _ (S j)); [lia|]. by apply IH.
  - simpl. split; [exact Hlo|]. by apply IH.
Qed.

Lemma incr_from_lookup l : forall lo p q hp hq,
  incr_from lo l -> p < q -> l !! p = Some hp -> l !! q = Some hq ->
  exists i j, hp.2 = Some i /\ hq.2 = Some j /\ i < j.
Proof.
  induction l as [|[n [k|]] t IH]; intros lo p q hp hq H Hpq Hp Hq; simpl in H;
    [by rewrite lookup_nil in Hp| |done].
  destruct H as [_ H]. destruct q as [|q]; [lia|]. simpl in Hq.
  destruct p as [|p]; simpl in Hp.
  - injection Hp as <-. apply list_elem_of_lookup_2 in Hq.
    destruct (incr_from_later _ _ _ H Hq) as (j & Hj & Hlt).
    exists k, j. repeat split; [done|lia].
  - eapply (IH (S k) p q); [exact H|lia|exact Hp|exact Hq].
Qed.

Lemma extract_headers_NoDup spans : NoDup ((extract_headers_from_bold spans).*1).
Proof.
  unfold extract_headers_from_bold. rewrite dedup_on_keep_first.
  apply keep_first_NoDup.
Qed.

(** X3. The headers of any span sequence have distinct names, each not empty
    and of 120 characters at most, and their terminating indices increase
    strictly along the list. *)
Theorem headers_unique_and_ordered (spans : list span) :
  NoDup ((extract_headers_from_bold spans).*1)
  /\ Forall name_ok (extract_headers_from_bold spans)
  /\ (forall p q hp hq, p < q ->
        extract_headers_from_bold spans !! p = Some hp ->
        extract_headers_from_bold spans !! q = Some hq ->
        exists i j, hp.2 = Some i /\ hq.2 = Some j /\ i < j).
Proof.
  split; [|split].
  - apply extract_headers_NoDup.
  - apply Forall_forall. intros h Hh. apply extract_headers_subset in Hh.
    assert (Forall name_ok (header_candidates spans)) as Hall.
    { unfold header_candidates. apply flush_results_Forall; [apply flush_output_name_ok|].
      apply scan_results_Forall; [apply flush_output_name_ok|constructor]. }
    rewrite Forall_forall in Hall. by apply Hall.
  - intros p q hp hq Hpq Hp Hq.
    destruct (header_candidates_inv spans) as [Hinc _].
    unfold extract_headers_from_bold in Hp, Hq. rewrite dedup_on_keep_first in Hp, Hq.
    eapply incr_from_lookup; [|exact Hpq|exact Hp|exact Hq].
    apply (keep_first_incr (A:=header)), Hinc.
Qed.

Lemma headers_unique_and_ordered_witness :
  exists i j, (py "A BHD", Some 0).2 = Some i /\ (py "B BHD", Some 2).2 = Some j /\ i < j.
Proof.
  destruct (headers_unique_and_ordered (page_spans_of page_two_companies))
    as (_ & _ & H).
  apply (H 0 1); [lia|vm_compute; reflexivity|vm_compute; reflexivity].
Defined.

Lemma scan_nothing_accumulates spans : forall i st,
  buf st = [] ->
  Forall (fun sp => accumulates sp = false) spans ->
  scan i spans st = st.
Proof.
  induction spans as [|sp spans IH]; intros i st Hb Hall; [done|].
  apply Forall_cons in Hall as [Hsp Hall]. cbn [scan].
  assert (scan_step i sp st = st) as ->; [|by apply IH].
  unfold scan_step, accumulates in *.
  destruct (is_bold sp); [|by apply flush_empty].
  simpl in Hsp. apply negb_false_iff in Hsp. rewrite Hsp. by apply flush_empty.
Qed.

(** X5. When no span is accumulated, because none is bold or the bold ones
    start with a rejection prefix, there is no header and no block, whatever
    the lines. *)
Theorem nothing_bold_nothing_found (spans : list span) (lines : list str) :
  Forall (fun sp => is_bold sp = false \/ rejected (text sp) = true) spans ->
  extract_headers_from_bold spans = []
  /\ slice_company_blocks (extract_headers_from_bold spans) spans lines = Some [].
Proof.
  intros Hall.
  assert (extract_headers_from_bold spans = []) as ->; [|done].
  unfold extract_headers_from_bold, header_candidates.
  rewrite scan_nothing_accumulates; [done|done|].
  eapply Forall_impl; [exact Hall|]. intros sp [H|H]; unfold accumulates; rewrite H.
  - done.
  - apply andb_false_r.
Qed.

Lemma nothing_bold_nothing_found_witness :
  extract_headers_from_bold [plain "ACME SDN BHD" 0; bold "Management" 1] = [].
Proof.
  refine (proj1 (nothing_bold_nothing_found
                   [plain "ACME SDN BHD" 0; bold "Management" 1] [] _)).
  apply Forall_cons_2; [left; reflexivity|].
  apply Forall_cons_2; [right; reflexivity|]. apply Forall_nil_2.
Defined.

(** X6. A span that is not bold ends the run before it: the candidates are
    those of the spans before it, as if the sequence ended there, followed
    by those of the spans after it; spans that are not bold at the end of
    the sequence change nothing. *)
Theorem plain_span_separates (pre post : list span) (sp : span) :
  is_bold sp = false ->
  header_candidates (pre ++ sp :: post)
  = header_candidates pre ++ candidates_from (S (length pre)) post
  /\ extract_headers_from_bold (pre ++ [sp]) = extract_headers_from_bold pre.
Proof.
  intros Hsp.
  assert (scan 0 (pre ++ [sp]) init_state = flush_if_company (scan 0 pre init_state))
    as Hstep.
  { rewrite scan_app. simpl. unfold scan_step. by rewrite Hsp. }
  assert (header_candidates (pre ++ [sp]) = header_candidates pre) as Hsame.
  { unfold header_candidates. rewrite Hstep. by rewrite (flush_empty _ (flush_buf _)). }
  split.
  - replace (pre ++ sp :: post) with ((pre ++ [sp]) ++ post) by (by rewrite <- app_assoc).
    rewrite header_candidates_split by (rewrite Hstep; apply flush_buf).
    rewrite length_app. simpl. rewrite Nat.add_1_r. by rewrite Hsame.
  - unfold extract_headers_from_bold. by rewrite Hsame.
Qed.

Lemma plain_span_separates_witness :
  header_candidates ([bold "A BHD" 0] ++ plain "x" 1 :: [bold "B BHD" 2])
  = header_candidates [bold "A BHD" 0] ++ candidates_from 2 [bold "B BHD" 2].
Proof.
  apply (plain_span_separates [bold "A BHD" 0] [bold "B BHD" 2] (plain "x" 1)).
  reflexivity.
Defined.

(** ** The slicer fails exactly on a bad terminating index *)

Lemma getitem_is_Some {A : Type} (l : list A) (e : Z) :
  is_Some (AnyIndex.getitem l e)
  <-> (- Z.of_nat (length l) <= e < Z.of_nat (length l))%Z.
Proof.
  unfold AnyIndex.getitem. cbv zeta.
  destruct (Z.ltb_spec e 0) as [Hneg|Hpos].
  - destruct (Z.ltb_spec (e + Z.of_nat (length l)) 0) as [Hlow|Hin].
    + split; [by intros [? ?]|lia].
    + rewrite lookup_lt_is_Some. lia.
  - rewrite lookup_lt_is_Some. lia.
Qed.

Lemma getitem_of_nat {A : Type} (l : list A) (e : nat) :
  AnyIndex.getitem l (Z.of_nat e) = l !! e.
Proof.
  unfold AnyIndex.getitem. cbv zeta.
  destruct (Z.ltb_spec (Z.of_nat e) 0); [lia|]. by rewrite Nat2Z.id.
Qed.

Lemma any_line_of_is_Some spans idx :
  is_Some (AnyIndex.line_of spans idx)
  <-> exists e, idx = Some e
                /\ (- Z.of_nat (length spans) <= e < Z.of_nat (length spans))%Z.
Proof.
  unfold AnyIndex.line_of. destruct idx as [e|]; simpl.
  - split.
    + intros [l Hl]. exists e. split; [done|]. apply getitem_is_Some.
      destruct (AnyIndex.getitem spans e); [eauto|done].
    + intros (e' & He & Hr). injection He as <-.
      apply getitem_is_Some in Hr as [sp Hsp]. rewrite Hsp. simpl. eauto.
  - split; [by intros [? ?]|by intros (? & ? & _)].
Qed.

Lemma any_line_of_int spans idx :
  AnyIndex.line_of spans (Z.of_nat <$> idx) = line_of spans idx.
Proof.
  unfold AnyIndex.line_of, line_of. destruct idx as [e|]; [|done]. simpl.
  by rewrite getitem_of_nat.
Qed.

Lemma any_block_bounds_is_Some headers spans lines i e :
  is_Some (AnyIndex.block_bounds headers spans lines i e)
  <-> (e = None \/ is_Some (AnyIndex.line_of spans e))
      /\ (forall h, headers !! (i + 1) = Some h ->
                    is_Some (AnyIndex.line_of spans (h.2))).
Proof.
  unfold AnyIndex.block_bounds. split.
  - intros [[a b] H]. destruct e as [e|].
    + destruct (AnyIndex.line_of spans (Some e)) as [l|] eqn:El; [|done]. simpl in H.
      split; [right; eauto|]. intros h Hh.
      destruct (decide (i + 1 < length headers)) as [Hlt|Hge].
      * rewrite Hh in H. simpl in H.
        destruct (AnyIndex.line_of spans (h.2)); [eauto|done].
      * apply lookup_lt_Some in Hh. lia.
    + simpl in H. split; [by left|]. intros h Hh.
      destruct (decide (i + 1 < length headers)) as [Hlt|Hge].
      * rewrite Hh in H. simpl in H.
        destruct (AnyIndex.line_of spans (h.2)); [eauto|done].
      * apply lookup_lt_Some in Hh. lia.
  - intros [Hstart Hstop].
    assert (exists start,
              match e with
              | Some _ => l ← AnyIndex.line_of spans e; Some (l + 1)%Z
              | None => Some 0%Z
              end = Some start) as [start ->].
    { destruct e as [e|]; [|eauto]. destruct Hstart as [?|[l Hl]]; [done|].
      rewrite Hl. simpl. eauto. }
    simpl. destruct (decide (i + 1 < length headers)) as [Hlt|Hge].
    + destruct (lookup_lt_is_Some_2 _ _ Hlt) as [h Hh]. rewrite Hh. simpl.
      destruct (Hstop h Hh) as [l ->]. simpl. eauto.
    + simpl. eauto.
Qed.

Lemma mapM_ext_Forall2 {A A' B : Type} (f : A -> option B) (g : A' -> option B)
    (l : list A) (k : list A') :
  Forall2 (fun x y => f x = g y) l k -> mapM f l = mapM g k.
Proof. induction 1 as [|x y l k Hxy _ IH]; [done|]. simpl. by rewrite Hxy, IH. Qed.

Lemma any_block_bounds_int (hs : list header) spans lines i e :
  AnyIndex.block_bounds (int_header <$> hs) spans lines i (Z.of_nat <$> e)
  = block_bounds hs spans lines i e.
Proof.
  unfold AnyIndex.block_bounds, block_bounds.
  rewrite length_fmap, list_lookup_fmap.
  assert (match Z.of_nat <$> e with
          | Some _ => l ← AnyIndex.line_of spans (Z.of_nat <$> e); Some (l + 1)%Z
          | None => Some 0%Z
          end
          = match e with
            | Some _ => l ← line_of spans e; Some (l + 1)%Z
            | None => Some 0%Z
            end) as ->.
  { rewrite any_line_of_int. by destruct e. }
  destruct (hs !! (i + 1)) as [h|]; [|done]. simpl.
  by rewrite any_line_of_int.
Qed.

(** X7. Python takes any integer as an index into the spans, a negative one
    counting from the end. The slicer returns blocks exactly when every
    terminating index is an integer [e] with [-len(spans) <= e < len(spans)],
    or is [None] on the first header; otherwise a lookup in the spans
    raises. On the headers of the detector, whose indices are natural
    numbers, it is the slicer written for them. *)
Theorem slicer_succeeds_iff (headers : list (str * option Z)) (spans : list span)
    (lines : list str) :
  (is_Some (AnyIndex.slice_company_blocks headers spans lines)
   <-> forall k h, headers !! k = Some h ->
         match h.2 with
         | Some e => (- Z.of_nat (length spans) <= e < Z.of_nat (length spans))%Z
         | None => k = 0
         end)
  /\ (forall hs : list header,
        AnyIndex.slice_company_blocks (int_header <$> hs) spans lines
        = slice_company_blocks hs spans lines).
Proof.
  split.
  - unfold AnyIndex.slice_company_blocks. rewrite mapM_is_Some, Forall_forall.
    assert (forall i h,
              is_Some (AnyIndex.slice_block headers spans lines i h)
              <-> is_Some (AnyIndex.block_bounds headers spans lines i (h.2))) as Hsb.
    { intros i h. unfold AnyIndex.slice_block.
      destruct (AnyIndex.block_bounds headers spans lines i (h.2)) as [[a b]|]; simpl.
      - split; eauto.
      - split; intros [? ?]; done. }
    split.
    + intros H k h Hk.
      assert (is_Some (AnyIndex.block_bounds headers spans lines k (h.2))) as Hb.
      { apply Hsb. apply (H (k, h)).
        apply list_elem_of_lookup. exists k. by rewrite list_lookup_imap, Hk. }
      apply any_block_bounds_is_Some in Hb as [Hstart _].
      destruct (h.2) as [e|] eqn:He.
      * destruct Hstart as [?|Hs]; [done|].
        apply any_line_of_is_Some in Hs as (e' & He' & Hr). by injection He' as <-.
      * destruct k as [|k]; [done|]. exfalso.
        destruct (lookup_lt_is_Some_2 headers k) as [h0 Hh0];
          [apply lookup_lt_Some in Hk; lia|].
        assert (is_Some (AnyIndex.block_bounds headers spans lines k (h0.2))) as Hb0.
        { apply Hsb. apply (H (k, h0)).
          apply list_elem_of_lookup. exists k. by rewrite list_lookup_imap, Hh0. }
        apply any_block_bounds_is_Some in Hb0 as [_ Hnext].
        destruct (Hnext h) as [l Hl]; [by rewrite Nat.add_1_r|].
        rewrite He in Hl. done.
    + intros H [i h] Hin. apply list_elem_of_lookup in Hin as (k & Hk).
      apply list_lookup_imap_Some in Hk as (h' & Hh & Heq). injection Heq as -> ->.
      unfold compose. cbn [fst snd]. apply Hsb, any_block_bounds_is_Some.
      assert (forall k h, headers !! S k = Some h ->
                is_Some (AnyIndex.line_of spans (h.2))) as Hlater.
      { intros k0 h0 Hk0. apply any_line_of_is_Some. specialize (H _ _ Hk0).
        destruct (h0.2) as [e|]; [by exists e|done]. }
      split.
      * destruct k as [|k]; [|right; by eapply Hlater].
        specialize (H _ _ Hh). destruct (h'.2) as [e|] eqn:He; [|by left].
        right. apply any_line_of_is_Some. by exists e.
      * intros h Hnext. rewrite Nat.add_1_r in Hnext. by eapply Hlater.
  - intros hs. unfold AnyIndex.slice_company_blocks, slice_company_blocks.
    apply mapM_ext_Forall2. apply Forall2_same_length_lookup_2.
    + by rewrite !length_imap, length_fmap.
    + intros k [i1 h1] [i2 h2] H1 H2.
      rewrite list_lookup_imap, list_lookup_fmap in H1. rewrite list_lookup_imap in H2.
      destruct (hs !! k) as [h|]; [|done]. simpl in H1, H2.
      injection H1 as <- <-. injection H2 as <- <-.
      cbn [fst snd]. unfold AnyIndex.slice_block, slice_block.
      change ((int_header h).2) with (Z.of_nat <$> h.2).
      by rewrite any_block_bounds_int.
Qed.

Lemma slicer_succeeds_iff_witness :
  is_Some (AnyIndex.slice_company_blocks [(py "A BHD", Some (-1)%Z)]
             [bold "A BHD" 0] [py "A BHD"; py "x"])
  /\ AnyIndex.slice_company_blocks [(py "A BHD", Some 5%Z)]
        [bold "A BHD" 0] [py "A BHD"; py "x"] = None.
Proof.
  split.
  - apply (proj1 (slicer_succeeds_iff [(py "A BHD", Some (-1)%Z)]
                    [bold "A BHD" 0] [py "A BHD"; py "x"])).
    intros [|k] h Hk; [|by destruct k]. injection Hk as <-. simpl. lia.
  - destruct (AnyIndex.slice_company_blocks [(py "A BHD", Some 5%Z)]
                [bold "A BHD" 0] [py "A BHD"; py "x"]) as [bs|] eqn:E; [|done].
    exfalso.
    pose proof (proj1 (proj1 (slicer_succeeds_iff [(py "A BHD", Some 5%Z)]
                                [bold "A BHD" 0] [py "A BHD"; py "x"]))
                  (ex_intro _ bs E) 0 _ eq_refl) as H.
    simpl in H. lia.
Defined.

(** ** Layout flattening: skipped entries, pages put together, lines *)

Lemma page_spans_shift ls : forall n,
  page_spans (Z.of_nat n) ls = shift_line n <$> page_spans 0 ls.
Proof.
  assert (forall ls a n, page_spans (a + Z.of_nat n) ls = shift_line n <$> page_spans a ls)
    as H.
  { clear ls. induction ls as [|l ls IH]; intros a n; [done|].
    cbn [page_spans]. rewrite fmap_app. f_equal.
    - unfold line_spans. rewrite <- list_fmap_compose. by apply list_fmap_ext.
    - rewrite <- IH. f_equal. lia. }
  intros n. by rewrite <- H.
Qed.

Lemma text_lines_app bs1 bs2 :
  text_lines (page_with (bs1 ++ bs2))
  = text_lines (page_with bs1) ++ text_lines (page_with bs2).
Proof. unfold text_lines. simpl. apply flat_map_app. Qed.

(** X8. The spans and lines of blocks put one after the other are those of the
    first blocks followed by those of the next blocks, whose line numbers
    move down by the number of lines of the first. *)
Theorem flattener_appends (bs1 bs2 : list raw_block) :
  get_flat_spans_with_lines (page_with (bs1 ++ bs2))
  = ((get_flat_spans_with_lines (page_with bs1)).1
     ++ (shift_line (length (get_flat_spans_with_lines (page_with bs1)).2)
         <$> (get_flat_spans_with_lines (page_with bs2)).1),
     (get_flat_spans_with_lines (page_with bs1)).2
     ++ (get_flat_spans_with_lines (page_with bs2)).2).
Proof.
  rewrite !get_flat_spans_with_lines_spec. cbn [fst snd].
  rewrite text_lines_app, page_spans_app, fmap_app, length_fmap.
  rewrite Z.add_0_l, page_spans_shift. reflexivity.
Qed.

(** X9. Blocks that are not text blocks, a block without lines, a line without
    spans and a page without blocks give no span and no line. *)
Theorem flattener_skips (bs : list raw_block) :
  get_flat_spans_with_lines (page_with bs)
  = get_flat_spans_with_lines (page_with (List.filter is_text_block bs))
  /\ get_flat_spans_with_lines (PageDict None) = ([], [])
  /\ (forall t, get_flat_spans_with_lines (page_with [RawBlock t None]) = ([], []))
  /\ get_flat_spans_with_lines (page_with [RawBlock (Some 0%Z) (Some [RawLine None])])
     = ([], [[]]).
Proof.
  split; [|split; [done|split; [|done]]].
  - rewrite !get_flat_spans_with_lines_spec.
    assert (text_lines (page_with bs)
            = text_lines (page_with (List.filter is_text_block bs))) as ->; [|done].
    unfold text_lines. simpl. induction bs as [|b bs IH]; [done|].
    simpl. unfold is_text_block at 1. destruct (bool_decide _) eqn:E; simpl.
    + rewrite E. by rewrite IH.
    + exact IH.
  - intros t. rewrite get_flat_spans_with_lines_spec. unfold text_lines. simpl.
    by destruct (bool_decide _).
Qed.

Lemma filter_line_spans_same n l :
  List.filter (fun sp => (line_no sp =? n)%Z) (line_spans n l) = line_spans n l.
Proof.
  unfold line_spans. induction (fragments l) as [|f fs IH]; [done|].
  rewrite fmap_cons. cbn [List.filter line_no]. rewrite Z.eqb_refl. by rewrite IH.
Qed.

Lemma filter_line_spans_other n m l :
  n <> m -> List.filter (fun sp => (line_no sp =? m)%Z) (line_spans n l) = [].
Proof.
  intros Hne. unfold line_spans. induction (fragments l) as [|f fs IH]; [done|].
  rewrite fmap_cons. cbn [List.filter line_no].
  destruct (Z.eqb_spec n m); [done|exact IH].
Qed.

Lemma filter_page_spans_before ls : forall start m,
  (m < start)%Z ->
  List.filter (fun sp => (line_no sp =? m)%Z) (page_spans start ls) = [].
Proof.
  induction ls as [|l ls IH]; intros start m Hlt; [done|].
  cbn [page_spans]. rewrite List.filter_app.
  rewrite filter_line_spans_other by lia. rewrite IH by lia. done.
Qed.

Lemma filter_page_spans ls : forall start n,
  List.filter (fun sp => (line_no sp =? start + Z.of_nat n)%Z) (page_spans start ls)
  = match ls !! n with
    | Some l => line_spans (start + Z.of_nat n) l
    | None => []
    end.
Proof.
  induction ls as [|l ls IH]; intros start n; [done|].
  cbn [page_spans]. rewrite List.filter_app. destruct n as [|n].
  - rewrite Z.add_0_r, filter_line_spans_same.
    rewrite filter_page_spans_before by lia. apply app_nil_r.
  - rewrite filter_line_spans_other by lia. simpl app.
    replace (start + Z.of_nat (S n))%Z with (start + 1 + Z.of_nat n)%Z by lia.
    apply IH.
Qed.

Lemma fragments_trimmed l : forallb trimmed ((fragments l).*1) = true.
Proof.
  unfold fragments. induction (default [] (rl_spans l)) as [|s ss IH]; [done|].
  change (omap fragment (s :: ss))
    with (match fragment s with
          | Some y => y :: omap fragment ss
          | None => omap fragment ss
          end).
  destruct (fragment s) as [[t b]|] eqn:E; [|exact IH].
  rewrite fmap_cons. cbn [forallb fst]. rewrite IH, andb_true_r.
  unfold fragment in E. destruct (bool_decide _) eqn:Eb; [done|].
  injection E as <- _. apply bool_decide_eq_false in Eb.
  unfold collapse_ws in *. by apply strip_trimmed.
Qed.

(** X10. The text of every line of a page is the texts of the spans of that
    line, in their order, joined by single spaces; so it is empty or
    trimmed, and the spans and the lines of a page tell the same text. *)
Theorem line_is_its_spans_joined (page : page_dict) (n : nat) (ln : str) :
  page_lines_of page !! n = Some ln ->
  ln = join (py " ") (text <$> spans_on_line n (page_spans_of page))
  /\ (ln = [] \/ trimmed ln = true).
Proof.
  unfold page_lines_of, page_spans_of, spans_on_line.
  rewrite get_flat_spans_with_lines_spec. cbn [fst snd].
  rewrite list_lookup_fmap. intros H.
  destruct (text_lines page !! n) as [l|] eqn:El; [|done].
  injection H as <-.
  pose proof (filter_page_spans (text_lines page) 0 n) as Hf.
  rewrite Z.add_0_l, El in Hf. rewrite Hf.
  assert (text <$> line_spans (Z.of_nat n) l = (fragments l).*1) as ->.
  { unfold line_spans. rewrite <- list_fmap_compose. by apply list_fmap_ext. }
  unfold line_text. pose proof (fragments_trimmed l) as Htr.
  destruct ((fragments l).*1) as [|t ts] eqn:E.
  - split; [done|by left].
  - rewrite trimmed_strip by (by apply trimmed_join).
    split; [done|]. right. by apply trimmed_join.
Qed.

Lemma line_is_its_spans_joined_witness :
  py "A BHD B BHD"
  = join (py " ")
         (text <$> spans_on_line 0 (page_spans_of page_two_names_on_a_line)).
Proof.
  apply (line_is_its_spans_joined page_two_names_on_a_line 0 (py "A BHD B BHD")).
  reflexivity.
Defined.

(** ** Records and reports *)

Lemma page_blocks_ok page :
  exists blocks, page_blocks page = Some blocks
                 /\ blocks.*1 = (page_headers page).*1.
Proof.
  unfold page_blocks, page_headers.
  destruct (header_lines_ok (page_spans_of page) (length (page_spans_of page))
              (extract_headers_from_bold (page_spans_of page))) as [ls Hls];
    [apply extract_headers_idx_ok|].
  destruct (slice_company_blocks_spec _ _ (page_lines_of page) _ Hls)
    as (blocks & Hb & Hn & _).
  by exists blocks.
Qed.

Lemma elem_of_concat_fmap {A : Type} (f : A -> list str) (l : list A) x :
  x ∈ concat (f <$> l) <-> exists r, r ∈ l /\ x ∈ f r.
Proof.
  induction l as [|a l IH]; simpl.
  - split; [by intros ?%elem_of_nil|by intros (r & ?%elem_of_nil & _)].
  - rewrite elem_of_app, IH. split.
    + intros [H|(r & Hr & Hx)]; [exists a; split; [by left|done]|].
      exists r. split; [by right|done].
    + intros (r & Hr & Hx). apply elem_of_cons in Hr as [->|Hr]; [by left|].
      right. by exists r.
Qed.

(** X16. A page always gives its records, one for each header and in their
    order, with distinct company names; the contact lists of a record and
    the roll-ups of the page have no duplicates; a roll-up holds exactly
    what the records hold; nothing is ever reported as management. *)
Theorem page_records_and_report (page : page_dict) :
  exists records,
    page_records page = Some records
    /\ company <$> records = (page_headers page).*1
    /\ NoDup (r_companies (report_of records))
    /\ Forall (fun r => NoDup (emails r) /\ NoDup (phones r) /\ management r = [])
              records
    /\ NoDup (r_emails (report_of records))
    /\ NoDup (r_phones (report_of records))
    /\ r_management (report_of records) = []
    /\ (forall e, e ∈ r_emails (report_of records)
                  <-> exists r, r ∈ records /\ e ∈ emails r)
    /\ (forall p, p ∈ r_phones (report_of records)
                  <-> exists r, r ∈ records /\ p ∈ phones r).
Proof.
  destruct (page_blocks_ok page) as (blocks & Hb & Hn).
  unfold page_records. rewrite Hb.
  eexists. split; [reflexivity|].
  set (mk := record_of).
  assert (forall b, company (mk b) = b.1 /\ management (mk b) = []
                    /\ emails (mk b) = normalize_emails (b.2)
                    /\ NoDup (emails (mk b)) /\ NoDup (phones (mk b))) as Hmk.
  { intros b. unfold mk, record_of, extract_contacts_from_block. cbv zeta.
    cbn [company management emails phones].
    split; [done|]. split; [done|]. split; [done|]. split.
    - unfold normalize_emails. apply dedup_preserve_order_NoDup.
    - apply dedup_preserve_order_NoDup. }
  assert (company <$> (mk <$> blocks) = (page_headers page).*1) as Hc.
  { rewrite <- Hn, <- list_fmap_compose. apply list_fmap_ext.
    intros i b _. apply Hmk. }
  split; [exact Hc|]. split.
  { cbn [report_of r_companies]. rewrite Hc. apply extract_headers_NoDup. }
  split.
  { apply Forall_forall. intros r Hr. apply list_elem_of_fmap in Hr as (b & -> & _).
    destruct (Hmk b) as (_ & ? & _ & ? & ?). done. }
  split; [apply dedup_preserve_order_NoDup|].
  split; [apply dedup_preserve_order_NoDup|]. split.
  { cbn [report_of r_management].
    assert (forall bs, concat (management <$> (mk <$> bs)) = []) as ->; [|done].
    intros bs. induction bs as [|b bs IH]; [done|].
    rewrite !fmap_cons. cbn [concat]. rewrite (proj1 (proj2 (Hmk b))). exact IH. }
  split.
  - intros e. cbn [report_of r_emails].
    rewrite dedup_preserve_order_elem. apply elem_of_concat_fmap.
  - intros p. cbn [report_of r_phones].
    rewrite dedup_preserve_order_elem. apply elem_of_concat_fmap.
Qed.

Lemma page_records_ok page : is_Some (page_records page).
Proof.
  destruct (page_blocks_ok page) as (blocks & Hb & _).
  unfold page_records. rewrite Hb. eauto.
Qed.

(** X17. The loop over pages never fails: every requested page gives one
    output, in the order of the request, a warning when the page number is
    negative or not below the page count and a report of that page of the
    document otherwise. *)
Theorem main_pages_outputs (doc : list page_dict) (pages : option (list Z)) :
  exists outs,
    main_pages doc pages = Some outs
    /\ Forall2 (fun p out =>
                  if in_range doc p
                  then exists page records,
                         doc !! Z.to_nat p = Some page
                         /\ page_records page = Some records
                         /\ out = Printed p (report_of records)
                  else out = Skipped p)
               (pages_to_check pages) outs.
Proof.
  unfold main_pages.
  assert (forall p,
            exists out,
              (if (p <? 0)%Z || (Z.of_nat (length doc) <=? p)%Z then Some (Skipped p)
               else page ← doc !! Z.to_nat p;
                    records ← page_records page;
                    Some (Printed p (report_of records))) = Some out
              /\ (if in_range doc p
                  then exists page records,
                         doc !! Z.to_nat p = Some page
                         /\ page_records page = Some records
                         /\ out = Printed p (report_of records)
                  else out = Skipped p)) as Hone.
  { intros p. unfold in_range.
    destruct ((p <? 0)%Z || (Z.of_nat (length doc) <=? p)%Z) eqn:E; [by eexists|].
    apply orb_false_iff in E as [E1 E2].
    apply Z.ltb_ge in E1. apply Z.leb_gt in E2.
    destruct (lookup_lt_is_Some_2 doc (Z.to_nat p)) as [page Hp]; [lia|].
    destruct (page_records_ok page) as [records Hr].
    rewrite Hp. cbn [mbind option_bind]. rewrite Hr. cbn [mbind option_bind].
    eexists. split; [reflexivity|]. simpl. by exists page, records. }
  induction (pages_to_check pages) as [|p ps IH].
  - exists []. split; [done|constructor].
  - destruct IH as (outs & Ho & HF). destruct (Hone p) as (out & Hout & Hp).
    exists (out :: outs). split.
    + cbn [mapM]. rewrite Hout. cbn [mbind option_bind]. rewrite Ho. reflexivity.
    + by constructor.
Qed.

(** X18. Without a page list, or with an empty one, page 3 is asked for; on a
    document of three pages or fewer this only gives the warning. *)
Theorem main_default_page (doc : list page_dict) :
  main_pages doc None = main_pages doc (Some [3%Z])
  /\ main_pages doc (Some []) = main_pages doc (Some [3%Z])
  /\ (length doc <= 3 -> main_pages doc None = Some [Skipped 3]).
Proof.
  split; [done|]. split; [done|].
  intros Hlen. unfold main_pages. cbn [pages_to_check mapM].
  destruct (Z.leb_spec (Z.of_nat (length doc)) 3) as [_|Hgt]; [|lia].
  reflexivity.
Qed.

Lemma main_default_page_witness :
  main_pages [page_two_companies] None = Some [Skipped 3].
Proof.
  apply (main_default_page [page_two_companies]). simpl. lia.
Defined.

(** ** What the matches of a pattern look like *)

Lemma Matches_chars s r i j :
  Matches s r i j ->
  i <= j /\ forall k, i <= k < j -> exists a, s !! k = Some a /\ any_class r a = true.
Proof.
  induction 1 as [i|p i a Ha Hp|r1 r2 i j k _ [H1 IH1] _ [H2 IH2]
                  |r1 r2 i j _ [H1 IH1]|r1 r2 i j _ [H1 IH1]
                  |r i|r i j k _ [H1 IH1] _ [H2 IH2]|g r i j _ [H1 IH1]|i Hb];
    simpl.
  - split; [lia|]. intros k Hk. lia.
  - split; [lia|]. intros k Hk. assert (k = i) as -> by lia. eauto.
  - split; [lia|]. intros m Hm. destruct (decide (m < j)) as [Hlt|Hge].
    + destruct (IH1 m) as (a & ? & Ha); [lia|]. exists a. by rewrite Ha.
    + destruct (IH2 m) as (a & ? & Ha); [lia|]. exists a. rewrite Ha.
      by rewrite orb_true_r.
  - split; [lia|]. intros m Hm. destruct (IH1 m Hm) as (a & ? & Ha).
    exists a. by rewrite Ha.
  - split; [lia|]. intros m Hm. destruct (IH1 m Hm) as (a & ? & Ha).
    exists a. rewrite Ha. by rewrite orb_true_r.
  - split; [lia|]. intros k Hk. lia.
  - split; [lia|]. intros m Hm. destruct (decide (m < j)) as [Hlt|Hge].
    + apply IH1. lia.
    + apply IH2. lia.
  - split; [lia|]. exact IH1.
  - split; [lia|]. intros k Hk. lia.
Qed.

Lemma Matches_min_len s r i j : Matches s r i j -> i + min_len r <= j.
Proof.
  induction 1 as [i|p i a Ha Hp|r1 r2 i j k H1 IH1 H2 IH2
                  |r1 r2 i j H1 IH1|r1 r2 i j H1 IH1
                  |r i|r i j k H1 IH1 H2 IH2|g r i j H1 IH1|i Hb];
    simpl in *; lia.
Qed.

Lemma Matches_max_len s r i j m :
  Matches s r i j -> max_len r = Some m -> j <= i + m.
Proof.
  intros H. revert m.
  induction H as [i|p i a Ha Hp|r1 r2 i j k H1 IH1 H2 IH2
                  |r1 r2 i j H1 IH1|r1 r2 i j H1 IH1
                  |r i|r i j k H1 IH1 H2 IH2|g r i j H1 IH1|i Hb];
    intros m Hm; simpl in Hm.
  - injection Hm as <-. lia.
  - injection Hm as <-. lia.
  - destruct (max_len r1) as [a|]; [|done]. destruct (max_len r2) as [b|]; [|done].
    injection Hm as <-. specialize (IH1 a eq_refl). specialize (IH2 b eq_refl). lia.
  - destruct (max_len r1) as [a|]; [|done]. destruct (max_len r2) as [b|]; [|done].
    injection Hm as <-. specialize (IH1 a eq_refl). lia.
  - destruct (max_len r1) as [a|]; [|done]. destruct (max_len r2) as [b|]; [|done].
    injection Hm as <-. specialize (IH1 b eq_refl). lia.
  - done.
  - done.
  - by apply IH1.
  - injection Hm as <-. lia.
Qed.

(** The text of a match: its length, and its characters. *)
Lemma substr_of_match s r i j :
  Matches s r i j ->
  length (substr s i j) = j - i
  /\ Forall (fun a => any_class r a = true) (substr s i j).
Proof.
  intros H. apply Matches_chars in H as [Hij Hch]. unfold substr.
  assert (j <= length s \/ i = j) as Hlen.
  { destruct (decide (i = j)) as [->|Hne]; [by right|]. left.
    destruct (Hch (j - 1)) as (a & Ha & _); [lia|].
    apply lookup_lt_Some in Ha. lia. }
  split.
  - rewrite length_take, length_drop. lia.
  - apply Forall_forall. intros a Ha.
    apply list_elem_of_lookup in Ha as (k & Hk).
    apply lookup_take_Some in Hk as [Hk Hlt]. rewrite lookup_drop in Hk.
    destruct (Hch (i + k)) as (a' & Ha' & Hc); [lia|].
    rewrite Hk in Ha'. by injection Ha' as <-.
Qed.

Lemma startswith_take n s : startswith (take n s) s = true.
Proof.
  revert n. induction s as [|c s IH]; intros [|n]; simpl; try done.
  by rewrite Ascii.eqb_refl, IH.
Qed.

Lemma contains_startswith p s : startswith p s = true -> contains p s = true.
Proof. intros H. destruct s; simpl; by rewrite H. Qed.

Lemma contains_substr s i j : contains (substr s i j) s = true.
Proof.
  unfold substr. rewrite <- (take_drop i s) at 2.
  apply contains_app_l, contains_startswith, startswith_take.
Qed.

(** ** Phones *)

Lemma phone_re_chars a : any_class PHONE_RE a = true -> phone_char a = true.
Proof.
  destruct a as [[] [] [] [] [] [] [] []]; vm_compute; intros H; first [exact H|reflexivity].
Qed.

Lemma phone_of_block text p :
  p ∈ (extract_contacts_from_block text).1 ->
  exists tail st en,
    tail ∈ label_tails text /\ p = substr tail st en /\ Matches tail PHONE_RE st en.
Proof.
  unfold extract_contacts_from_block. cbn [fst]. intros H.
  apply (proj1 (dedup_preserve_order_elem _ _)) in H.
  apply (proj1 (list_elem_of_In _ _)) in H.
  apply in_flat_map in H as (m & Hm & Hp).
  cbv zeta in Hp. apply list_elem_of_In in Hm, Hp.
  apply list_elem_of_fmap in Hp as (m' & -> & Hm').
  exists (default [] (group text 1 m)), (m_start m'), (m_end m').
  split; [|split; [done|by apply finditer_sound]].
  unfold label_tails. apply list_elem_of_fmap. by exists m.
Qed.

(** X13. Every phone of a block is a piece of the text that follows a telephone
    label on its line, of 7 to 15 characters, each a digit, a plus or a
    hyphen. *)
Theorem phones_shape (text p : str) :
  p ∈ (extract_contacts_from_block text).1 ->
  7 <= length p <= 15
  /\ forallb phone_char p = true
  /\ exists tail, tail ∈ label_tails text /\ contains p tail = true.
Proof.
  intros H. apply phone_of_block in H as (tail & st & en & Ht & -> & Hm).
  destruct (substr_of_match _ _ _ _ Hm) as [Hlen Hch].
  pose proof (Matches_min_len _ _ _ _ Hm) as Hmin.
  pose proof (Matches_max_len _ _ _ _ 15 Hm eq_refl) as Hmax.
  change (min_len PHONE_RE) with 7 in Hmin.
  split; [lia|]. split.
  - apply forallb_forall. intros a Ha. apply phone_re_chars.
    rewrite Forall_forall in Hch. by apply Hch, list_elem_of_In.
  - exists tail. split; [exact Ht|apply contains_substr].
Qed.

Lemma phones_shape_witness :
  7 <= length (py "03-12345678") <= 15
  /\ forallb phone_char (py "03-12345678") = true
  /\ exists tail, tail ∈ label_tails sample_block
                  /\ contains (py "03-12345678") tail = true.
Proof.
  apply (phones_shape sample_block (py "03-12345678")).
  vm_compute. left.
Defined.

(** ** The groups of a match *)

Section Caps.
Variable s : str.
Variable Q : nat -> nat -> nat -> Prop.
Context {R : Type}.

Lemma star_loop_caps (r : regex)
    (body : (nat -> caps -> option R) -> nat -> caps -> option R) :
  (forall k i c x, body k i c = Some x -> hands_over s Q r (fun _ => false) k i c x) ->
  forall n k i c x,
    star_loop body k n i c = Some x -> hands_over s Q (Star r) (fun _ => false) k i c x.
Proof.
  intros Hbody n. induction n as [|n IH]; intros k i c x H; simpl in H.
  - exists i, c. split; [constructor|]. split; [exact H|]. split; [done|].
    by intros g [?|?].
  - destruct (body _ i c) as [y|] eqn:E.
    + injection H as ->.
      apply Hbody in E as (j & c1 & Hm & Hk & Hq & Hs).
      destruct (i <? j); [|discriminate].
      apply IH in Hk as (j' & c2 & Hm' & Hk' & Hq' & Hs').
      exists j', c2. split; [econstructor; eassumption|]. split; [exact Hk'|].
      split; [auto|]. intros g [?|Hg]; [done|]. apply Hs'. right. apply Hs. by right.
    + exists i, c. split; [constructor|]. split; [exact H|]. split; [done|].
      by intros g [?|?].
Qed.

Lemma run_caps (r : regex) :
  (forall g rg i j, (g, rg) ∈ groups_of r -> Matches s rg i j -> Q g i j) ->
  forall (k : nat -> caps -> option R) i c x,
    run s r k i c = Some x -> hands_over s Q r (fun g => sets_group g r) k i c x.
Proof.
  induction r as [|p|r1 IH1 r2 IH2|r1 IH1 r2 IH2|r IH|g0 r IH|];
    intros Hgood k i c x H; simpl in H.
  - exists i, c. split; [constructor|]. split; [exact H|]. split; [done|].
    by intros g [?|?].
  - destruct (s !! i) as [a|] eqn:Ea; [|discriminate].
    destruct (p a) eqn:Ep; [|discriminate].
    exists (S i), c. split; [econstructor; eassumption|]. split; [exact H|].
    split; [done|]. by intros g [?|?].
  - apply IH1 in H as (j1 & c1 & Hm1 & H & Hq1 & Hs1);
      [|intros g rg i' j' Hin; apply Hgood; simpl; apply elem_of_app; by left].
    apply IH2 in H as (j2 & c2 & Hm2 & H & Hq2 & Hs2);
      [|intros g rg i' j' Hin; apply Hgood; simpl; apply elem_of_app; by right].
    exists j2, c2. split; [econstructor; eassumption|]. split; [exact H|].
    split; [auto|]. intros g [Hg|Hg].
    + simpl in Hg. apply orb_true_iff in Hg as [Hg|Hg].
      * apply Hs2. right. apply Hs1. by left.
      * apply Hs2. by left.
    + apply Hs2. right. apply Hs1. by right.
  - destruct (run s r1 k i c) as [y|] eqn:E.
    + injection H as ->.
      apply IH1 in E as (j & c' & Hm & Hk & Hq & Hs);
        [|intros g rg i' j' Hin; apply Hgood; simpl; apply elem_of_app; by left].
      exists j, c'. split; [by apply M_AltL|]. split; [exact Hk|]. split; [exact Hq|].
      intros g [Hg|Hg]; apply Hs; [left|by right].
      simpl in Hg. by apply andb_true_iff in Hg as [? _].
    + apply IH2 in H as (j & c' & Hm & Hk & Hq & Hs);
        [|intros g rg i' j' Hin; apply Hgood; simpl; apply elem_of_app; by right].
      exists j, c'. split; [by apply M_AltR|]. split; [exact Hk|]. split; [exact Hq|].
      intros g [Hg|Hg]; apply Hs; [left|by right].
      simpl in Hg. by apply andb_true_iff in Hg as [_ ?].
  - apply (star_loop_caps r (run s r)) in H; [exact H|].
    intros k' i' c' x' H'. apply IH in H' as (j & c1 & Hm & Hk & Hq & Hs);
      [|exact Hgood].
    exists j, c1. split; [exact Hm|]. split; [exact Hk|]. split; [exact Hq|].
    intros g [?|Hg]; [done|]. apply Hs. by right.
  - apply IH in H as (j & c1 & Hm & Hk & Hq & Hs);
      [|intros g rg i' j' Hin; apply Hgood; simpl; by right].
    exists j, (<[g0 := (i, j)]> c1).
    split; [by constructor|]. split; [exact Hk|]. split.
    + intros Hc g i' j' Hg. destruct (decide (g = g0)) as [->|Hne].
      * rewrite lookup_insert_eq in Hg. injection Hg as <- <-.
        apply (Hgood g0 r); [simpl; by left|exact Hm].
      * rewrite lookup_insert_ne in Hg by done. by apply (Hq Hc).
    + intros g Hg. destruct (decide (g = g0)) as [->|Hne].
      * rewrite lookup_insert_eq. eauto.
      * rewrite lookup_insert_ne by done. apply Hs.
        destruct Hg as [Hg|Hg]; [left|by right].
        simpl in Hg. apply orb_true_iff in Hg as [Hg|Hg]; [|done].
        apply Nat.eqb_eq in Hg. done.
  - destruct (at_boundary s i) eqn:E; [|discriminate].
    exists i, c. split; [by constructor|]. split; [exact H|]. split; [done|].
    by intros g [?|?].
Qed.

End Caps.

(** In a match that [finditer] returns, a group that is recorded spans a
    match of what it encloses, and a group that every match goes through
    is recorded. *)
Lemma finditer_groups s r m :
  m ∈ finditer s r ->
  (forall g i j, m_caps m !! g = Some (i, j) -> group_matches s r g i j)
  /\ (forall g, sets_group g r = true -> is_Some (m_caps m !! g)).
Proof.
  unfold finditer. generalize (S (length s)) 0.
  intros n. induction n as [|n IH]; intros pos H; simpl in H.
  - by apply elem_of_nil in H.
  - destruct (match_at s r pos) as [m'|] eqn:E; [|by eapply IH].
    apply elem_of_cons in H as [->|H]; [|by eapply IH].
    unfold match_at in E.
    apply (run_caps s (group_matches s r)) in E as (j & c & _ & Hk & Hq & Hs);
      [|intros g rg i' j' Hin Hm; by exists rg].
    injection Hk as <-. simpl. split.
    + apply Hq. intros g i' j' Hg. by rewrite lookup_empty in Hg.
    + intros g Hg. apply Hs. by left.
Qed.

(** The text of a recorded group. *)
Lemma group_text s r m g rg :
  m ∈ finditer s r ->
  sets_group g r = true ->
  (forall rg', (g, rg') ∈ groups_of r -> rg' = rg) ->
  exists i j, group s g m = Some (substr s i j) /\ Matches s rg i j.
Proof.
  intros Hm Hset Huniq. destruct (finditer_groups _ _ _ Hm) as [Hq Hs].
  destruct (Hs g Hset) as [[i j] Hg]. exists i, j.
  unfold group. rewrite Hg. split; [done|].
  destruct (Hq g i j Hg) as (rg' & Hin & Hmatch).
  by rewrite <- (Huniq rg' Hin).
Qed.

(** ** Label tails and e-mails *)

(** X14. The text searched for phones after a telephone label is a piece of the
    block that is not empty and holds no line break. *)
Theorem label_tail_is_one_line (text tail : str) :
  tail ∈ label_tails text ->
  tail <> [] /\ (LF ∉ tail) /\ (CR ∉ tail) /\ contains tail text = true.
Proof.
  unfold label_tails. intros H. apply list_elem_of_fmap in H as (m & -> & Hm).
  destruct (group_text text TEL_LABEL_RE m 1 (Plus (Class not_newline)) Hm eq_refl)
    as (i & j & -> & Hmatch).
  { intros rg' Hin. change (groups_of TEL_LABEL_RE)
      with [(1, Plus (Class not_newline))] in Hin.
    apply list_elem_of_singleton in Hin. by injection Hin. }
  simpl. destruct (substr_of_match _ _ _ _ Hmatch) as [Hlen Hch].
  pose proof (Matches_min_len _ _ _ _ Hmatch) as Hmin. simpl in Hmin.
  rewrite Forall_forall in Hch. repeat split.
  - intros E. rewrite E in Hlen. simpl in Hlen. lia.
  - intros Hin. apply Hch in Hin. vm_compute in Hin. discriminate.
  - intros Hin. apply Hch in Hin. vm_compute in Hin. discriminate.
  - apply contains_substr.
Qed.

Lemma label_tail_is_one_line_witness :
  py "03-12345678, 019-8765432" <> []
  /\ (LF ∉ py "03-12345678, 019-8765432")
  /\ (CR ∉ py "03-12345678, 019-8765432")
  /\ contains (py "03-12345678, 019-8765432") sample_block = true.
Proof.
  apply (label_tail_is_one_line sample_block). vm_compute. left.
Defined.

Lemma email_local_lower a :
  email_local_char a = true ->
  email_out_char (Char.lower a) = true /\ Char.lower a <> "@"%char.
Proof.
  destruct a as [[] [] [] [] [] [] [] []]; vm_compute; intros H;
    first [discriminate H | split; [reflexivity|discriminate]].
Qed.

Lemma email_domain_local a : email_domain_char a = true -> email_local_char a = true.
Proof.
  destruct a as [[] [] [] [] [] [] [] []]; vm_compute; intros H;
    first [exact H|reflexivity].
Qed.

Lemma email_alpha_local a : Char.is_ascii_alpha a = true -> email_local_char a = true.
Proof.
  destruct a as [[] [] [] [] [] [] [] []]; vm_compute; intros H;
    first [exact H|reflexivity].
Qed.

Lemma email_out_fixed a :
  email_out_char a = true -> Char.lower a = a /\ Char.is_space a = false.
Proof.
  destruct a as [[] [] [] [] [] [] [] []]; vm_compute; intros H;
    first [discriminate H | split; reflexivity].
Qed.

Lemma any_class_at_least n p a :
  any_class (AtLeast (S n) (Class p)) a = true -> p a = true.
Proof.
  unfold AtLeast. simpl. induction n as [|n IH]; simpl.
  - rewrite orb_false_r. by intros [?|?]%orb_true_iff.
  - intros [H|H]%orb_true_iff; [|done].
    apply orb_true_iff in H as [H|H]; [done|]. apply IH. by rewrite H.
Qed.

Lemma any_class_plus p a : any_class (Plus (Class p)) a = true -> p a = true.
Proof. simpl. by intros [?|?]%orb_true_iff. Qed.

(** The parts that an e-mail is rebuilt from. *)
Lemma email_parts text e :
  e ∈ normalize_emails text ->
  exists p1 p2 p3 p4,
    e = lower (p1 ++ py "@" ++ p2 ++ py "." ++ p3 ++ p4)
    /\ p1 <> []
    /\ Forall (fun a => email_local_char a = true) (p1 ++ p2 ++ py "." ++ p3 ++ p4).
Proof.
  unfold normalize_emails. cbv zeta. intros H.
  apply (proj1 (dedup_preserve_order_elem _ _)) in H.
  apply list_elem_of_fmap in H as (m & -> & Hm).
  destruct (finditer_groups _ _ _ Hm) as [Hq Hs].
  assert (forall g i j, m_caps m !! g = Some (i, j) ->
            substr text i j <> []
            /\ Forall (fun a => email_local_char a = true) (substr text i j)) as Hgrp.
  { intros g i j Hg. destruct (Hq g i j Hg) as (rg & Hin & Hmatch).
    destruct (substr_of_match _ _ _ _ Hmatch) as [Hlen Hch].
    pose proof (Matches_min_len _ _ _ _ Hmatch) as Hmin.
    change (groups_of EMAIL_BREAK_RE)
      with [(1, Plus (Class email_local_char));
            (2, Plus (Class email_domain_char));
            (3, AtLeast 2 (Class Char.is_ascii_alpha));
            (4, AtLeast 2 (Class Char.is_ascii_alpha))] in Hin.
    assert (1 <= min_len rg
            /\ forall a, any_class rg a = true -> email_local_char a = true)
      as [Hone Hcls].
    { repeat (apply elem_of_cons in Hin as [Hin|Hin];
              [injection Hin as -> ->; split; [simpl; lia|]|]).
      - apply any_class_plus.
      - intros a Ha. by apply email_domain_local, any_class_plus.
      - intros a Ha. by apply email_alpha_local, (any_class_at_least 1).
      - intros a Ha. by apply email_alpha_local, (any_class_at_least 1).
      - by apply elem_of_nil in Hin. }
    split; [intros E; rewrite E in Hlen; simpl in Hlen; lia|].
    eapply Forall_impl; [exact Hch|]. exact Hcls. }
  assert (forall g, sets_group g EMAIL_BREAK_RE = true ->
            exists t, group text g m = Some t /\ t <> []
                      /\ Forall (fun a => email_local_char a = true) t) as Hset.
  { intros g Hg. destruct (Hs g Hg) as [[i j] Hc]. exists (substr text i j).
    unfold group. rewrite Hc. split; [done|]. by apply (Hgrp g). }
  destruct (Hset 1 eq_refl) as (p1 & E1 & Hne1 & Hc1).
  destruct (Hset 2 eq_refl) as (p2 & E2 & _ & Hc2).
  destruct (Hset 3 eq_refl) as (p3 & E3 & _ & Hc3).
  rewrite E1, E2, E3. cbn [default].
  assert (Forall (fun a => email_local_char a = true) (p1 ++ p2 ++ py "." ++ p3)) as Hc.
  { apply Forall_app. split; [exact Hc1|]. apply Forall_app. split; [exact Hc2|].
    apply Forall_cons. split; [reflexivity|exact Hc3]. }
  destruct (group text 4 m) as [t|] eqn:E4.
  - destruct (bool_decide (t = [])) eqn:Et.
    + exists p1, p2, p3, []. rewrite !app_nil_r. by repeat split.
    + exists p1, p2, p3, (py "." ++ t). split.
      { f_equal. by rewrite <- !app_assoc. }
      split; [exact Hne1|].
      assert (Forall (fun a => email_local_char a = true) t) as Ht.
      { unfold group in E4. destruct (m_caps m !! 4) as [[i j]|] eqn:Ec; [|done].
        injection E4 as <-. by apply (Hgrp 4). }
      rewrite !app_assoc. apply Forall_app. split.
      * apply Forall_app. split; [|by apply Forall_cons].
        by rewrite <- !app_assoc.
      * exact Ht.
  - exists p1, p2, p3, []. rewrite !app_nil_r. by repeat split.
Qed.

Lemma lower_local_chars l :
  Forall (fun a => email_local_char a = true) l ->
  Forall (fun c => email_out_char c = true) (lower l) /\ "@"%char ∉ lower l.
Proof.
  induction 1 as [|a l Ha _ [IH1 IH2]]; [split; [constructor|apply not_elem_of_nil]|].
  destruct (email_local_lower a Ha) as [Hout Hne]. unfold lower in *. simpl. split.
  - by constructor.
  - intros Hin. apply elem_of_cons in Hin as [Hin|Hin]; [by apply Hne|by apply IH2].
Qed.

(** X15. Every e-mail of a block has a local part that is not empty, one
    at-sign, and a dot after it; it holds no white space and no capital
    letter: its characters are lower-case letters, digits and the signs of
    an address. *)
Theorem emails_shape (text e : str) :
  e ∈ (extract_contacts_from_block text).2 ->
  Forall (fun c => email_out_char c = true /\ Char.is_space c = false) e
  /\ lower e = e
  /\ exists local rest,
       e = local ++ py "@" ++ rest /\ local <> []
       /\ ("@"%char ∉ local) /\ ("@"%char ∉ rest) /\ ("."%char ∈ rest).
Proof.
  unfold extract_contacts_from_block. cbn [snd]. intros H.
  apply email_parts in H as (p1 & p2 & p3 & p4 & -> & Hne & Hall).
  apply Forall_app in Hall as [H1 H2].
  destruct (lower_local_chars _ H1) as [Ho1 Hn1].
  destruct (lower_local_chars _ H2) as [Ho2 Hn2].
  assert (lower (p1 ++ py "@" ++ p2 ++ py "." ++ p3 ++ p4)
          = lower p1 ++ py "@" ++ lower (p2 ++ py "." ++ p3 ++ p4)) as ->.
  { unfold lower. by rewrite !map_app. }
  assert (Forall (fun c => email_out_char c = true)
                 (lower p1 ++ py "@" ++ lower (p2 ++ py "." ++ p3 ++ p4))) as Hout.
  { apply Forall_app. split; [exact Ho1|]. apply Forall_cons. by split. }
  split; [|split].
  - eapply Forall_impl; [exact Hout|]. intros c Hc.
    split; [exact Hc|by apply email_out_fixed].
  - unfold lower at 1. induction Hout as [|c l Hc _ IH]; [done|].
    simpl. rewrite IH. f_equal. by apply email_out_fixed.
  - exists (lower p1), (lower (p2 ++ py "." ++ p3 ++ p4)).
    split; [done|]. split; [by destruct p1|]. split; [exact Hn1|].
    split; [exact Hn2|].
    unfold lower. rewrite !map_app. apply elem_of_app. right. by left.
Qed.

Lemma emails_shape_witness :
  lower (py "some.person@example.com") = py "some.person@example.com".
Proof.
  apply (emails_shape sample_block (py "some.person@example.com")).
  vm_compute. left.
Defined.

(** ** Substitution of runs of a class *)

Section Runs.
Variable s : str.
Variable p : ascii -> bool.

Lemma runlen_drop_S i a :
  s !! i = Some a ->
  runlen p (drop i s) = if p a then S (runlen p (drop (S i) s)) else 0.
Proof. intros H. by rewrite (drop_S _ _ _ H). Qed.

Lemma runlen_drop_end i : length s <= i -> runlen p (drop i s) = 0.
Proof. intros H. by rewrite drop_ge. Qed.

(** A greedy star on a class runs to the end of the run when what follows
    cannot fail. *)
Lemma star_class_run {R : Type} (K : nat -> caps -> option R) :
  (forall j c, is_Some (K j c)) ->
  forall n i c, length s - i <= n ->
    star_loop (run s (Class p)) K n i c = K (i + runlen p (drop i s)) c.
Proof.
  intros HK n. induction n as [|n IH]; intros i c Hn.
  - simpl. rewrite runlen_drop_end by lia. by rewrite Nat.add_0_r.
  - cbn [star_loop run]. destruct (s !! i) as [a|] eqn:Ea.
    + rewrite (runlen_drop_S _ _ Ea). destruct (p a).
      * rewrite (proj2 (Nat.ltb_lt i (S i))) by lia.
        rewrite IH by lia. rewrite <- Nat.add_succ_comm.
        by destruct (HK (S i + runlen p (drop (S i) s)) c) as [x ->].
      * by rewrite Nat.add_0_r.
    + rewrite runlen_drop_end by (by apply lookup_ge_None_1).
      by rewrite Nat.add_0_r.
Qed.

Lemma run_seq_eq {R : Type} r1 r2 (k : nat -> caps -> option R) i c :
  run s (Seq r1 r2) k i c = run s r1 (run s r2 k) i c.
Proof. reflexivity. Qed.

Lemma run_class_eq {R : Type} q (k : nat -> caps -> option R) i c :
  run s (Class q) k i c
  = match s !! i with
    | Some a => if q a then k (S i) c else None
    | None => None
    end.
Proof. reflexivity. Qed.

Lemma run_star_eq {R : Type} r (k : nat -> caps -> option R) i c :
  run s (Star r) k i c = star_loop (run s r) k (length s - i) i c.
Proof. reflexivity. Qed.

Lemma run_empty_eq {R : Type} (k : nat -> caps -> option R) i c :
  run s Empty k i c = k i c.
Proof. reflexivity. Qed.

Lemma match_at_plus i : match_at s (Plus (Class p)) i = run_match p 1 s i.
Proof.
  unfold match_at, run_match, Plus. rewrite run_seq_eq, run_class_eq.
  destruct (s !! i) as [a|] eqn:Ea.
  - rewrite (runlen_drop_S _ _ Ea). destruct (p a); [|done].
    rewrite run_star_eq, star_class_run; [|by eauto|lia]. simpl. do 2 f_equal. lia.
  - by rewrite runlen_drop_end by (by apply lookup_ge_None_1).
Qed.

Lemma match_at_at_least_2 i : match_at s (AtLeast 2 (Class p)) i = run_match p 2 s i.
Proof.
  unfold match_at, run_match, AtLeast. cbn [Times].
  rewrite !run_seq_eq, run_class_eq.
  destruct (s !! i) as [a|] eqn:Ea.
  - rewrite (runlen_drop_S _ _ Ea). destruct (p a); [|done].
    rewrite run_seq_eq, run_class_eq.
    destruct (s !! S i) as [b|] eqn:Eb.
    + rewrite (runlen_drop_S _ _ Eb). destruct (p b); [|done].
      rewrite run_empty_eq, run_star_eq, star_class_run; [|by eauto|lia].
      simpl. do 2 f_equal. lia.
    + by rewrite runlen_drop_end by (by apply lookup_ge_None_1).
  - by rewrite runlen_drop_end by (by apply lookup_ge_None_1).
Qed.

Lemma squeeze_skip m repl t :
  squeeze p m repl true t = squeeze p m repl false (drop (runlen p t) t).
Proof.
  induction t as [|c t IH]; [done|]. simpl. destruct (p c) eqn:Ec; simpl; [exact IH|].
  by rewrite Ec.
Qed.

Section Sub.
Variables (r : regex) (m : nat) (repl : str).
Hypothesis Hm : 1 <= m.
Hypothesis Hr : forall i, match_at s r i = run_match p m s i.

Lemma finditer_fuel_first n : forall pos m0 ms,
  finditer_fuel s r n pos = m0 :: ms -> pos <= m_start m0.
Proof.
  induction n as [|n IH]; intros pos m0 ms H; [done|]. simpl in H.
  destruct (match_at s r pos) as [m1|] eqn:E.
  - injection H as <- _. apply match_at_sound in E as [-> _]. lia.
  - apply IH in H. lia.
Qed.

Lemma finditer_fuel_past_end n : forall pos,
  length s <= pos -> finditer_fuel s r n pos = [].
Proof.
  induction n as [|n IH]; intros pos Hpos; [done|]. simpl.
  rewrite Hr. unfold run_match. rewrite runlen_drop_end by done.
  destruct m as [|m']; [lia|]. simpl. apply IH. lia.
Qed.

Lemma rebuild_step pos a ms :
  s !! pos = Some a ->
  (forall m0 ms', ms = m0 :: ms' -> S pos <= m_start m0) ->
  rebuild s repl pos ms = a :: rebuild s repl (S pos) ms.
Proof.
  intros Ha Hms. destruct ms as [|m0 ms']; simpl.
  - by apply drop_S.
  - specialize (Hms m0 ms' eq_refl). unfold substr.
    rewrite (drop_S _ _ _ Ha).
    replace (m_start m0 - pos) with (S (m_start m0 - S pos)) by lia. done.
Qed.

Lemma rebuild_finditer n : forall pos,
  length s + 1 <= n + pos ->
  rebuild s repl pos (finditer_fuel s r n pos) = squeeze p m repl false (drop pos s).
Proof.
  induction n as [|n IH]; intros pos Hn.
  - simpl. by rewrite drop_ge by lia.
  - cbn [finditer_fuel]. rewrite Hr. unfold run_match.
    destruct (Nat.leb_spec m (runlen p (drop pos s))) as [Hle|Hlt].
    + cbn [m_end m_start rebuild].
      rewrite (proj2 (Nat.ltb_lt pos (pos + runlen p (drop pos s)))) by lia.
      rewrite IH by lia. unfold substr. rewrite Nat.sub_diag, take_0. simpl app.
      destruct (s !! pos) as [a|] eqn:Ea;
        [|rewrite runlen_drop_end in Hle by (by apply lookup_ge_None_1); lia].
      rewrite (runlen_drop_S _ _ Ea) in Hle |- *.
      destruct (p a) eqn:Epa; [|lia]. rewrite (drop_S _ _ _ Ea).
      cbn [squeeze]. rewrite Epa.
      rewrite (proj2 (Nat.leb_le m (S (runlen p (drop (S pos) s))))) by lia.
      simpl. f_equal. rewrite squeeze_skip, drop_drop. do 2 f_equal. lia.
    + destruct (s !! pos) as [a|] eqn:Ea.
      * rewrite (rebuild_step pos a) by
          (first [exact Ea | intros m0 ms' E; by apply finditer_fuel_first in E]).
        rewrite IH by lia. rewrite (runlen_drop_S _ _ Ea) in Hlt.
        rewrite (drop_S _ _ _ Ea). cbn [squeeze]. simpl.
        destruct (p a); simpl; [|done].
        by rewrite (proj2 (Nat.leb_gt m (S (runlen p (drop (S pos) s))))) by lia.
      * apply lookup_ge_None_1 in Ea.
        rewrite finditer_fuel_past_end by lia. simpl. by rewrite !drop_ge by lia.
Qed.

Lemma sub_squeeze : sub s r repl = squeeze p m repl false s.
Proof. unfold sub, finditer. rewrite rebuild_finditer; [done|lia]. Qed.

End Sub.
End Runs.

(** ** Collapsed white space *)

Lemma no_adjacent_cons a u :
  no_adjacent_space (a :: u)
  = negb (Char.is_space a && starts_with_space u) && no_adjacent_space u.
Proof. destruct u as [|b u]; [|done]. simpl. by rewrite andb_false_r. Qed.

Lemma runlen_0_start t : runlen Char.is_space t = 0 -> starts_with_space t = false.
Proof. destruct t as [|c t]; [done|]. simpl. by destruct (Char.is_space c). Qed.

Lemma squeeze_space_shape m s :
  1 <= m <= 2 ->
  (forall b, no_adjacent_space (squeeze Char.is_space m (py " ") b s) = true)
  /\ starts_with_space (squeeze Char.is_space m (py " ") true s) = false
  /\ (starts_with_space (squeeze Char.is_space m (py " ") false s) = true ->
      starts_with_space s = true).
Proof.
  intros Hm. induction s as [|c t (IHa & IHb & IHc)]; [by repeat split|].
  assert (no_adjacent_space (squeeze Char.is_space m (py " ") false (c :: t)) = true
          /\ (starts_with_space (squeeze Char.is_space m (py " ") false (c :: t)) = true
              -> Char.is_space c = true)) as [Hf1 Hf2].
  { cbn [squeeze andb].
    destruct (Char.is_space c) eqn:Ec; cbn [andb].
    - destruct (Nat.leb_spec m (S (runlen Char.is_space t))) as [Hle|Hgt].
      + change (py " " ++ ?u) with (" "%char :: u).
        rewrite no_adjacent_cons, IHb, IHa. by split.
      + assert (runlen Char.is_space t = 0) as Hz by lia.
        apply runlen_0_start in Hz.
        rewrite no_adjacent_cons, IHa.
        destruct (starts_with_space (squeeze Char.is_space m (py " ") false t)) eqn:E;
          [rewrite IHc in Hz; done|].
        rewrite andb_false_r. by split.
    - rewrite no_adjacent_cons, Ec, IHa. split; [done|].
      simpl. by rewrite Ec. }
  split; [|split].
  - intros [|]; [|exact Hf1]. cbn [squeeze andb].
    destruct (Char.is_space c) eqn:Ec; [apply IHa|]. cbn [andb].
    rewrite no_adjacent_cons, Ec, IHa. done.
  - cbn [squeeze andb]. destruct (Char.is_space c) eqn:Ec; [exact IHb|].
    cbn [andb]. simpl. exact Ec.
  - exact Hf2.
Qed.

Lemma squeeze_only_plain s : forall b,
  only_plain_space (squeeze Char.is_space 1 (py " ") b s) = true.
Proof.
  unfold only_plain_space. induction s as [|c t IH]; intros b; [done|].
  cbn [squeeze]. destruct (Char.is_space c) eqn:Ec.
  - destruct b; cbn [andb]; [apply IH|]. simpl. apply IH.
  - rewrite andb_false_r. cbn [andb]. simpl. rewrite Ec. simpl. apply IH.
Qed.

Lemma lstrip_suffix s : exists a, s = a ++ lstrip s.
Proof.
  induction s as [|c s [a IH]]; [by exists []|]. simpl.
  destruct (Char.is_space c); [|by exists []].
  exists (c :: a). simpl. by f_equal.
Qed.

Lemma strip_infix s : exists a b, s = a ++ strip s ++ b.
Proof.
  unfold strip, rstrip. destruct (lstrip_suffix s) as [a Ha].
  destruct (lstrip_suffix (rev (lstrip s))) as [b Hb].
  exists a, (rev b). rewrite <- rev_app_distr, <- Hb, rev_involutive. exact Ha.
Qed.

Lemma no_adjacent_tail a u : no_adjacent_space (a ++ u) = true -> no_adjacent_space u = true.
Proof.
  induction a as [|x a IH]; [done|]. rewrite <- app_comm_cons, no_adjacent_cons.
  intros [_ H]%andb_true_iff. by apply IH.
Qed.

Lemma starts_with_space_app u b :
  u <> [] -> starts_with_space (u ++ b) = starts_with_space u.
Proof. by destruct u. Qed.

Lemma no_adjacent_front u b : no_adjacent_space (u ++ b) = true -> no_adjacent_space u = true.
Proof.
  induction u as [|x u IH]; [done|]. rewrite <- app_comm_cons, !no_adjacent_cons.
  intros [H1 H2]%andb_true_iff. rewrite (IH H2), andb_true_r.
  destruct u as [|y u]; [by rewrite andb_false_r|].
  by rewrite starts_with_space_app in H1.
Qed.

Lemma no_adjacent_infix s a u b :
  s = a ++ u ++ b -> no_adjacent_space s = true -> no_adjacent_space u = true.
Proof. intros -> H. by apply no_adjacent_tail, no_adjacent_front in H. Qed.

Lemma only_plain_infix s a u b :
  s = a ++ u ++ b -> only_plain_space s = true -> only_plain_space u = true.
Proof.
  unfold only_plain_space. intros -> H. rewrite !forallb_app in H.
  apply andb_true_iff in H as [_ H]. by apply andb_true_iff in H as [H _].
Qed.

(** The text left by [collapse_ws]. *)
Lemma collapse_ws_shape t :
  only_plain_space (collapse_ws t) = true
  /\ no_adjacent_space (collapse_ws t) = true
  /\ (collapse_ws t = [] \/ trimmed (collapse_ws t) = true).
Proof.
  unfold collapse_ws.
  rewrite (sub_squeeze t Char.is_space _ 1 (py " ") (Nat.le_refl 1)
             (match_at_plus t Char.is_space)).
  destruct (strip_infix (squeeze Char.is_space 1 (py " ") false t)) as (a & b & E).
  split; [|split].
  - eapply only_plain_infix; [exact E|apply squeeze_only_plain].
  - eapply no_adjacent_infix; [exact E|]. apply squeeze_space_shape. lia.
  - destruct (strip (squeeze Char.is_space 1 (py " ") false t)) eqn:Es; [by left|].
    right. rewrite <- Es. apply strip_trimmed. by rewrite Es.
Qed.

(** X11. The text of every span of a page is collapsed: it is not empty, has no
    white space at its ends, no white space but the plain space, and no two
    spaces side by side. *)
Theorem span_texts_collapsed (page : page_dict) (sp : span) :
  sp ∈ page_spans_of page ->
  trimmed (text sp) = true
  /\ only_plain_space (text sp) = true
  /\ no_adjacent_space (text sp) = true.
Proof.
  intros H. split; [by eapply flat_spans_trimmed|].
  unfold page_spans_of in H. rewrite get_flat_spans_with_lines_spec in H. simpl in H.
  apply page_spans_elem in H as (k & l & _ & _ & Hin).
  unfold line_spans in Hin. apply list_elem_of_fmap in Hin as ([t b] & -> & Hf).
  simpl. unfold fragments in Hf. apply list_elem_of_omap in Hf as (rs & _ & Hf).
  unfold fragment in Hf. destruct (bool_decide _); [done|].
  injection Hf as <- _.
  destruct (collapse_ws_shape (default [] (rs_text rs))) as (H1 & H2 & _). by split.
Qed.

Lemma span_texts_collapsed_witness :
  trimmed (py "A BHD") = true
  /\ only_plain_space (py "A BHD") = true
  /\ no_adjacent_space (py "A BHD") = true.
Proof.
  apply (span_texts_collapsed page_two_companies (bold "A BHD" 0)).
  vm_compute. left.
Defined.

Lemma only_plain_app a b :
  only_plain_space (a ++ b) = only_plain_space a && only_plain_space b.
Proof. apply forallb_app. Qed.

Lemma only_plain_join ts :
  Forall (fun t => only_plain_space t = true) ts ->
  only_plain_space (join (py " ") ts) = true.
Proof.
  induction 1 as [|t ts Ht Hts IH]; [done|].
  destruct ts as [|t2 ts]; [exact Ht|].
  change (join (py " ") (t :: t2 :: ts)) with (t ++ py " " ++ join (py " ") (t2 :: ts)).
  by rewrite !only_plain_app, Ht, IH.
Qed.

Lemma only_plain_no_break u c :
  only_plain_space u = true -> Char.is_space c = true -> c <> " "%char -> c ∉ u.
Proof.
  unfold only_plain_space. rewrite forallb_forall. intros H Hc Hne Hin.
  apply list_elem_of_In, H in Hin. rewrite Hc in Hin. simpl in Hin.
  apply Ascii.eqb_eq in Hin. done.
Qed.

(** X12. No line of a page holds a line break, a tab or any white space but
    plain spaces: the line breaks of a block body are those put between its
    lines. *)
Theorem page_lines_have_no_line_break (page : page_dict) (ln : str) :
  ln ∈ page_lines_of page ->
  only_plain_space ln = true /\ (LF ∉ ln) /\ (CR ∉ ln).
Proof.
  intros H.
  assert (only_plain_space ln = true) as Hp.
  { unfold page_lines_of in H. rewrite get_flat_spans_with_lines_spec in H. simpl in H.
    apply list_elem_of_fmap in H as (l & -> & _). unfold line_text.
    destruct (strip_infix (join (py " ") (fragments l).*1)) as (a & b & E).
    eapply only_plain_infix; [exact E|]. apply only_plain_join.
    apply Forall_forall. intros t Ht.
    apply list_elem_of_fmap in Ht as ([t' b'] & -> & Hf). simpl.
    unfold fragments in Hf. apply list_elem_of_omap in Hf as (rs & _ & Hf).
    unfold fragment in Hf. destruct (bool_decide _); [done|].
    injection Hf as <- _. apply collapse_ws_shape. }
  split; [exact Hp|]. split; apply (only_plain_no_break _ _ Hp); done.
Qed.

Lemma page_lines_have_no_line_break_witness : LF ∉ py "A BHD B BHD".
Proof.
  apply (page_lines_have_no_line_break page_two_names_on_a_line (py "A BHD B BHD")).
  vm_compute. left.
Defined.

Lemma runlen_snoc p t d : p d = false -> runlen p (t ++ [d]) = runlen p t.
Proof.
  intros Hd. induction t as [|c t IH]; simpl; [by rewrite Hd|].
  by rewrite IH.
Qed.

Lemma squeeze_snoc p m repl d : p d = false ->
  forall t b, squeeze p m repl b (t ++ [d]) = squeeze p m repl b t ++ [d].
Proof.
  intros Hd. induction t as [|c t IH]; intros b.
  - simpl. rewrite Hd, andb_false_r. done.
  - rewrite <- app_comm_cons. cbn [squeeze]. rewrite (runlen_snoc _ _ _ Hd), !IH.
    destruct (b && p c); [done|]. destruct (p c && _); [|done].
    by rewrite app_assoc.
Qed.

Lemma squeeze_trimmed m u :
  trimmed u = true -> trimmed (squeeze Char.is_space m (py " ") false u) = true.
Proof.
  intros H. apply trimmed_spec in H as (c & t & d & r & -> & E & Hc & Hd).
  apply trimmed_spec.
  assert (c :: t = rev r ++ [d]) as E'.
  { rewrite <- (rev_involutive (c :: t)), E. done. }
  exists c, (squeeze Char.is_space m (py " ") false t), d,
         (rev (squeeze Char.is_space m (py " ") false (rev r))).
  split; [|split; [|done]].
  - cbn [squeeze]. by rewrite Hc.
  - rewrite E', (squeeze_snoc _ _ _ _ Hd), rev_app_distr. done.
Qed.

Lemma clean_name_shape joined :
  clean_name joined <> [] ->
  trimmed (clean_name joined) = true /\ no_adjacent_space (clean_name joined) = true.
Proof.
  unfold clean_name. cbv zeta.
  rewrite (sub_squeeze _ Char.is_space _ 2 (py " ") ltac:(lia)
             (match_at_at_least_2 _ Char.is_space)).
  intros Hne. split; [|apply squeeze_space_shape; lia].
  apply squeeze_trimmed, strip_trimmed. intros E. by rewrite E in Hne.
Qed.

(** X4. The name of every header has no white space at its ends and no two
    white-space characters side by side. *)
Theorem header_names_are_clean (spans : list span) (h : header) :
  h ∈ extract_headers_from_bold spans ->
  trimmed (h.1) = true /\ no_adjacent_space (h.1) = true.
Proof.
  intros Hh. apply extract_headers_subset in Hh.
  set (P := fun h : header => trimmed (h.1) = true /\ no_adjacent_space (h.1) = true).
  assert (forall b idx h0, h0 ∈ flush_output b idx -> P h0) as HP.
  { intros b idx h0. unfold flush_output. cbv zeta.
    destruct (rejected _); [by intros ?%elem_of_nil|].
    destruct (_ || _); [|by intros ?%elem_of_nil]. cbn [andb].
    destruct (negb _ && _) eqn:E; [|by intros ?%elem_of_nil].
    intros ->%list_elem_of_singleton. apply andb_true_iff in E as [E _].
    apply negb_true_iff, bool_decide_eq_false in E. by apply clean_name_shape. }
  assert (Forall P (header_candidates spans)) as Hall.
  { unfold header_candidates. apply flush_results_Forall; [exact HP|].
    apply scan_results_Forall; [exact HP|constructor]. }
  rewrite Forall_forall in Hall. by apply Hall.
Qed.

Lemma header_names_are_clean_witness :
  trimmed (py "ACME X BHD") = true /\ no_adjacent_space (py "ACME X BHD") = true.
Proof.
  apply (header_names_are_clean [bold "ACME  (Co. No.: 1-A)  X BHD" 0]
                                (py "ACME X BHD", Some 0)).
  vm_compute. left.
Defined.

(** X19. The two substitutions of white-space runs made with [re.sub] do what a
    direct pass over the text does: the text of a fragment is its text with
    every run of white space made one space, then stripped; the last step
    of the cleaning of a name makes one space of every run of two or more
    white-space characters. *)
Theorem white_space_substitutions (t : str) :
  collapse_ws t = strip (squeeze Char.is_space 1 (py " ") false t)
  /\ clean_name t
     = squeeze Char.is_space 2 (py " ") false (strip (sub t CO_NO_RE [])).
Proof.
  split.
  - unfold collapse_ws.
    by rewrite (sub_squeeze t Char.is_space _ 1 (py " ") (Nat.le_refl 1)
                  (match_at_plus t Char.is_space)).
  - unfold clean_name. cbv zeta.
    by rewrite (sub_squeeze _ Char.is_space _ 2 (py " ") ltac:(lia)
                  (match_at_at_least_2 _ Char.is_space)).
Qed.

(** ** The registration annotation: the pattern and the direct reading *)

Lemma space_len_head t : space_len t = 1 -> exists t', t = " "%char :: t'.
Proof.
  destruct t as [|c t]; [done|]. cbn [space_len].
  destruct (Ascii.eqb_spec " " c) as [<-|]; [by eauto|done].
Qed.

Lemma co_no_char_not_close a : co_no_char a = true -> Ascii.eqb ")" a = false.
Proof.
  intros H. destruct (Ascii.eqb_spec ")" a) as [<-|]; [|done].
  vm_compute in H. done.
Qed.

Section Annotation.
Variable s : str.

Lemma run_seqs_cons {R : Type} r rs (k : nat -> caps -> option R) i c :
  run s (Seqs (r :: rs)) k i c = run s r (run s (Seqs rs) k) i c.
Proof. destruct rs; reflexivity. Qed.

Lemma run_chars {R : Type} ps (K : nat -> caps -> option R) : forall i c,
  run s (Seqs (map Class ps)) K i c
  = if has_chars ps (drop i s) then K (i + length ps) c else None.
Proof.
  induction ps as [|p ps IH]; intros i c.
  - simpl. by rewrite Nat.add_0_r.
  - cbn [map]. rewrite run_seqs_cons, run_class_eq.
    destruct (s !! i) as [a|] eqn:Ea.
    + rewrite (drop_S _ _ _ Ea). cbn [has_chars length].
      destruct (p a); [|done]. rewrite IH. cbn [andb].
      by rewrite Nat.add_succ_comm.
    + rewrite drop_ge by (by apply lookup_ge_None_1). done.
Qed.

Lemma run_opt_space {R : Type} (K : nat -> caps -> option R) i c :
  (space_len (drop i s) = 1 -> K i c = None) ->
  run s (Opt (Chr " ")) K i c = K (i + space_len (drop i s)) c.
Proof.
  intros HK. unfold Opt, Chr. cbn [run].
  destruct (s !! i) as [a|] eqn:Ea.
  - rewrite (drop_S _ _ _ Ea) in HK |- *. cbn [space_len] in *.
    destruct (Ascii.eqb " " a).
    + rewrite Nat.add_1_r. destruct (K (S i) c) as [x|]; [done|]. by apply HK.
    + by rewrite Nat.add_0_r.
  - rewrite drop_ge by (by apply lookup_ge_None_1). simpl. by rewrite Nat.add_0_r.
Qed.

(** A greedy star on a class runs to the end of the run when what follows
    fails inside the run. *)
Lemma star_class_then {R : Type} p (K : nat -> caps -> option R) :
  (forall j a c, s !! j = Some a -> p a = true -> K j c = None) ->
  forall n i c, length s - i <= n ->
    star_loop (run s (Class p)) K n i c = K (i + runlen p (drop i s)) c.
Proof.
  intros HK n. induction n as [|n IH]; intros i c Hn.
  - simpl. rewrite runlen_drop_end by lia. by rewrite Nat.add_0_r.
  - cbn [star_loop run]. destruct (s !! i) as [a|] eqn:Ea.
    + rewrite (runlen_drop_S _ _ _ _ Ea). destruct (p a) eqn:Epa.
      * rewrite (proj2 (Nat.ltb_lt i (S i))) by lia.
        rewrite IH by lia. rewrite <- Nat.add_succ_comm.
        destruct (K (S i + runlen p (drop (S i) s)) c) as [x|]; [done|].
        by eapply HK.
      * by rewrite Nat.add_0_r.
    + rewrite runlen_drop_end by (by apply lookup_ge_None_1).
      by rewrite Nat.add_0_r.
Qed.

Lemma run_plus_then {R : Type} p (K : nat -> caps -> option R) i c :
  (forall j a c', s !! j = Some a -> p a = true -> K j c' = None) ->
  run s (Plus (Class p)) K i c
  = if 1 <=? runlen p (drop i s) then K (i + runlen p (drop i s)) c else None.
Proof.
  intros HK. unfold Plus. rewrite run_seq_eq, run_class_eq.
  destruct (s !! i) as [a|] eqn:Ea.
  - rewrite (runlen_drop_S _ _ _ _ Ea). destruct (p a); [|done].
    rewrite run_star_eq, (star_class_then p K HK) by lia. simpl.
    by rewrite <- Nat.add_succ_comm.
  - by rewrite runlen_drop_end by (by apply lookup_ge_None_1).
Qed.

(** The pattern of the annotation, tried at position [i], finds what the
    direct reading finds. *)
Lemma run_co_no {R : Type} (K : nat -> caps -> option R) i c :
  run s CO_NO_RE K i c
  = match annotation_number (drop i s) with
    | Some (o, n) => K (i + o + n + 1) (<[1 := (i + o, i + o + n)]> c)
    | None => None
    end.
Proof.
  change (run s CO_NO_RE K i c)
    with (run s (Seqs (map Class co_open))
            (run s (Opt (Chr " "))
               (run s (Seqs (map Class no_dot))
                  (run s (Opt (Chr " "))
                     (run s (Seqs (map Class [Ascii.eqb ":"]))
                        (run s (Opt (Chr " "))
                           (run s (Group 1 (Plus (Class co_no_char)))
                              (run s (Seqs (map Class [Ascii.eqb ")"])) K)))))))
            i c).
  unfold annotation_number. cbv zeta. rewrite !drop_drop.
  rewrite run_chars. destruct (has_chars co_open (drop i s)); [|done].
  change (length co_open) with 4.
  rewrite run_opt_space by
    (intros Hsp; rewrite run_chars; by apply space_len_head in Hsp as [t' ->]).
  set (o1 := 4 + space_len (drop (i + 4) s)).
  replace (i + 4 + space_len (drop (i + 4) s)) with (i + o1) by (unfold o1; lia).
  rewrite run_chars. destruct (has_chars no_dot (drop (i + o1) s)); [|done].
  change (length no_dot) with 3.
  replace (i + (o1 + 3)) with (i + o1 + 3) by lia.
  rewrite run_opt_space by
    (intros Hsp; rewrite run_chars; by apply space_len_head in Hsp as [t' ->]).
  set (o2 := o1 + 3 + space_len (drop (i + o1 + 3) s)).
  replace (i + o1 + 3 + space_len (drop (i + o1 + 3) s)) with (i + o2)
    by (unfold o2; lia).
  rewrite run_chars. destruct (has_chars [Ascii.eqb ":"] (drop (i + o2) s)); [|done].
  change (length [Ascii.eqb ":"]) with 1.
  replace (i + (o2 + 1)) with (i + o2 + 1) by lia.
  assert (forall (K' : nat -> caps -> option R) g c0,
            run s (Group 1 (Plus (Class co_no_char)))
                (run s (Seqs (map Class [Ascii.eqb ")"])) K') g c0
            = if (1 <=? runlen co_no_char (drop g s))
                 && has_chars [Ascii.eqb ")"]
                              (drop (g + runlen co_no_char (drop g s)) s)
              then K' (g + runlen co_no_char (drop g s) + 1)
                      (<[1 := (g, g + runlen co_no_char (drop g s))]> c0)
              else None) as Hgroup.
  { intros K' g c0. cbn [run map Seqs].
    rewrite (run_plus_then co_no_char
               (fun j c' =>
                  match s !! j with
                  | Some a => if Ascii.eqb ")" a then K' (S j) (<[1 := (g, j)]> c') else None
                  | None => None
                  end)).
    - destruct (1 <=? runlen co_no_char (drop g s)); [|done]. cbn [andb].
      destruct (s !! (g + runlen co_no_char (drop g s))) as [a|] eqn:Ea.
      + rewrite (drop_S _ _ _ Ea). cbn [has_chars].
        destruct (Ascii.eqb ")" a); [|done]. cbn [andb]. by rewrite Nat.add_1_r.
      + by rewrite drop_ge by (by apply lookup_ge_None_1).
    - intros j a c' Ha Hp. rewrite Ha. by rewrite (co_no_char_not_close _ Hp). }
  rewrite run_opt_space.
  - set (o3 := o2 + 1 + space_len (drop (i + o2 + 1) s)).
    replace (i + o2 + 1 + space_len (drop (i + o2 + 1) s)) with (i + o3)
      by (unfold o3; lia).
    rewrite Hgroup.
    replace (i + (o3 + runlen co_no_char (drop (i + o3) s)))
      with (i + o3 + runlen co_no_char (drop (i + o3) s)) by lia.
    by destruct (_ && _).
  - intros Hsp. rewrite Hgroup. apply space_len_head in Hsp as [t' Ht].
    by rewrite Ht.
Qed.

Lemma match_at_co_no i :
  match_at s CO_NO_RE i
  = match annotation_number (drop i s) with
    | Some (o, n) => Some (Match i (i + o + n + 1) (<[1 := (i + o, i + o + n)]> ∅))
    | None => None
    end.
Proof. unfold match_at. by rewrite run_co_no. Qed.

Lemma without_annotation_skip t : forall k,
  without_annotation k t = without_annotation 0 (drop k t).
Proof.
  induction t as [|c t IH]; intros k; [by destruct k|].
  destruct k as [|k]; [done|]. cbn [without_annotation drop]. apply IH.
Qed.

Lemma finditer_co_no_past_end n : forall pos,
  length s <= pos -> finditer_fuel s CO_NO_RE n pos = [].
Proof.
  induction n as [|n IH]; intros pos Hpos; [done|]. cbn [finditer_fuel].
  rewrite match_at_co_no, drop_ge by done. cbn. apply IH. lia.
Qed.

Lemma finditer_fuel_start r n : forall pos m0 ms,
  finditer_fuel s r n pos = m0 :: ms -> pos <= m_start m0.
Proof.
  induction n as [|n IH]; intros pos m0 ms H; [done|]. simpl in H.
  destruct (match_at s r pos) as [m1|] eqn:E.
  - injection H as <- _. apply match_at_sound in E as [-> _]. lia.
  - apply IH in H. lia.
Qed.

Lemma rebuild_keep repl pos a ms :
  s !! pos = Some a ->
  (forall m0 ms', ms = m0 :: ms' -> S pos <= m_start m0) ->
  rebuild s repl pos ms = a :: rebuild s repl (S pos) ms.
Proof.
  intros Ha Hms. destruct ms as [|m0 ms']; simpl.
  - by apply drop_S.
  - specialize (Hms m0 ms' eq_refl). unfold substr.
    rewrite (drop_S _ _ _ Ha).
    replace (m_start m0 - pos) with (S (m_start m0 - S pos)) by lia. done.
Qed.

Lemma rebuild_co_no n : forall pos,
  length s + 1 <= n + pos ->
  rebuild s [] pos (finditer_fuel s CO_NO_RE n pos)
  = without_annotation 0 (drop pos s).
Proof.
  induction n as [|n IH]; intros pos Hn.
  - simpl. by rewrite drop_ge by lia.
  - cbn [finditer_fuel]. rewrite match_at_co_no.
    destruct (s !! pos) as [a|] eqn:Ea.
    + rewrite (drop_S _ _ _ Ea). cbn [without_annotation].
      destruct (annotation_number (a :: drop (S pos) s)) as [[o m]|] eqn:E.
      * cbn [m_end m_start rebuild].
        rewrite (proj2 (Nat.ltb_lt pos (pos + o + m + 1))) by lia.
        rewrite IH by lia. unfold substr. rewrite Nat.sub_diag, take_0. simpl app.
        rewrite (without_annotation_skip (drop (S pos) s) (o + m)), drop_drop.
        do 2 f_equal. lia.
      * rewrite (rebuild_keep [] pos a) by
          (first [exact Ea | intros m0 ms' E0; by apply finditer_fuel_start in E0]).
        by rewrite IH by lia.
    + apply lookup_ge_None_1 in Ea. rewrite drop_ge by done. cbn.
      rewrite finditer_co_no_past_end by lia. simpl. by rewrite drop_ge by lia.
Qed.

Lemma sub_co_no : sub s CO_NO_RE [] = without_annotation 0 s.
Proof. unfold sub, finditer. rewrite rebuild_co_no; [done|lia]. Qed.

End Annotation.

(** The cleaning of a name does what the specification says. *)
Lemma clean_name_cleaned t : clean_name t = cleaned t.
Proof.
  unfold clean_name, cleaned. cbv zeta.
  rewrite (sub_squeeze _ Char.is_space _ 2 (py " ") ltac:(lia)
             (match_at_at_least_2 _ Char.is_space)).
  by rewrite sub_co_no.
Qed.

Lemma no_paren_cons c t :
  no_paren (c :: t) = true -> Ascii.eqb "(" c = false /\ no_paren t = true.
Proof.
  unfold no_paren. cbn [forallb]. intros [H1 H2]%andb_true_iff.
  by apply negb_true_iff in H1.
Qed.

Lemma annotation_number_no_paren c t :
  Ascii.eqb "(" c = false -> annotation_number (c :: t) = None.
Proof. intros H. unfold annotation_number. cbn [has_chars co_open]. by rewrite H. Qed.

(** A text without an opening parenthesis holds no annotation. *)
Lemma without_annotation_app a t :
  no_paren a = true -> without_annotation 0 (a ++ t) = a ++ without_annotation 0 t.
Proof.
  induction a as [|c a IH]; intros H; [done|].
  apply no_paren_cons in H as [Hc Ha]. rewrite <- app_comm_cons.
  cbn [without_annotation]. rewrite (annotation_number_no_paren _ _ Hc).
  by rewrite IH.
Qed.

Lemma runlen_all p num d r :
  forallb p num = true -> p d = false -> runlen p (num ++ d :: r) = length num.
Proof.
  intros Hall Hd. induction num as [|c num IH]; simpl; [by rewrite Hd|].
  simpl in Hall. apply andb_true_iff in Hall as [-> Hall]. by rewrite IH.
Qed.

Lemma annotation_of_app num t :
  annotation_of num ++ t
  = ["("; "C"; "o"; "."; " "; "N"; "o"; "."; ":"; " "]%char ++ num ++ ")"%char :: t.
Proof. unfold annotation_of. by rewrite <- !app_assoc. Qed.

Lemma annotation_number_prefix rest :
  annotation_number
    (["("; "C"; "o"; "."; " "; "N"; "o"; "."; ":"; " "]%char ++ rest)
  = if (1 <=? runlen co_no_char rest)
       && has_chars [Ascii.eqb ")"] (drop (runlen co_no_char rest) rest)
    then Some (10, runlen co_no_char rest) else None.
Proof. reflexivity. Qed.

Lemma annotation_number_of num t :
  num <> [] -> forallb co_no_char num = true ->
  annotation_number (annotation_of num ++ t) = Some (10, length num).
Proof.
  intros Hne Hall. rewrite annotation_of_app, annotation_number_prefix.
  rewrite (runlen_all co_no_char num ")" t Hall eq_refl).
  rewrite drop_app_length. destruct num; [done|]. reflexivity.
Qed.

Lemma drop_S_length {A : Type} (l : list A) d t :
  drop (S (length l)) (l ++ d :: t) = t.
Proof. induction l as [|x l IH]; [done|]. exact IH. Qed.

Lemma without_annotation_of num t :
  num <> [] -> forallb co_no_char num = true ->
  without_annotation 0 (annotation_of num ++ t) = without_annotation 0 t.
Proof.
  intros Hne Hall. pose proof (annotation_number_of num t Hne Hall) as E.
  rewrite annotation_of_app in E |- *.
  cbn [app] in E |- *. cbn [without_annotation]. rewrite E.
  etransitivity; [apply without_annotation_skip|]. f_equal.
  cbn [Nat.add drop]. apply drop_S_length.
Qed.

Lemma strip_space_after base :
  trimmed base = true -> strip (base ++ py " ") = base.
Proof.
  intros H. apply trimmed_spec in H as (c & t & d & r & -> & E & Hc & Hd).
  unfold strip, rstrip. rewrite <- app_comm_cons, (lstrip_id _ _ Hc).
  rewrite app_comm_cons, rev_app_distr, E.
  change (lstrip (rev (py " ") ++ d :: r)) with (lstrip (d :: r)).
  rewrite (lstrip_id _ _ Hd), <- E. apply rev_involutive.
Qed.

Lemma squeeze_no_adjacent t :
  no_adjacent_space t = true -> squeeze Char.is_space 2 (py " ") false t = t.
Proof.
  induction t as [|c t IH]; [done|]. rewrite no_adjacent_cons.
  intros [H1 H2]%andb_true_iff. cbn [squeeze andb]. rewrite (IH H2).
  destruct (Char.is_space c) eqn:Ec; [|done]. cbn [andb].
  apply negb_true_iff in H1. cbn [andb] in H1.
  destruct t as [|b t]; [done|]. simpl in H1. simpl. by rewrite H1.
Qed.

(** C2, as amended. A bold run whose joined text has a company suffix, or
    whose last span holds the registration mark, when that happens with its
    last span and not before, is flushed as a whole. It gives exactly one
    header candidate, ending at its last span and named by its joined text
    with every registration annotation removed, the ends stripped and the
    doubled spaces made one, if and only if the joined text does not start
    with a rejection prefix and that name is not empty and has at most 120
    characters; and then that name is the name of a header. When the joined
    text holds no opening parenthesis and no doubled space, the name is
    exactly the joined text; when it is a trimmed text followed by a space
    and the annotation [(Co. No.: <number>)], the name is that text. *)
Theorem bold_run_header (pre run post : list span) :
  buf (scan 0 pre init_state) = [] ->
  is_bold_run run = true ->
  header_candidates (pre ++ run ++ post)
  = header_candidates pre
    ++ (if rejected (run_text run) then []
        else if negb (bool_decide (run_name run = []))
                && (length (run_name run) <=? 120)
             then [(run_name run, Some (length pre + length run - 1))]
             else [])
    ++ candidates_from (length pre + length run) post
  /\ (rejected (run_text run) = false -> run_yields_header pre run post)
  /\ (no_paren (run_text run) = true ->
      no_adjacent_space (run_text run) = true ->
      run_name run = run_text run)
  /\ (forall base num,
        run_text run = base ++ py " " ++ annotation_of num ->
        no_paren base = true -> trimmed base = true ->
        no_adjacent_space base = true ->
        num <> [] -> forallb co_no_char num = true ->
        run_name run = base).
Proof.
  intros Hpre Hrun. unfold is_bold_run in Hrun.
  apply andb_true_iff in Hrun as [Hall Hfl].
  destruct (forallb_run_split _ Hall) as [Hacc Htr].
  destruct (flushes_at_end_trigger _ _ Hfl) as [Hne Htg]. simpl in Htg.
  assert (header_candidates (pre ++ run ++ post)
          = header_candidates pre
            ++ flush_output (text <$> run) (Some (length pre + length run - 1))
            ++ candidates_from (length pre + length run) post) as Heq.
  { unfold header_candidates at 1. rewrite scan_app, scan_app, Nat.add_0_l.
    rewrite (scan_run run [] (length pre) _ Hpre Hacc Hfl), app_nil_l.
    rewrite (flush_spec (HState (results (scan 0 pre init_state)) (text <$> run)
                                (Some (length pre + length run - 1))))
      by exact Hne.
    rewrite candidates_after_flush by reflexivity. cbn [results buf last_idx].
    unfold header_candidates. rewrite (flush_empty _ Hpre). by rewrite <- app_assoc. }
  rewrite (flush_output_run _ _ Htr Hne Htg) in Heq. cbv zeta in Heq.
  fold (run_text run) in Heq. rewrite clean_name_cleaned in Heq.
  fold (run_name run) in Heq.
  split; [exact Heq|]. split; [|split].
  - intros Hrej Hname Hlen. rewrite Hrej in Heq.
    assert (negb (bool_decide (run_name run = [])) && (length (run_name run) <=? 120)
            = true) as Hok.
    { apply andb_true_iff. split.
      - apply negb_true_iff, bool_decide_eq_false. exact Hname.
      - by apply Nat.leb_le. }
    rewrite Hok in Heq.
    apply (candidate_name_kept _ (run_name run, Some (length pre + length run - 1))).
    rewrite Heq. apply elem_of_app. right. by left.
  - intros Hnp Hna. unfold run_name, cleaned.
    pose proof (without_annotation_app (run_text run) [] Hnp) as E.
    rewrite !app_nil_r in E. rewrite E.
    rewrite trimmed_strip by (by apply trimmed_join).
    by apply squeeze_no_adjacent.
  - intros base num Htext Hnp Htrim Hna Hnum Hnumc. unfold run_name, cleaned.
    rewrite Htext, (without_annotation_app base _ Hnp).
    change (py " " ++ annotation_of num) with (" "%char :: annotation_of num).
    cbn [without_annotation].
    rewrite (annotation_number_no_paren " " _ eq_refl).
    pose proof (without_annotation_of num [] Hnum Hnumc) as E.
    rewrite app_nil_r in E. rewrite E. cbn [without_annotation].
    change (base ++ [" "%char]) with (base ++ py " ").
    rewrite (strip_space_after _ Htrim). by apply squeeze_no_adjacent.
Qed.

Lemma bold_run_header_witness :
  header_candidates ([plain "x" 0] ++ [bold "ACME" 1; bold "SDN BHD" 1] ++ [plain "y" 2])
  = [(py "ACME SDN BHD", Some 2)]
  /\ run_yields_header [plain "x" 0] [bold "ACME" 1; bold "SDN BHD" 1] [plain "y" 2]
  /\ run_name [bold "ACME" 1; bold "SDN BHD" 1] = py "ACME SDN BHD"
  /\ run_name [bold "ACME TRADING" 0; bold "(Co. No.: 123456-A)" 0]
     = py "ACME TRADING".
Proof.
  destruct (bold_run_header [plain "x" 0] [bold "ACME" 1; bold "SDN BHD" 1]
                            [plain "y" 2]) as (H1 & H2 & H3 & _);
    [reflexivity|reflexivity|].
  destruct (bold_run_header [] [bold "ACME TRADING" 0; bold "(Co. No.: 123456-A)" 0]
                            []) as (_ & _ & _ & H4);
    [reflexivity|reflexivity|].
  split; [rewrite H1; vm_compute; reflexivity|].
  split; [apply H2; reflexivity|].
  split; [apply H3; reflexivity|].
  apply (H4 (py "ACME TRADING") (py "123456-A"));
    [reflexivity|reflexivity|reflexivity|reflexivity|discriminate|reflexivity].
Defined.

(** The two runs named by the specification. *)
Example acme_sdn_bhd :
  extract_headers_from_bold [bold "ACME SDN BHD" 0; plain "x" 1]
  = [(py "ACME SDN BHD", Some 0)].
Proof. vm_compute. reflexivity. Qed.

Example acme_with_registration :
  extract_headers_from_bold
    [bold "ACME TRADING" 0; bold "(Co. No.: 123456-A)" 0; plain "x" 1]
  = [(py "ACME TRADING", Some 1)].
Proof. vm_compute. reflexivity. Qed.

(** A bold run that ends in a company suffix and starts with a rejection
    prefix is discarded, although its cleaned text is a fit name. *)
Lemma labelled_run_gives_no_header :
  is_bold_run run_with_label_prefix = true
  /\ run_name run_with_label_prefix = py "directory of ACME SDN BHD"
  /\ extract_headers_from_bold run_with_label_prefix = []
  /\ ¬ run_yields_header [] run_with_label_prefix [].
Proof.
  split; [vm_compute; reflexivity|]. split; [vm_compute; reflexivity|].
  split; [vm_compute; reflexivity|].
  intros H. unfold run_yields_header in H.
  assert (run_name run_with_label_prefix
            ∈ (extract_headers_from_bold ([] ++ run_with_label_prefix ++ [])).*1) as Hin.
  { apply H; [vm_compute; discriminate|vm_compute; lia]. }
  vm_compute in Hin. by apply elem_of_nil in Hin.
Qed.
